(** * The FFDS results provider (lib/providers/ffds.js)

    A shallow embedding of the provider that scrapes the dance federation's
    result pages: the name normaliser [cleanNames], the contest title cleaner
    [cleanContest], the season filter [isFirstHalf] / [isWithinSeason], the
    extraction of listing rows and ranking pages, and the operations of the
    provider class.

    Conventions.
    - Every page is requested with [encoding: 'binary'], so each code unit of
      the text that reaches these functions is one byte.  A host string is a
      [list ascii]; [charCode] is [charCodeAt].
    - The text a caller passes (a searched text, the name of a group) is
      read in the same code units; a text that holds others is outside the
      model.
    - A promise is the outcome it settles to, and an operation that touches
      the network is a function of the [State], which records every request
      sent.
    - The HTML queries (cheerio), the date library (moment) and the hashing,
      slug and formatting helpers are parameters of the sections that use
      them. *)

From Stdlib Require Import ZArith List Ascii String Lia Bool.
From stdpp Require Import base option list gmap strings.
Import ListNotations.
Open Scope Z_scope.

(** * The program *)

(** ** Host strings *)

Abbreviation jsstring := (list ascii).

Definition js (s : string) : jsstring := list_ascii_of_string s.

Module JS.

(** [s.charCodeAt(i)] of the code unit [c]. *)
Definition charCode (c : ascii) : Z := Z.of_N (N_of_ascii c).

Definition ofCode (n : Z) : ascii := ascii_of_N (Z.to_N n).

Definition inRange (lo hi : Z) (c : ascii) : bool :=
  (lo <=? charCode c) && (charCode c <=? hi).

(** White space and line terminators below 256: what [trim] removes and
    what [\s] matches. *)
Definition isWhiteSpace (c : ascii) : bool :=
  inRange 9 13 c || (charCode c =? 32) || (charCode c =? 160).

(** [toLowerCase] of one code unit: A-Z and the accented capitals 192-222
    (215, the multiplication sign, apart) move up by 32. *)
Definition toLowerChar (c : ascii) : ascii :=
  if inRange 65 90 c || (inRange 192 222 c && negb (charCode c =? 215))
  then ofCode (charCode c + 32) else c.

(** [toUpperCase] of one code unit: a-z and 224-254 (247, the division sign,
    apart) move down by 32 and the sharp s becomes SS.  The capitals of the
    micro sign (181) and of y with diaeresis (255) are U+039C and U+0178,
    which no code unit of [jsstring] stands for: the two are left as they
    are here, so this is the host's [toUpperCase] on text without them, and
    on no other text. *)
Definition toUpperChar (c : ascii) : jsstring :=
  if inRange 97 122 c || (inRange 224 254 c && negb (charCode c =? 247))
  then [ofCode (charCode c - 32)]
  else if charCode c =? 223 then js "SS" else [c].

Definition toLowerCase (s : jsstring) : jsstring := map toLowerChar s.

Definition toUpperCase (s : jsstring) : jsstring := flat_map toUpperChar s.

Fixpoint trimStart (s : jsstring) : jsstring :=
  match s with
  | c :: s' => if isWhiteSpace c then trimStart s' else s
  | [] => []
  end.

Definition trimEnd (s : jsstring) : jsstring := rev (trimStart (rev s)).

Definition trim (s : jsstring) : jsstring := trimEnd (trimStart s).

Fixpoint startsWith (p s : jsstring) : bool :=
  match p, s with
  | [], _ => true
  | a :: p', b :: s' => bool_decide (a = b) && startsWith p' s'
  | _ :: _, [] => false
  end.

(** [s.includes(p)], and [/p/.test(s)] for a pattern of plain characters. *)
Fixpoint includes (p s : jsstring) : bool :=
  startsWith p s ||
  match s with
  | _ :: s' => includes p s'
  | [] => false
  end.

(** [s.replace(p, r)] for a string pattern [p] and a replacement [r] without
    a dollar sign: the first occurrence only. *)
Fixpoint replace (p r s : jsstring) : jsstring :=
  if startsWith p s then r ++ skipn (length p) s
  else match s with
       | c :: s' => c :: replace p r s'
       | [] => []
       end.

(** [s.split(sep)] for a separator that is not empty; [skip] counts the
    code units of a separator still to pass, [cur] is the piece being read. *)
Fixpoint splitFrom (sep : jsstring) (skip : nat) (cur s : jsstring) : list jsstring :=
  match s with
  | [] => [cur]
  | c :: s' =>
      match skip with
      | S k => splitFrom sep k cur s'
      | O => if startsWith sep s
             then cur :: splitFrom sep (length sep - 1) [] s'
             else splitFrom sep 0 (cur ++ [c]) s'
      end
  end.

Definition split (sep s : jsstring) : list jsstring := splitFrom sep 0 [] s.

(** The bound [n] of a [slice], counted from the end when it is negative. *)
Definition sliceIndex (len n : Z) : Z :=
  if n <? 0 then Z.max (len + n) 0 else Z.min n len.

(** [s.slice(a, b)]. *)
Definition slice (s : jsstring) (a b : Z) : jsstring :=
  let len := Z.of_nat (length s) in
  let from := sliceIndex len a in
  let to := sliceIndex len b in
  firstn (Z.to_nat (to - from)) (skipn (Z.to_nat from) s).

(** [s.charCodeAt(i)]; [None] is NaN, past the end. *)
Definition charCodeAt (s : jsstring) (i : nat) : option Z :=
  charCode <$> nth_error s i.

End JS.

(** ** underscore.string *)

Module Str.

Definition lt : ascii := "<"%char.
Definition gt : ascii := ">"%char.

(** Length of the tag body that ends at the first [>] of [s], that sign
    included, when at least one code unit stands before it. *)
Fixpoint tagLength (s : jsstring) : option nat :=
  match s with
  | [] => None
  | c :: s' =>
      if bool_decide (c = gt) then Some 1%nat
      else S <$> tagLength s'
  end.

(** [stripTags]: every match of [/<\/?[^>]+>/g] is removed; [skip] counts
    the code units of a tag still to drop. *)
Fixpoint stripFrom (skip : nat) (s : jsstring) : jsstring :=
  match s with
  | [] => []
  | c :: s' =>
      match skip with
      | S k => stripFrom k s'
      | O =>
          if bool_decide (c = lt) then
            match tagLength s' with
            | Some (S (S k)) => stripFrom (S (S k)) s'
            | _ => c :: stripFrom 0 s'
            end
          else c :: stripFrom 0 s'
      end
  end.

Definition stripTags (s : jsstring) : jsstring := stripFrom 0 s.

Definition isBreak (c : ascii) : bool :=
  JS.isWhiteSpace c || bool_decide (c = "-"%char).

(** The replacement [/(?:^|\s|-)\S/g -> toUpperCase] of [titleize]:
    [start] says the scan stands at the beginning of the string.  A match
    takes the break and the code unit after it, so the scan resumes past
    both. *)
Fixpoint capitalize (start : bool) (s : jsstring) : jsstring :=
  match s with
  | [] => []
  | c :: s' =>
      if start && negb (JS.isWhiteSpace c) then JS.toUpperChar c ++ capitalize false s'
      else if isBreak c then
        match s' with
        | d :: s'' =>
            if negb (JS.isWhiteSpace d)
            then c :: JS.toUpperChar d ++ capitalize false s''
            else c :: capitalize false s'
        | [] => [c]
        end
      else c :: capitalize false s'
  end.

(** [titleize(str)] on a string.  The provider imports the curried
    [titleize] of underscore.string.fp: what it answers when no string is
    passed is not a string, and is left to the host. *)
Definition titleize (str : jsstring) : jsstring :=
  capitalize true (JS.toLowerCase str).

End Str.

(** ** Outcomes *)

Inductive JoiReason := AnyRequired | AnyEmpty.

(** What a call throws or a promise rejects with. *)
Inductive Error :=
| TypeError
| NetworkError (cause : jsstring)
| ValidationError (label : jsstring) (reason : JoiReason)
| GroupNotFound (group : jsstring)
| NamesParseError (row : jsstring) (cause : Error)
| RankingParseError (title : jsstring) (heat : Z) (cause : Error)
| RequestError (context : jsstring) (cause : Error).

(** A call that returns or throws; a promise that resolves or rejects. *)
Inductive Outcome (A : Type) :=
| Return (a : A)
| Throw (e : Error).

Arguments Return {A} a.
Arguments Throw {A} e.

Definition bind {A B} (o : Outcome A) (k : A -> Outcome B) : Outcome B :=
  match o with
  | Return a => k a
  | Throw e => Throw e
  end.

(** ** Promises over the network *)

(** A computation that may send requests and settles to an outcome: a
    function of the state [S] it runs in. *)
Definition Promise (S A : Type) : Type := S -> Outcome A * S.

Definition resolve {S A} (a : A) : Promise S A := fun s => (Return a, s).

Definition reject {S A} (e : Error) : Promise S A := fun s => (Throw e, s).

(** [p.then(k)]. *)
Definition andThen {S A B} (p : Promise S A) (k : A -> Promise S B) : Promise S B :=
  fun s =>
    match p s with
    | (Return a, s') => k a s'
    | (Throw e, s') => (Throw e, s')
    end.

(** [p.catch(h)]. *)
Definition orCatch {S A} (p : Promise S A) (h : Error -> Promise S A) : Promise S A :=
  fun s =>
    match p s with
    | (Return a, s') => (Return a, s')
    | (Throw e, s') => h e s'
    end.

(** A synchronous call inside a [then]: its throw rejects the promise. *)
Definition settle {S A} (o : Outcome A) : Promise S A := fun s => (o, s).

Notation "x <- p ;; k" := (andThen p (fun x => k))
  (at level 100, p at next level, right associativity).

(** ** The helpers of lib/utils the provider imports *)

Module Utils.

(** Modelled from the spec: the letters that [removeAccents] (lib/utils, not
    among the sources) strips of their diacritics, each with its base
    letter, among the code units below 256. *)
Definition baseLetter (c : ascii) : ascii :=
  let n := JS.charCode c in
  let within lo hi := (lo <=? n) && (n <=? hi) in
  if within 192 197 then "A"%char else if n =? 199 then "C"%char
  else if within 200 203 then "E"%char else if within 204 207 then "I"%char
  else if n =? 209 then "N"%char else if within 210 214 then "O"%char
  else if within 217 220 then "U"%char else if n =? 221 then "Y"%char
  else if within 224 229 then "a"%char else if n =? 231 then "c"%char
  else if within 232 235 then "e"%char else if within 236 239 then "i"%char
  else if n =? 241 then "n"%char else if within 242 246 then "o"%char
  else if within 249 252 then "u"%char
  else if (n =? 253) || (n =? 255) then "y"%char
  else c.

(** Modelled from the spec: [removeAccents] of lib/utils is not among the
    sources.  Section 4.1 step 6 has it strip the diacritics of an
    accumulator; the worked example of section 8 shows that the separator
    which ends the surname accumulator does not reach the output, so the
    white space around the accumulator goes as well. *)
Definition removeAccents (s : jsstring) : jsstring :=
  JS.trim (map baseLetter s).

(** Modelled from the spec: [runSerially] of lib/utils is not among the
    sources.  Section 4.6: the deferred operations run one at a time in list
    order; when all succeed their results come back in that order; the first
    failure stops the scheduling and is the failure of the whole, and the
    results gathered so far are not returned. *)
Fixpoint runSerially {S A} (tasks : list (Promise S A)) : Promise S (list A) :=
  match tasks with
  | [] => resolve []
  | task :: tasks' =>
      a <- task ;;
      rest <- runSerially tasks' ;;
      resolve (a :: rest)
  end.

(** Modelled from the spec: [handleRequestError] of lib/utils is not among
    the sources.  Section 6: a failure is rejected again under a message that
    names the action and the provider before the underlying cause. *)
Definition handleRequestError {S A} (context : jsstring) : Error -> Promise S A :=
  fun cause => reject (RequestError context cause).

End Utils.

(** ** Name normaliser *)

Record Dancer := mkDancer { last : jsstring; first : jsstring; prevUpper : bool }.

Definition isUpperCode (code : option Z) : bool :=
  match code with
  | Some n => ((65 <=? n) && (n <=? 90)) || ((192 <=? n) && (n <=? 221))
  | None => false
  end.

Definition isSeparatorCode (code : option Z) : bool :=
  match code with
  | Some n => (n =? 32) || (n =? 39) || (n =? 45)
  | None => false
  end.

(** The body of the [forEach] over the code units of [dancer]. *)
Definition scanChar (dancer : jsstring) (st : Dancer) (char : ascii) (i : nat) : Dancer :=
  let code := JS.charCodeAt dancer i in
  if isUpperCode code then
    mkDancer (last st ++ [char]) (first st) true
  else if isSeparatorCode code then
    if prevUpper st
    then mkDancer (last st ++ [char]) (first st) false
    else mkDancer (last st) (first st ++ [char]) false
  else
    if prevUpper st
    then mkDancer (JS.slice (last st) 0 (Z.of_nat (length (last st)) - 1))
                  (first st ++ JS.slice dancer (Z.of_nat i - 1) (Z.of_nat i + 1))
                  false
    else mkDancer (last st) (first st ++ [char]) false.

(** [array.forEach((x, i) => ...)] from index [i] on, the state threaded. *)
Fixpoint forEach {A St : Type} (f : St -> A -> nat -> St) (l : list A) (i : nat) (st : St) : St :=
  match l with
  | [] => st
  | x :: l' => forEach f l' (S i) (f st x i)
  end.

Definition scanDancer (dancer : jsstring) : Dancer :=
  forEach (scanChar dancer) dancer 0%nat (mkDancer [] [] false).

(** One element of the [map] over the split input. *)
Definition cleanDancer (raw : jsstring) : jsstring :=
  let st := scanDancer (Str.stripTags raw) in
  Utils.removeAccents (first st) ++ js " " ++ Utils.removeAccents (last st).

Definition sentinel : jsstring := js "couple inconnu".

(** The joining of the two names, [cleanNames] itself, follows the host:
    it asks [titleize] for a second name that may be missing. *)

(** ** Contest title cleaner *)

(** The two labels, with their accented letters as Latin-1 code units. *)
Definition withPoints : jsstring :=
  js "Comp" ++ ["233"%char] ++ js "tition " ++ ["224"%char] ++ js " points".

Definition withoutPoints : jsstring :=
  js "Comp" ++ ["233"%char] ++ js "tition sans points".

Definition cleanContest (original : jsstring) : jsstring :=
  JS.trim (JS.replace withoutPoints [] (JS.replace withPoints [] original)).

(** ** Season filter *)

(** What the provider reads of a moment: [year()], [month()] (January is 0)
    and [date()] (day of the month). *)
Record Moment := mkMoment { year : Z; month : Z; date : Z }.

Definition isFirstHalf (d : Moment) : bool :=
  (month d <? 7) || ((month d =? 7) && (date d <=? 14)).

Definition isWithinSeason (y : Z) (d : Moment) : bool :=
  ((y =? year d) && negb (isFirstHalf d)) || ((y + 1 =? year d) && isFirstHalf d).

(** ** Regular expressions of the extraction layer *)

Module Re.

Definition isDigit (c : ascii) : bool := JS.inRange 48 57 c.

(** [\w]: a letter of A-Z or a-z, a digit or the underscore. *)
Definition isWord (c : ascii) : bool :=
  JS.inRange 65 90 c || JS.inRange 97 122 c || isDigit c || (JS.charCode c =? 95).

(** Length of the longest prefix of [s] made of [p]. *)
Fixpoint spanLength (p : ascii -> bool) (s : jsstring) : nat :=
  match s with
  | c :: s' => if p c then S (spanLength p s') else 0%nat
  | [] => 0%nat
  end.

(** [href.match(/NumManif=(\d+)$/)]: the digits that end the link, behind
    the leftmost [NumManif=] they follow at once; [None] when nothing
    matches. *)
Fixpoint numManif (s : jsstring) : option jsstring :=
  let digits := skipn 9 s in
  if JS.startsWith (js "NumManif=") s && negb (length digits =? 0)%nat && forallb isDigit digits
  then Some digits
  else match s with
       | _ :: s' => numManif s'
       | [] => None
       end.

(** Length of a match of [/\(\s*\w+\s*\)/] at the start of [s].  The three
    classes and the closing sign exclude one another, so the greedy reading
    is the only one. *)
Definition regionLength (s : jsstring) : option nat :=
  match s with
  | c :: s0 =>
      if bool_decide (c = "("%char) then
        let a := spanLength JS.isWhiteSpace s0 in
        let s1 := skipn a s0 in
        let b := spanLength isWord s1 in
        let s2 := skipn b s1 in
        let d := spanLength JS.isWhiteSpace s2 in
        match b, skipn d s2 with
        | S _, e :: _ =>
            if bool_decide (e = ")"%char) then Some (a + b + d + 2)%nat else None
        | _, _ => None
        end
      else None
  | [] => None
  end.

(** [place.replace(/\(\s*\w+\s*\)/, '')]: the first match is removed. *)
Fixpoint removeRegion (s : jsstring) : jsstring :=
  match regionLength s with
  | Some n => skipn n s
  | None =>
      match s with
      | c :: s' => c :: removeRegion s'
      | [] => []
      end
  end.

(** [s.replace(/p/g, r)] for a pattern [p] of plain characters, not empty. *)
Fixpoint replaceAllFrom (p r : jsstring) (skip : nat) (s : jsstring) : jsstring :=
  match s with
  | [] => []
  | c :: s' =>
      match skip with
      | S k => replaceAllFrom p r k s'
      | O => if JS.startsWith p s
             then r ++ replaceAllFrom p r (length p - 1) s'
             else c :: replaceAllFrom p r 0 s'
      end
  end.

Definition replaceAll (p r s : jsstring) : jsstring := replaceAllFrom p r 0 s.

End Re.

(** ** What the provider takes from its libraries *)

(** A row of the listing table as [extractHeader] queries it. *)
Record Line := mkLine {
  href : option jsstring;   (* [find('td:last-child a').attr('href')] *)
  placeCell : jsstring;     (* [find('td').eq(0).text()] *)
  dateCell : jsstring       (* [find('td').eq(1).text()] *)
}.

(** A row of a ranking table. *)
Record Row := mkRow {
  namesCell : option jsstring;  (* [find('td:nth-child(3)').html()] *)
  rankCell : jsstring           (* [find('td:nth-child(1)').text()] *)
}.

(** An option of the club selector. *)
Record ClubOption := mkClubOption {
  optionValue : option jsstring;  (* [attr('value')] *)
  optionText : jsstring           (* [text()] *)
}.

(** The numbers of the host, the libraries behind [require] and the cheerio
    queries over a loaded page. *)
Class Host := {
  num : Type;
  parseInt : jsstring -> num;
  md5 : jsstring -> jsstring;
  slugify : jsstring -> jsstring;
  sprintf : jsstring -> option jsstring -> jsstring;
  encodeURIComponent : jsstring -> jsstring;
  (* [moment(text, format)]; [None] is an invalid date *)
  momentParse : jsstring -> jsstring -> option Moment;
  (* [date.format('YYYYMMDD')] *)
  formatDay : Moment -> jsstring;
  (* what [`${titleize(undefined)}`] prints: the curried [titleize] of
     underscore.string.fp, called without a string, answers a function that
     still waits for one, and a template literal prints its source *)
  titleizeUndefined : jsstring;
  (* lib/utils, not among the sources: a parameter *)
  replaceUnallowed : jsstring -> jsstring;
  (* [$('table#tosort > tbody > tr')] *)
  listingRows : jsstring -> list Line;
  (* [$('td > a')], the [href] of each *)
  detailLinks : jsstring -> list (option jsstring);
  (* [$('h3').text()] *)
  heading : jsstring -> jsstring;
  (* [$('.portlet')], and in each [find('tbody > tr')] *)
  portlets : jsstring -> list (list Row);
  (* [$('[name=club_id] option')] *)
  clubOptions : jsstring -> list ClubOption;
  (* [$('#tosort tbody tr')], the text of the first cell of each *)
  coupleCells : jsstring -> list jsstring
}.

(** ** Name normaliser: the two names joined *)

Section Names.
Context `{Host}.

(** [`${titleize(piece)}`] for an element of [results]; [None] is the
    [undefined] of an index past the end. *)
Definition printed (piece : option jsstring) : jsstring :=
  match piece with
  | Some dancer => Str.titleize dancer
  | None => titleizeUndefined
  end.

(** [cleanNames(names)]; [None] is the [null] that the [html()] of an absent
    cell gives, on which the first property read throws. *)
Definition cleanNames (names : option jsstring) : Outcome jsstring :=
  match names with
  | None => Throw TypeError
  | Some names =>
      if JS.includes sentinel (JS.toLowerCase names) then Return sentinel
      else
        let results := map cleanDancer (JS.split (js "<br>") names) in
        Return (printed (nth_error results 0) ++ js " - " ++
                printed (nth_error results 1))
  end.

End Names.

(** ** Data model *)

Section Model.
Context `{Host}.

Record Contest := mkContest {
  title : jsstring;
  results : gmap jsstring num
}.

Record Competition := mkCompetition {
  place : jsstring;
  day : Moment;
  id : jsstring;
  provider : jsstring;
  dataUrls : list jsstring;
  contests : list Contest
}.

Definition withDataUrls (c : Competition) (urls : list jsstring) : Competition :=
  mkCompetition (place c) (day c) (id c) (provider c) urls (contests c).

Definition withContests (c : Competition) (cs : list Contest) : Competition :=
  mkCompetition (place c) (day c) (id c) (provider c) (dataUrls c) cs.

(** Modelled from the spec: the constructor of lib/models/competition is not
    among the sources.  Section 3 gives a competition its place, date, id and
    provider, the detail links that resolve to it and a list of contests that
    is empty until the details are fetched; the one link [extractHeader]
    passes is the first of them. *)
Definition newCompetition (place : jsstring) (day : Moment) (url provider id : jsstring)
  : Competition :=
  mkCompetition place day id provider [url] [].

Record Club := mkClub { clubId : option jsstring; clubName : jsstring }.

(** The configuration the constructors check: every entry a string. *)
Record Options := mkOptions {
  optUrl : jsstring;
  optList : jsstring;
  optDetails : jsstring;
  optClubs : jsstring;
  optCouples : jsstring;
  optSearch : jsstring;
  optDateFormat : jsstring;
  optName : jsstring
}.

(** ** Lists *)

(** lodash [uniq]: the first occurrence of each element, in order. *)
Fixpoint uniq {A} `{EqDecision A} (l : list A) : list A :=
  match l with
  | [] => []
  | x :: l' => x :: filter (fun y => y <> x) (uniq l')
  end.

(** The entries that are there, in order. *)
Fixpoint compact {A} (l : list (option A)) : list A :=
  match l with
  | [] => []
  | Some x :: l' => x :: compact l'
  | None :: l' => compact l'
  end.

(** ** Extraction *)

(** [year === date.year() && ...] on a parsed date; on an invalid date every
    reading is NaN and both comparisons fail. *)
Definition withinSeason (year : Z) (d : option Moment) : bool :=
  match d with
  | Some d => isWithinSeason year d
  | None => false
  end.

Definition extractHeader (line : Line) (opts : Options) (year : Z) : option Competition :=
  match href line with
  | None | Some [] => None
  | Some link =>
      match Re.numManif link with
      | None => None
      | Some manif =>
          let place := Str.titleize (JS.toLowerCase (JS.trim (placeCell line))) in
          let date := momentParse (dateCell line) (optDateFormat opts) in
          let url := sprintf (optUrl opts ++ js "/" ++ optDetails opts) (Some manif) in
          if negb (withinSeason year date) then None
          else
            match date with
            | Some d =>
                let place := JS.trim (Re.removeRegion place) in
                let id := md5 (slugify place ++ formatDay d) in
                Some (newCompetition place d url (js "ffds") id)
            | None => None
            end
      end
  end.

(** The keys every object inherits: [names in results] holds for them. *)
Definition objectPrototype : list jsstring :=
  map js ["constructor"; "__defineGetter__"; "__defineSetter__"; "hasOwnProperty";
          "__lookupGetter__"; "__lookupSetter__"; "isPrototypeOf";
          "propertyIsEnumerable"; "toString"; "valueOf"; "__proto__";
          "toLocaleString"]%string.

(** [names in results]. *)
Definition inObject (names : jsstring) (results : gmap jsstring num) : bool :=
  bool_decide (is_Some (results !! names)) || bool_decide (names ∈ objectPrototype).

(** The rows of heat [i], the body of the inner [each]. *)
Fixpoint eachRow (title : jsstring) (i : Z) (rows : list Row) (results : gmap jsstring num)
  : Outcome (gmap jsstring num) :=
  match rows with
  | [] => Return results
  | row :: rows' =>
      match cleanNames (namesCell row) with
      | Return names =>
          eachRow title i rows'
            (if inObject names results then results
             else <[names := parseInt (rankCell row)]> results)
      | Throw exc => Throw (RankingParseError title (i * 2) exc)
      end
  end.

(** The heats from index [i] on, the outer [each]. *)
Fixpoint eachHeat (title : jsstring) (i : Z) (heats : list (list Row))
  (results : gmap jsstring num) : Outcome (gmap jsstring num) :=
  match heats with
  | [] => Return results
  | heat :: heats' =>
      bind (eachRow title i heat results) (eachHeat title (i + 1) heats')
  end.

(** What [extractRanking] makes of the body it received. *)
Definition ranking (bodyRaw : jsstring) : Outcome Contest :=
  let body := Re.replaceAll (js "</div></th>") (js "</th>") (replaceUnallowed bodyRaw) in
  let title := cleanContest (heading body) in
  bind (eachHeat title 0 (portlets body) ∅) (fun results => Return (mkContest title results)).

(** [extractNames(body)]. *)
Definition extractNames (body : jsstring) : Outcome (list jsstring) :=
  let fix rows (cells : list jsstring) : Outcome (list jsstring) :=
    match cells with
    | [] => Return []
    | cell :: cells' =>
        match cleanNames (Some (JS.replace (js " / ") (js "<br>") (JS.trim cell))) with
        | Return names => bind (rows cells') (fun l => Return (names :: l))
        | Throw exc => Throw (NamesParseError cell exc)
        end
    end in
  rows (coupleCells (replaceUnallowed body)).

End Model.

Section Provider.
Context `{Host}.

(** Modelled from the spec: the grouping of [mergeCompetitions] by id (see
    there); the candidate carries the id [i]. *)
Definition sameId (i : jsstring) (c : Competition) : bool := bool_decide (id c = i).

(** Modelled from the spec: what a group of candidates of one id becomes in
    [mergeCompetitions] (see there). *)
Definition mergeGroup (group : list Competition) : option Competition :=
  match group with
  | [] => None
  | [c] => Some c
  | c :: _ => Some (withDataUrls c (uniq (concat (map dataUrls group))))
  end.

(** Modelled from the spec: [mergeCompetitions] of lib/utils is not among the
    sources.  Section 4.5: the missing entries are dropped and the others
    grouped by id; a group of several members gives the first member with
    the union of the members' links, in first-seen order and without
    duplicates; there is one competition per id, in the order of the first
    occurrences. *)
Definition mergeCompetitions (candidates : list (option Competition)) : list Competition :=
  let present := compact candidates in
  compact (map (fun i => mergeGroup (List.filter (sameId i) present))
               (uniq (map id present))).

(** The provider instance with the network it talks to: the configuration,
    the club cache ([None] is [null]), the clock behind [moment()], what the
    site answers to a request and the requests sent so far. *)
Record State := mkState {
  opts : Options;
  clubs : option (list Club);
  clock : Moment;
  respond : jsstring -> Outcome jsstring;
  sent : list jsstring
}.

Definition withSent (s : State) (urls : list jsstring) : State :=
  mkState (opts s) (clubs s) (clock s) (respond s) urls.

Definition withClubs (s : State) (cs : list Club) : State :=
  mkState (opts s) (Some cs) (clock s) (respond s) (sent s).

(** [request({encoding: 'binary', url})]. *)
Definition request (url : jsstring) : Promise State jsstring :=
  fun s => (respond s url, withSent s (sent s ++ [url])).

(** A template literal renders [undefined] by its name. *)
Definition interpolate (o : option jsstring) : jsstring :=
  match o with
  | Some s => s
  | None => js "undefined"
  end.

Definition extractRanking (url : jsstring) : Promise State Contest :=
  bodyRaw <- request url ;; settle (ranking bodyRaw).

Definition listUrl (s : State) (year : Z) : jsstring :=
  optUrl (opts s) ++ js "/" ++ optList (opts s) ++
  (if isWithinSeason year (clock s) then [] else js "?Archives").

Definition listResults (year : Z) : Promise State (list Competition) :=
  fun s =>
    orCatch
      (body <- request (listUrl s year) ;;
       resolve (mergeCompetitions
                  (map (fun line => extractHeader line (opts s) year)
                       (listingRows (replaceUnallowed body)))))
      (Utils.handleRequestError (js "failed to fetch results from " ++ optName (opts s)))
      s.

Definition getDetails (competition : Competition) : Promise State Competition :=
  fun s =>
    let name := optName (opts s) in
    let base := optUrl (opts s) in
    (rawUrls <- Utils.runSerially
        (map (fun url =>
                orCatch
                  (body <- request url ;;
                   resolve (map (fun link => base ++ js "/" ++ interpolate link)
                                (detailLinks (replaceUnallowed body))))
                  (Utils.handleRequestError
                     (js "failed to fetch contests from " ++ name ++ js " " ++ place competition)))
             (dataUrls competition)) ;;
     let urls := uniq (concat rawUrls) in
     match urls with
     | [] => resolve (withContests competition [])
     | _ =>
         contests <- Utils.runSerially
           (map (fun url =>
                   orCatch (extractRanking url)
                     (Utils.handleRequestError
                        (js "failed to fetch contest ranking from " ++ name ++ js " " ++
                         place competition)))
                urls) ;;
         resolve (withContests competition contests)
     end) s.

(** The search of [searchGroups] over the cached clubs. *)
Definition searchClubs (searchedStr : jsstring) (cs : list Club) : list jsstring :=
  map clubName
    (List.filter (fun club => JS.includes searchedStr (JS.toLowerCase (clubName club))) cs).

Definition searchGroups (searched : option jsstring) : Promise State (list jsstring) :=
  fun s =>
    let searchedStr :=
      JS.toLowerCase (JS.trim (match searched with Some q => q | None => [] end)) in
    match clubs s with
    | Some cs => resolve (searchClubs searchedStr cs) s
    | None =>
        orCatch
          (body <- request (optUrl (opts s) ++ js "/" ++ optClubs (opts s)) ;;
           fun s' =>
             let cs := map (fun o => mkClub (optionValue o) (JS.trim (optionText o)))
                           (clubOptions (replaceUnallowed body)) in
             (Return (searchClubs searchedStr cs), withClubs s' cs))
          (Utils.handleRequestError (js "failed to fetch group list from " ++ optName (opts s)))
          s
    end.

(** [Joi.string().empty().required().label('group parameter').validate(group)]:
    a missing value is refused as required and the empty string as empty. *)
Definition validateGroup (group : option jsstring) : option Error :=
  match group with
  | None => Some (ValidationError (js "group parameter") AnyRequired)
  | Some [] => Some (ValidationError (js "group parameter") AnyEmpty)
  | Some _ => None
  end.

Definition getGroupCouples (group : option jsstring) : Promise State (list jsstring) :=
  match validateGroup group with
  | Some err => reject err
  | None =>
      let name := match group with Some g => g | None => [] end in
      let search : Promise State (list jsstring) :=
        fun s =>
          let wanted := JS.toLowerCase (JS.trim name) in
          match clubs s with
          | None => reject TypeError s
          | Some cs =>
              match List.find
                      (fun club => bool_decide (JS.toLowerCase (clubName club) = wanted)) cs with
              | None => reject (GroupNotFound name) s
              | Some club =>
                  orCatch
                    (body <- request (sprintf (optUrl (opts s) ++ js "/" ++ optCouples (opts s))
                                              (clubId club)) ;;
                     settle (extractNames body))
                    (Utils.handleRequestError
                       (js "failed to fetch couples of group " ++ name ++ js " from " ++
                        optName (opts s)))
                    s
              end
          end in
      fun s =>
        match clubs s with
        | Some _ => search s
        | None => (_ <- searchGroups (Some []) ;; search) s
        end
  end.

Definition searchCouples (searched : option jsstring) : Promise State (list jsstring) :=
  fun s =>
    let query := JS.toUpperCase (match searched with Some q => q | None => [] end) in
    orCatch
      (body <- request (sprintf (optUrl (opts s) ++ js "/" ++ optSearch (opts s))
                                (Some (encodeURIComponent query))) ;;
       settle (extractNames body))
      (Utils.handleRequestError (js "failed to fetch couples from " ++ optName (opts s)))
      s.

End Provider.

(** * Vocabulary of the statements *)

(** ** Seasons *)

(** Calendar order of two dates: by year, then month, then day. *)
Definition date_le (a b : Moment) : Prop :=
  year a < year b \/
  (year a = year b /\ (month a < month b \/ (month a = month b /\ date a <= date b))).

(** August is month 7. *)
Definition august (y day : Z) : Moment := mkMoment y 7 day.

(** Season [y] runs from August 15 of [y] to August 14 of [y + 1]. *)
Definition inSeason (y : Z) (d : Moment) : Prop :=
  date_le (august y 15) d /\ date_le d (august (y + 1) 14).

#[global] Instance date_le_dec a b : Decision (date_le a b).
Proof. unfold date_le. apply _. Defined.

#[global] Instance inSeason_dec y d : Decision (inSeason y d).
Proof. unfold inSeason. apply _. Defined.

(** ** Letters and names *)

(** The capital of an unaccented small letter; any other code unit is its
    own. *)
Definition capital (c : ascii) : ascii :=
  if JS.inRange 97 122 c then JS.ofCode (JS.charCode c - 32) else c.

(** [x] is [y] or its capital. *)
Definition sameLetter (x y : ascii) : Prop := x = y \/ x = capital y.

(** Letters of the names: the capitals A-Z and 192-221 that the scan reads
    as upper case (the multiplication sign apart) and their small forms. *)
Definition isCapital (c : ascii) : bool :=
  JS.inRange 65 90 c || (JS.inRange 192 221 c && negb (JS.charCode c =? 215)).

Definition isSmall (c : ascii) : bool :=
  JS.inRange 97 122 c || (JS.inRange 224 253 c && negb (JS.charCode c =? 247)).

(** What joins the words of a name: a space or a hyphen. *)
Definition isJoiner (c : ascii) : bool :=
  (JS.charCode c =? 32) || (JS.charCode c =? 45).

(** A word in title case: a capital, then small letters, at least [k]. *)
Inductive TitleWord (k : nat) : jsstring -> Prop :=
| title_word c r :
    isCapital c = true -> Forall (fun x => isSmall x = true) r -> (k <= length r)%nat ->
    TitleWord k (c :: r).

(** A name: title-case words joined by single spaces or hyphens. *)
Inductive Name (k : nat) : jsstring -> Prop :=
| name_word w : TitleWord k w -> Name k w
| name_join w j n :
    TitleWord k w -> isJoiner j = true -> Name k n -> Name k (w ++ j :: n).

(** A forename word keeps at least one small letter; a surname word may be a
    single capital. *)
Definition Forename : jsstring -> Prop := Name 1.
Definition Surname : jsstring -> Prop := Name 0.

(** The federation's rendering of a dancer: the surname in capitals, a
    space, the forename. *)
Definition display (forename surname : jsstring) : jsstring :=
  JS.toUpperCase surname ++ js " " ++ forename.

(** A name without its diacritics. *)
Definition plain (n : jsstring) : jsstring := map Utils.baseLetter n.

Definition isLetter (c : ascii) : bool := isCapital c || isSmall c || isJoiner c.

(** The capital of a letter. *)
Definition up (c : ascii) : ascii :=
  if isSmall c then JS.ofCode (JS.charCode c - 32) else c.

(** The scan, one code unit at a time, with the slice of the source text
    read off the surname accumulator. *)
Definition step (st : Dancer) (c : ascii) : Dancer :=
  if isUpperCode (Some (JS.charCode c)) then
    mkDancer (last st ++ [c]) (first st) true
  else if isSeparatorCode (Some (JS.charCode c)) then
    if prevUpper st
    then mkDancer (last st ++ [c]) (first st) false
    else mkDancer (last st) (first st ++ [c]) false
  else
    if prevUpper st
    then mkDancer (removelast (last st)) (first st ++ [List.last (last st) c; c]) false
    else mkDancer (last st) (first st ++ [c]) false.

(** While [prevUpper] is set, the surname accumulator ends with the code unit
    just read. *)
Definition inStep (pre : jsstring) (st : Dancer) : Prop :=
  prevUpper st = true ->
  exists l pre' p, last st = l ++ [p] /\ pre = pre' ++ [p].

Definition noTag (s : jsstring) : Prop := Forall (fun c => c <> Str.lt) s.

(** A map of the letters that leaves no white space where a letter stood. *)
Definition firm (g : ascii -> ascii) : Prop :=
  forall c, isCapital c = true \/ isSmall c = true -> JS.isWhiteSpace (g c) = false.

(** A letter without its diacritics, in lower case. *)
Definition lowered (c : ascii) : ascii := JS.toLowerChar (Utils.baseLetter c).

(** A name of unaccented letters is its own plain form. *)
Definition unaccented (n : jsstring) : Prop :=
  Forall (fun c => JS.charCode c < 128) n.

(** Two accented names: 233 is e acute, 232 e grave. *)
Definition helene : jsstring := js "H" ++ ["233"%char] ++ js "l" ++ ["232"%char] ++ js "ne".
Definition lefevre : jsstring := js "Lef" ++ ["232"%char] ++ js "vre".

(** ** Rankings and merged listings *)

Section Statements.
Context `{Host}.

(** The couple name of a row, when its cell can be cleaned. *)
Definition cleaned (row : Row) : option jsstring :=
  match cleanNames (namesCell row) with
  | Return n => Some n
  | Throw _ => None
  end.

(** The rank of the first row of [rows] that carries the name [n]. *)
Fixpoint firstRank (n : jsstring) (rows : list Row) : option num :=
  match rows with
  | [] => None
  | row :: rows' =>
      if decide (cleaned row = Some n) then Some (parseInt (rankCell row))
      else firstRank n rows'
  end.

(** A name already recorded keeps its rank; another one takes the rank of
    its first row. *)
Definition firstSeen (before : gmap jsstring num) (rows : list Row)
  (after : gmap jsstring num) : Prop :=
  forall n, after !! n = match before !! n with
                         | Some v => Some v
                         | None => firstRank n rows
                         end.

(** The page as [extractRanking] reads it: the markup repaired. *)
Definition repaired (bodyRaw : jsstring) : jsstring :=
  Re.replaceAll (js "</div></th>") (js "</th>") (replaceUnallowed bodyRaw).

(** The rows of the page in the order they are visited: heat after heat in
    document order, the rows of a heat in theirs. *)
Definition visited (bodyRaw : jsstring) : list Row := concat (portlets (repaired bodyRaw)).

(** The present candidates of id [i], in the order of the listing. *)
Definition members (i : jsstring) (candidates : list (option Competition))
  : list Competition :=
  List.filter (sameId i) (compact candidates).

(** Tasks that each send one request, to the address they are made from, and
    fail exactly when the site does. *)
Definition fetches {A} (f : jsstring -> Promise State A) (context : jsstring) : Prop :=
  forall url s,
    snd (f url s) = withSent s (sent s ++ [url]) /\
    match respond s url with
    | Return _ => exists a, fst (f url s) = Return a
    | Throw e => fst (f url s) = Throw (RequestError context e)
    end.

End Statements.

(** ** Runs of the serial task runner *)

Section Runs.
Context {S A : Type}.

(** The tasks run in turn from [s], each from the state the one before left,
    and all succeed, with [results], leaving [s']. *)
Inductive Completes : list (Promise S A) -> S -> list A -> S -> Prop :=
| completes_nil s : Completes [] s [] s
| completes_cons task tasks s a s1 results s2 :
    task s = (Return a, s1) -> Completes tasks s1 results s2 ->
    Completes (task :: tasks) s (a :: results) s2.

(** The task, made to note its index when it is invoked. *)
Definition probe (i : nat) (task : Promise S A) : Promise (S * list nat) A :=
  fun st => let (o, s') := task (fst st) in (o, (s', snd st ++ [i])).

(** The tasks, numbered from [i]. *)
Fixpoint probes (i : nat) (tasks : list (Promise S A)) : list (Promise (S * list nat) A) :=
  match tasks with
  | [] => []
  | task :: tasks' => probe i task :: probes (Datatypes.S i) tasks'
  end.

End Runs.

(** ** Scans, markup and cells *)

(** What the scan keeps true of the text [pre] read so far: the accumulators
    share its code units, each in the order of the text, and while
    [prevUpper] is set the surname accumulator ends with the code unit just
    read, which the forename accumulator has not. *)
Definition parted (pre : jsstring) (st : Dancer) : Prop :=
  Permutation (first st ++ last st) pre /\
  sublist (first st) pre /\ sublist (last st) pre /\
  (prevUpper st = true ->
   exists l pre' p, last st = l ++ [p] /\ pre = pre' ++ [p] /\
                    sublist (first st) pre' /\ sublist l pre').

(** What the scan puts on the surname accumulator: a capital or a
    separator. *)
Definition surnameUnit (c : ascii) : bool :=
  isUpperCode (Some (JS.charCode c)) || isSeparatorCode (Some (JS.charCode c)).

(** A dancer written with the surname in capitals, before or behind the
    forename. *)
Definition shown (forename surname d : jsstring) : Prop :=
  d = display forename surname \/ d = forename ++ js " " ++ JS.toUpperCase surname.

(** White space only. *)
Definition blank (s : jsstring) : Prop := Forall (fun c => JS.isWhiteSpace c = true) s.

(** A tag: an opening sign, one code unit or more without the closing sign,
    and the closing sign. *)
Definition tag (x : jsstring) : Prop :=
  exists t, x = Str.lt :: t ++ [Str.gt] /\ t <> [] /\ Forall (fun c => c <> Str.gt) t.

(** The place [extractHeader] reads off the first cell of a listing row. *)
Definition placeOf (cell : jsstring) : jsstring :=
  JS.trim (Re.removeRegion (Str.titleize (JS.toLowerCase (JS.trim cell)))).

(** ** Requests *)

Section Requests.
Context `{Host}.

(** The couple name of the first cell of a row of a couples table. *)
Definition cellName (cell names : jsstring) : Prop :=
  cleanNames (Some (JS.replace (js " / ") (js "<br>") (JS.trim cell))) = Return names.

(** That name as a function of the cell: [cleanNames] answers every
    string. *)
Definition cleanCell (cell : jsstring) : jsstring :=
  match cleanNames (Some (JS.replace (js " / ") (js "<br>") (JS.trim cell))) with
  | Return names => names
  | Throw _ => []
  end.

(** The addresses of the ranking pages that a detail page links to, as
    [getDetails] builds them. *)
Definition contestLinks (s : State) (body : jsstring) : list jsstring :=
  map (fun link => optUrl (opts s) ++ js "/" ++ interpolate link)
      (detailLinks (replaceUnallowed body)).

(** A task that sends one request to the address it is made from and settles
    by what the site answers. *)
Definition asks {A} (f : jsstring -> Promise State A) (h : Outcome jsstring -> Outcome A)
  : Prop :=
  forall url s, f url s = (h (respond s url), withSent s (sent s ++ [url])).

(** The clubs read off the club page, as [searchGroups] keeps them. *)
Definition parsedClubs (body : jsstring) : list Club :=
  map (fun o => mkClub (optionValue o) (JS.trim (optionText o)))
      (clubOptions (replaceUnallowed body)).

Definition clubsUrl (s : State) : jsstring :=
  optUrl (opts s) ++ js "/" ++ optClubs (opts s).

Definition couplesUrl (s : State) (club : Club) : jsstring :=
  sprintf (optUrl (opts s) ++ js "/" ++ optCouples (opts s)) (clubId club).

(** The searched text as [searchGroups] compares it. *)
Definition searchKey (searched : option jsstring) : jsstring :=
  JS.toLowerCase (JS.trim (match searched with Some q => q | None => [] end)).

(** What an operation leaves of the provider it ran on: the configuration,
    the clock and the site are the same, the requests sent before are still
    the first ones on record, and a club cache that was filled is the same
    cache. *)
Definition keeps (s s' : State) : Prop :=
  opts s' = opts s /\ clock s' = clock s /\ respond s' = respond s /\
  (exists more, sent s' = sent s ++ more) /\
  (forall cs, clubs s = Some cs -> clubs s' = Some cs).

End Requests.

(** ** Worked examples *)

(** A rank written in decimal digits. *)
Definition decimal (s : jsstring) : Z :=
  fold_left (fun n c => 10 * n + (JS.charCode c - 48)) s 0.

(** A listing of two rows for one competition, under two manifestation ids. *)
Definition exampleLines : list Line :=
  [ mkLine (Some (js "Competition_Resultats.php?NumManif=101")) (js " PARIS (75) ") (js "30/09/2023");
    mkLine (Some (js "Competition_Resultats.php?NumManif=102")) (js "Paris") (js "30/09/2023") ].

(** A ranking page of two heats, the final first; both couples danced both. *)
Definition exampleHeats : list (list Row) :=
  [ [ mkRow (Some (js "DUPONT Jean<br>MARTIN Marie")) (js "1");
      mkRow (Some (js "DURAND Paul<br>PETIT Anne")) (js "2") ];
    [ mkRow (Some (js "DURAND Paul<br>PETIT Anne")) (js "3");
      mkRow (Some (js "DUPONT Jean<br>MARTIN Marie")) (js "4") ] ].

(** A host that answers every query with the pages above. *)
Definition exampleHost : Host := {|
  num := Z;
  parseInt := decimal;
  md5 := fun s => s;
  slugify := JS.toLowerCase;
  sprintf := fun format arg => format ++ match arg with Some a => a | None => [] end;
  encodeURIComponent := fun s => s;
  momentParse := fun _ _ => Some (mkMoment 2023 8 30);
  formatDay := fun _ => js "20230930";
  titleizeUndefined := js "function () { [pending] }";
  replaceUnallowed := fun s => s;
  listingRows := fun _ => exampleLines;
  detailLinks := fun _ => [];
  heading := fun _ => withPoints ++ js " Latines";
  portlets := fun _ => exampleHeats;
  clubOptions := fun _ => [];
  coupleCells := fun _ => []
|}.

Definition exampleOptions : Options :=
  mkOptions (js "http://ffds.example") (js "list.php") (js "details.php?NumManif=")
            (js "clubs.php") (js "couples.php?club=") (js "search.php?q=")
            (js "DD/MM/YYYY") (js "FFDS").

Definition exampleState : State :=
  mkState exampleOptions None (mkMoment 2023 9 1) (fun _ => Return (js "<html>")) [].

Definition exampleCompetition (manif : jsstring) : @Competition exampleHost :=
  @newCompetition exampleHost (js "Paris") (mkMoment 2023 8 30)
    (js "http://ffds.example/details.php?NumManif=" ++ manif) (js "ffds") (js "paris20230930").

(** The site, with the second detail page of the competition out of reach. *)
Definition exampleOutage : State :=
  mkState exampleOptions None (mkMoment 2023 9 1)
    (fun url => if bool_decide (url = js "http://ffds.example/details.php?NumManif=102")
                then Throw (NetworkError (js "ETIMEDOUT"))
                else Return (js "<html>"))
    [].

(** Three operations over a counter of invocations; the second one fails. *)
Definition exampleTasks : list (Promise nat Z) :=
  [ (fun n => (Return 10, Datatypes.S n));
    (fun n => (Throw (NetworkError (js "ETIMEDOUT")), Datatypes.S n));
    (fun n => (Return 30, Datatypes.S n)) ].

(** *** A site with detail, ranking, club and couples pages *)

(** A ranking page whose last row has no names cell. *)
Definition tornHeats : list (list Row) :=
  [ [ mkRow (Some (js "DUPONT Jean<br>MARTIN Marie")) (js "1") ];
    [ mkRow (Some (js "DURAND Paul<br>PETIT Anne")) (js "2"); mkRow None (js "3") ] ].

(** A site whose pages are told apart by their text. *)
Definition siteHost : Host := {|
  num := Z;
  parseInt := decimal;
  md5 := fun s => s;
  slugify := JS.toLowerCase;
  sprintf := fun format arg => format ++ match arg with Some a => a | None => [] end;
  encodeURIComponent := fun s => s;
  momentParse := fun _ _ => Some (mkMoment 2023 8 30);
  formatDay := fun _ => js "20230930";
  titleizeUndefined := js "function () { [pending] }";
  replaceUnallowed := fun s => s;
  listingRows := fun _ => exampleLines;
  detailLinks := fun body =>
    if bool_decide (body = js "detail 101") then [Some (js "r1"); Some (js "r2")]
    else if bool_decide (body = js "detail 102") then [Some (js "r2"); Some (js "r3")]
    else if bool_decide (body = js "detail 103")
    then [Some (js "r1"); Some (js "torn"); Some (js "r3")]
    else [];
  heading := fun _ => withPoints ++ js " Latines";
  portlets := fun body =>
    if bool_decide (body = js "ranking torn") then tornHeats else exampleHeats;
  clubOptions := fun _ =>
    [ mkClubOption (Some (js "12")) (js " Paris Danse ");
      mkClubOption (Some (js "15")) (js "Lyon Rock") ];
  coupleCells := fun _ => [js " DUPONT Jean / MARTIN Marie "; js "Paul DURAND / Anne PETIT"]
|}.

(** What the site answers. *)
Definition siteAnswers (url : jsstring) : Outcome jsstring :=
  if bool_decide (url = js "http://ffds.example/details.php?NumManif=101")
  then Return (js "detail 101")
  else if bool_decide (url = js "http://ffds.example/details.php?NumManif=102")
  then Return (js "detail 102")
  else if bool_decide (url = js "http://ffds.example/details.php?NumManif=103")
  then Return (js "detail 103")
  else if bool_decide (url = js "http://ffds.example/clubs.php") then Return (js "clubs")
  else if bool_decide (url = js "http://ffds.example/couples.php?club=12")
  then Return (js "couples")
  else if bool_decide (url = js "http://ffds.example/torn") then Return (js "ranking torn")
  else Return (js "ranking").

(** A provider that has sent nothing yet. *)
Definition siteState : State :=
  mkState exampleOptions None (mkMoment 2023 9 1) siteAnswers [].

(** The site out of reach. *)
Definition siteDown : State :=
  mkState exampleOptions None (mkMoment 2023 9 1)
    (fun _ => Throw (NetworkError (js "ECONNREFUSED"))) [].

(** The clubs of the club page. *)
Definition siteClubs : list Club :=
  [ mkClub (Some (js "12")) (js "Paris Danse"); mkClub (Some (js "15")) (js "Lyon Rock") ].

(** A competition of the site, with the detail pages that resolve to it. *)
Definition siteCompetition (urls : list jsstring) : @Competition siteHost :=
  @mkCompetition siteHost (js "Paris") (mkMoment 2023 8 30) (js "paris20230930") (js "ffds")
    urls [].

(** The provider once the clubs are in cache. *)
Definition siteCached : State :=
  mkState exampleOptions (Some siteClubs) (mkMoment 2023 9 1) siteAnswers [].

(** ** Tactics *)

(** A fact about every code unit, settled by running through the 256 of
    them. *)
Ltac every_char c :=
  destruct c as [[] [] [] [] [] [] [] []]; vm_compute; try reflexivity; try discriminate; auto.

(** * Properties *)

(** ** Season filter *)

Lemma isFirstHalf_spec d :
  isFirstHalf d = true <-> date_le d (august (year d) 14).
Proof.
  unfold isFirstHalf, date_le; simpl.
  rewrite orb_true_iff, andb_true_iff, Z.ltb_lt, Z.eqb_eq, Z.leb_le. lia.
Qed.

Lemma isFirstHalf_false d :
  isFirstHalf d = false <-> date_le (august (year d) 15) d.
Proof.
  unfold isFirstHalf, date_le; simpl.
  rewrite orb_false_iff, andb_false_iff, Z.ltb_ge, Z.eqb_neq, Z.leb_gt. lia.
Qed.

Lemma isWithinSeason_inSeason y d : isWithinSeason y d = true <-> inSeason y d.
Proof.
  unfold isWithinSeason, inSeason.
  rewrite orb_true_iff, !andb_true_iff, negb_true_iff, !Z.eqb_eq.
  rewrite isFirstHalf_false, isFirstHalf_spec.
  destruct d as [Y M D]; unfold date_le, august; simpl. lia.
Qed.

(** A date lies in one season only. *)
Lemma inSeason_unique y y' d : inSeason y d -> inSeason y' d -> y = y'.
Proof.
  unfold inSeason, date_le, august. destruct d as [Y M D]; simpl. lia.
Qed.

(** C1: [isWithinSeason y d] holds exactly for the dates from August 15 of
    [y] to August 14 of [y + 1], both included; the four boundary dates of
    season 2023 are decided as the specification lists them. *)
Theorem isWithinSeason_spec :
  (forall y d, isWithinSeason y d = true <-> inSeason y d) /\
  isWithinSeason 2023 (august 2023 14) = false /\
  isWithinSeason 2023 (august 2023 15) = true /\
  isWithinSeason 2023 (august 2024 14) = true /\
  isWithinSeason 2023 (august 2024 15) = false.
Proof.
  split; [exact isWithinSeason_inSeason | repeat split; reflexivity].
Qed.

(** ** Prefixes, occurrences, replacement *)

Section StringFacts.
Implicit Types (p r s t : jsstring) (c : ascii).

Lemma startsWith_app p s : JS.startsWith p (p ++ s) = true.
Proof.
  induction p as [| a p IH]; simpl; [reflexivity |].
  rewrite bool_decide_eq_true_2 by reflexivity. exact IH.
Qed.

Lemma startsWith_spec p s : JS.startsWith p s = true <-> exists t, s = p ++ t.
Proof.
  split.
  - revert s. induction p as [| a p IH]; intros s H; simpl in *.
    + now exists s.
    + destruct s as [| b s]; [discriminate |].
      apply andb_true_iff in H as [Hab H]. apply bool_decide_eq_true_1 in Hab as ->.
      destruct (IH _ H) as [t ->]. now exists t.
  - intros [t ->]. apply startsWith_app.
Qed.

Lemma startsWith_includes p s : JS.startsWith p s = true -> JS.includes p s = true.
Proof. intros H. destruct s; simpl in *; rewrite H; reflexivity. Qed.

Lemma includes_spec p s :
  JS.includes p s = true <-> exists a b, s = a ++ p ++ b.
Proof.
  split.
  - induction s as [| c s IH]; simpl; rewrite orb_true_iff.
    + intros [H | H]; [| discriminate].
      apply startsWith_spec in H as [t Ht]. now exists [], t.
    + intros [H | H].
      * apply startsWith_spec in H as [t Ht]. now exists [], t.
      * destruct (IH H) as (a & b & ->). now exists (c :: a), b.
  - intros (a & b & ->). induction a as [| c a IH]; simpl.
    + apply startsWith_includes, startsWith_app.
    + rewrite IH. apply orb_true_r.
Qed.

Lemma includes_app p a b : JS.includes p (a ++ p ++ b) = true.
Proof. apply includes_spec. now exists a, b. Qed.

Lemma replace_absent p r s : JS.includes p s = false -> JS.replace p r s = s.
Proof.
  induction s as [| c s IH]; simpl; intros H; apply orb_false_iff in H as [H1 H2];
    rewrite H1; [reflexivity |].
  now rewrite IH.
Qed.

Lemma startsWith_length p s : JS.startsWith p s = true -> (length p <= length s)%nat.
Proof.
  intros H. apply startsWith_spec in H as [t ->]. rewrite length_app. lia.
Qed.

(** Removing an occurrence shortens the text by the length of the pattern. *)
Lemma replace_present_length p s :
  JS.includes p s = true ->
  (length (JS.replace p [] s) + length p = length s)%nat.
Proof.
  induction s as [| c s IH]; simpl; intros H.
  - rewrite orb_false_r in H. rewrite H.
    apply startsWith_length in H. rewrite length_skipn. simpl in *. lia.
  - destruct (JS.startsWith p (c :: s)) eqn:E.
    + apply startsWith_length in E. rewrite length_skipn. simpl in *. lia.
    + simpl in H. simpl. specialize (IH H). lia.
Qed.

Lemma replace_length_le p s : (length (JS.replace p [] s) <= length s)%nat.
Proof.
  destruct (JS.includes p s) eqn:E.
  - pose proof (replace_present_length p s E). lia.
  - now rewrite replace_absent.
Qed.

(** ** Trimming *)

Lemma trimStart_length s : (length (JS.trimStart s) <= length s)%nat.
Proof.
  induction s as [| c s IH]; simpl; [lia |].
  destruct (JS.isWhiteSpace c); simpl; lia.
Qed.

Lemma trimStart_fixed s : JS.trimStart s = s <-> hd_error (map JS.isWhiteSpace s) <> Some true.
Proof.
  destruct s as [| c s]; simpl; [split; [discriminate | reflexivity] |].
  destruct (JS.isWhiteSpace c) eqn:E.
  - split; [| congruence]. intros H. pose proof (trimStart_length s).
    rewrite H in H0. simpl in H0. lia.
  - split; [discriminate | reflexivity].
Qed.

Lemma trimStart_idem s : JS.trimStart (JS.trimStart s) = JS.trimStart s.
Proof.
  induction s as [| c s IH]; simpl; [reflexivity |].
  destruct (JS.isWhiteSpace c) eqn:E; [exact IH |]. simpl. now rewrite E.
Qed.

Lemma trimStart_snoc s c :
  JS.isWhiteSpace c = false -> JS.trimStart (s ++ [c]) = JS.trimStart s ++ [c].
Proof.
  intros Hc. induction s as [| d s IH]; simpl; [now rewrite Hc |].
  destruct (JS.isWhiteSpace d); [exact IH | reflexivity].
Qed.

Lemma trimEnd_cons c s :
  JS.isWhiteSpace c = false -> JS.trimEnd (c :: s) = c :: JS.trimEnd s.
Proof.
  intros Hc. unfold JS.trimEnd. simpl. rewrite trimStart_snoc by exact Hc.
  rewrite rev_app_distr. reflexivity.
Qed.

Lemma trimEnd_idem s : JS.trimEnd (JS.trimEnd s) = JS.trimEnd s.
Proof. unfold JS.trimEnd. now rewrite rev_involutive, trimStart_idem. Qed.

Lemma trimEnd_length s : (length (JS.trimEnd s) <= length s)%nat.
Proof.
  unfold JS.trimEnd. rewrite length_rev.
  pose proof (trimStart_length (rev s)). rewrite length_rev in H. exact H.
Qed.

Lemma trim_length s : (length (JS.trim s) <= length s)%nat.
Proof.
  unfold JS.trim. pose proof (trimEnd_length (JS.trimStart s)).
  pose proof (trimStart_length s). lia.
Qed.

Lemma trimStart_trimEnd s :
  JS.trimStart s = s -> JS.trimStart (JS.trimEnd s) = JS.trimEnd s.
Proof.
  intros H. destruct s as [| c s]; [reflexivity |].
  apply trimStart_fixed in H. simpl in H.
  destruct (JS.isWhiteSpace c) eqn:E; [congruence |].
  rewrite trimEnd_cons by exact E. simpl. now rewrite E.
Qed.

Lemma trim_idem s : JS.trim (JS.trim s) = JS.trim s.
Proof.
  unfold JS.trim. rewrite trimStart_trimEnd by apply trimStart_idem.
  apply trimEnd_idem.
Qed.

End StringFacts.

(** ** Contest title cleaner *)

Lemma cleanContest_trimmed s : JS.trim (cleanContest s) = cleanContest s.
Proof. unfold cleanContest. apply trim_idem. Qed.

(** A title that still holds a label gets shorter when cleaned. *)
Lemma cleanContest_shrinks s :
  JS.includes withPoints s = true \/ JS.includes withoutPoints s = true ->
  (length (cleanContest s) < length s)%nat.
Proof.
  intros H. unfold cleanContest.
  pose proof (trim_length (JS.replace withoutPoints [] (JS.replace withPoints [] s))) as Ht.
  pose proof (replace_length_le withoutPoints (JS.replace withPoints [] s)) as H2.
  destruct (JS.includes withPoints s) eqn:E1.
  - pose proof (replace_present_length _ _ E1) as H1.
    change (length withPoints) with 20%nat in H1. lia.
  - destruct H as [H | H]; [discriminate |].
    rewrite (replace_absent _ _ _ E1) in *.
    pose proof (replace_present_length _ _ H) as H1.
    change (length withoutPoints) with 23%nat in H1. lia.
Qed.

(** C8 (the code on a doubled label): on a title that carries the first
    label twice, one pass removes the first copy only and answers the label
    itself, which the next pass removes: the cleaned title is not clean, and
    cleaning it again changes it. *)
Theorem cleanContest_twice_differs :
  cleanContest (withPoints ++ withPoints) = withPoints /\
  cleanContest (cleanContest (withPoints ++ withPoints)) = [] /\
  cleanContest (cleanContest (withPoints ++ withPoints)) <>
  cleanContest (withPoints ++ withPoints).
Proof.
  split; [| split]; [vm_compute; reflexivity | vm_compute; reflexivity |].
  vm_compute. discriminate.
Qed.

(** A second pass changes nothing exactly when the first left neither
    label. *)
Lemma cleanContest_idempotent_iff s :
  cleanContest (cleanContest s) = cleanContest s <->
  JS.includes withPoints (cleanContest s) = false /\
  JS.includes withoutPoints (cleanContest s) = false.
Proof.
  split.
  - intros H.
    destruct (JS.includes withPoints (cleanContest s)) eqn:E1;
      [| destruct (JS.includes withoutPoints (cleanContest s)) eqn:E2; [| now split]].
    + pose proof (cleanContest_shrinks (cleanContest s) (or_introl E1)) as Hlt.
      rewrite H in Hlt. lia.
    + pose proof (cleanContest_shrinks (cleanContest s) (or_intror E2)) as Hlt.
      rewrite H in Hlt. lia.
  - intros [H1 H2]. unfold cleanContest at 1.
    rewrite (replace_absent _ _ _ H1), (replace_absent _ _ _ H2).
    apply cleanContest_trimmed.
Qed.

(** ** Name normaliser: the sentinel and the single name *)

Lemma toLowerChar_capital y : JS.toLowerChar y = y -> JS.toLowerChar (capital y) = y.
Proof. every_char y. Qed.

Lemma toLowerCase_sameLetter mid phrase :
  JS.toLowerCase phrase = phrase ->
  Forall2 sameLetter mid phrase -> JS.toLowerCase mid = phrase.
Proof.
  intros Hlow H. induction H as [| x y mid phrase Hxy _ IH]; [reflexivity |].
  simpl in *. injection Hlow as Hy Hrest. f_equal; [| now apply IH].
  destruct Hxy as [-> | ->]; [exact Hy | now apply toLowerChar_capital].
Qed.

Lemma splitFrom_absent sep cur s :
  JS.includes sep s = false -> JS.splitFrom sep 0 cur s = [cur ++ s].
Proof.
  revert cur. induction s as [| c s IH]; intros cur H; simpl.
  - now rewrite app_nil_r.
  - simpl in H. apply orb_false_iff in H as [H1 H2]. rewrite H1, IH by exact H2.
    now rewrite <- app_assoc.
Qed.

Section SingleName.
Context `{Host}.

(** C4: an input that holds the phrase [couple inconnu], in any mix of small
    and capital letters and whatever stands before and after it, is answered
    with the sentinel itself; the names are not parsed. *)
Theorem cleanNames_sentinel before mid after :
  Forall2 sameLetter mid sentinel ->
  cleanNames (Some (before ++ mid ++ after)) = Return sentinel.
Proof.
  intros Hmid. unfold cleanNames, JS.toLowerCase. rewrite !map_app.
  fold (JS.toLowerCase mid). rewrite (toLowerCase_sameLetter mid sentinel eq_refl Hmid).
  now rewrite includes_app.
Qed.

(** An input without the break marker is split into one piece, so the
    second element of [results] is [undefined]: nothing is thrown, and the
    answer is the sentinel, or the one normalised name, the joining dash,
    and what the template literal prints for [titleize(undefined)]. *)
Lemma cleanNames_without_break names :
  JS.includes (js "<br>") names = false ->
  cleanNames (Some names) =
  Return (if JS.includes sentinel (JS.toLowerCase names) then sentinel
          else Str.titleize (cleanDancer names) ++ js " - " ++ titleizeUndefined).
Proof.
  intros Hnames. unfold cleanNames.
  destruct (JS.includes sentinel (JS.toLowerCase names)); [reflexivity |].
  unfold JS.split. rewrite (splitFrom_absent _ [] names Hnames). reflexivity.
Qed.

(** C9 (the code on one name): given the one display name [DUPONT Jean],
    which holds no break marker, [cleanNames] throws nothing.  It returns a
    couple string: the normalised name, the joining dash, and in the place
    of the second name what the template literal prints for
    [titleize(undefined)]. *)
Theorem cleanNames_single_name_returns :
  JS.includes (js "<br>") (js "DUPONT Jean") = false /\
  cleanNames (Some (js "DUPONT Jean")) = Return (js "Jean Dupont - " ++ titleizeUndefined).
Proof.
  split; [reflexivity |].
  rewrite (cleanNames_without_break (js "DUPONT Jean") eq_refl). reflexivity.
Qed.

End SingleName.

(** The phrase in capitals and small letters, inside other markup. *)
Lemma cleanNames_sentinel_witness :
  @cleanNames exampleHost (Some (js "<b>ZZ</b> COUPLE Inconnu<br>DUPONT Jean")) =
  Return sentinel.
Proof.
  apply (@cleanNames_sentinel exampleHost
           (js "<b>ZZ</b> ") (js "COUPLE Inconnu") (js "<br>DUPONT Jean")).
  unfold sentinel, js; simpl.
  repeat match goal with
         | |- Forall2 _ [] [] => constructor
         | |- Forall2 _ (_ :: _) (_ :: _) =>
             constructor;
             [unfold sameLetter; first [left; reflexivity | right; vm_compute; reflexivity] |]
         end.
Defined.

(** ** Name normaliser: the letters *)

Section CharFacts.
Implicit Types c x j : ascii.

Lemma capital_upper c : isCapital c = true -> isUpperCode (Some (JS.charCode c)) = true.
Proof. every_char c. Qed.

Lemma small_other x :
  isSmall x = true ->
  isUpperCode (Some (JS.charCode x)) = false /\ isSeparatorCode (Some (JS.charCode x)) = false.
Proof. every_char x. Qed.

Lemma joiner_separator j :
  isJoiner j = true ->
  isUpperCode (Some (JS.charCode j)) = false /\ isSeparatorCode (Some (JS.charCode j)) = true.
Proof. every_char j. Qed.

Lemma toUpperChar_letter c : isLetter c = true -> JS.toUpperChar c = [up c].
Proof. every_char c. Qed.

Lemma up_capital c : isCapital c = true -> up c = c.
Proof. every_char c. Qed.

Lemma up_small x : isSmall x = true -> isCapital (up x) = true.
Proof. every_char x. Qed.

Lemma up_joiner j : isJoiner j = true -> up j = j.
Proof. every_char j. Qed.

Lemma letter_not_lt c : isLetter c = true -> c <> Str.lt.
Proof. every_char c. Qed.

Lemma joiner_plain j :
  isJoiner j = true ->
  JS.toLowerChar (Utils.baseLetter j) = j /\ Str.isBreak j = true.
Proof. every_char j. Qed.

Lemma up_plain c :
  isLetter c = true ->
  JS.toLowerChar (Utils.baseLetter (up c)) = JS.toLowerChar (Utils.baseLetter c).
Proof. every_char c. Qed.

Lemma capital_letter c : isCapital c = true -> isLetter c = true.
Proof. unfold isLetter. now intros ->. Qed.

Lemma small_letter x : isSmall x = true -> isLetter x = true.
Proof. unfold isLetter. intros ->. now rewrite orb_true_r. Qed.

Lemma joiner_letter j : isJoiner j = true -> isLetter j = true.
Proof. unfold isLetter. intros ->. now rewrite orb_true_r. Qed.

Lemma up_letter c : isLetter c = true -> isLetter (up c) = true.
Proof. every_char c. Qed.

End CharFacts.

(** ** Name normaliser: the scan *)

Section Scan.
Implicit Types (s t pre rest : jsstring) (st : Dancer).

Lemma slice_middle (a m b : jsstring) :
  JS.slice (a ++ m ++ b) (Z.of_nat (length a)) (Z.of_nat (length a) + Z.of_nat (length m)) = m.
Proof.
  unfold JS.slice, JS.sliceIndex. rewrite !length_app.
  destruct (Z.ltb_spec (Z.of_nat (length a)) 0); [lia |].
  destruct (Z.ltb_spec (Z.of_nat (length a) + Z.of_nat (length m)) 0); [lia |].
  rewrite !Z.min_l by lia.
  replace (Z.of_nat (length a) + Z.of_nat (length m) - Z.of_nat (length a))
    with (Z.of_nat (length m)) by lia.
  rewrite !Nat2Z.id, skipn_app, skipn_all, Nat.sub_diag. simpl.
  change (skipn 0 (m ++ b)) with (m ++ b).
  rewrite firstn_app, firstn_all, Nat.sub_diag. simpl. apply app_nil_r.
Qed.

Lemma slice_init (l : jsstring) (p : ascii) :
  JS.slice (l ++ [p]) 0 (Z.of_nat (length (l ++ [p])) - 1) = l.
Proof.
  pose proof (slice_middle [] l [p]) as H. simpl in H.
  rewrite length_app. simpl length.
  replace (Z.of_nat (length l + 1) - 1) with (Z.of_nat (length l)) by lia. exact H.
Qed.

Lemma charCodeAt_here pre c rest :
  JS.charCodeAt (pre ++ c :: rest) (length pre) = Some (JS.charCode c).
Proof.
  unfold JS.charCodeAt. rewrite nth_error_app2 by lia. now rewrite Nat.sub_diag.
Qed.

(** One turn of the loop body is one [step], and the invariant goes on. *)
Lemma scanChar_step pre c rest st :
  inStep pre st ->
  scanChar (pre ++ c :: rest) st c (length pre) = step st c /\
  inStep (pre ++ [c]) (step st c).
Proof.
  intros Hinv. unfold scanChar, step. rewrite charCodeAt_here.
  destruct (isUpperCode (Some (JS.charCode c))).
  { split; [reflexivity |]. intros _. now exists (last st), pre, c. }
  destruct (isSeparatorCode (Some (JS.charCode c))).
  { destruct (prevUpper st); (split; [reflexivity | intros H; discriminate H]). }
  destruct (prevUpper st) eqn:Hp; [| split; [reflexivity | intros H; discriminate H]].
  destruct (Hinv Hp) as (l & pre' & p & Hl & ->).
  split; [| intros H; discriminate H].
  rewrite Hl, slice_init, removelast_last, last_last.
  do 2 f_equal.
  rewrite <- app_assoc.
  pose proof (slice_middle pre' [p; c] rest) as H. simpl in H.
  rewrite length_app. simpl.
  replace (Z.of_nat (length pre' + 1) - 1) with (Z.of_nat (length pre')) by lia.
  replace (Z.of_nat (length pre' + 1) + 1) with (Z.of_nat (length pre') + 2) by lia.
  exact H.
Qed.

Lemma forEach_step rest : forall pre st,
  inStep pre st ->
  forEach (scanChar (pre ++ rest)) rest (length pre) st = fold_left step rest st.
Proof.
  induction rest as [| c rest IH]; intros pre st Hinv; [reflexivity |].
  simpl. destruct (scanChar_step pre c rest st Hinv) as [-> Hinv'].
  specialize (IH (pre ++ [c]) (step st c) Hinv').
  rewrite <- app_assoc, length_app, Nat.add_1_r in IH. exact IH.
Qed.

Lemma scanDancer_fold s : scanDancer s = fold_left step s (mkDancer [] [] false).
Proof.
  unfold scanDancer. apply (forEach_step s []). intros H. discriminate H.
Qed.

(** Capitals pile up on the surname accumulator. *)
Lemma step_capitals w : forall l f b,
  Forall (fun c => isCapital c = true) w ->
  fold_left step w (mkDancer l f b) =
  mkDancer (l ++ w) f (match w with [] => b | _ => true end).
Proof.
  induction w as [| c w IH]; intros l f b H; simpl; [now rewrite app_nil_r |].
  inversion H as [| ? ? Hc Hw]; subst.
  unfold step at 2. rewrite (capital_upper c Hc). simpl.
  rewrite IH by exact Hw. rewrite <- app_assoc. simpl. now destruct w.
Qed.

(** Small letters away from a capital go to the forename accumulator. *)
Lemma step_smalls r : forall l f,
  Forall (fun x => isSmall x = true) r ->
  fold_left step r (mkDancer l f false) = mkDancer l (f ++ r) false.
Proof.
  induction r as [| x r IH]; intros l f H; simpl; [now rewrite app_nil_r |].
  inversion H as [| ? ? Hx Hr]; subst.
  unfold step at 2. destruct (small_other x Hx) as [-> ->]. simpl.
  rewrite IH by exact Hr. now rewrite <- app_assoc.
Qed.

(** A forename word: its capital first joins the surname, and the small
    letter behind it carries it over. *)
Lemma step_forename_word w l f :
  TitleWord 1 w ->
  fold_left step w (mkDancer l f false) = mkDancer l (f ++ w) false.
Proof.
  intros H. destruct H as [c r Hc Hr Hlen].
  destruct r as [| x r]; [simpl in Hlen; lia |].
  inversion Hr as [| ? ? Hx Hr']; subst. simpl.
  unfold step at 3. rewrite (capital_upper c Hc). simpl.
  unfold step at 2. destruct (small_other x Hx) as [-> ->]. simpl.
  rewrite removelast_last, last_last, step_smalls by exact Hr'.
  now rewrite <- app_assoc.
Qed.

Lemma step_forename n : forall l f,
  Forename n ->
  fold_left step n (mkDancer l f false) = mkDancer l (f ++ n) false.
Proof.
  intros l f H. revert f. induction H as [w Hw | w j n Hw Hj _ IH]; intros f.
  - now apply step_forename_word.
  - rewrite fold_left_app, step_forename_word by exact Hw. simpl.
    unfold step at 2. destruct (joiner_separator j Hj) as [-> ->]. simpl.
    rewrite IH, <- !app_assoc. reflexivity.
Qed.

End Scan.

(** ** Name normaliser: the round trip *)

Section RoundTrip.
Implicit Types (n s f t w : jsstring) (k : nat).

Lemma titleWord_letters k w : TitleWord k w -> Forall (fun c => isLetter c = true) w.
Proof.
  intros [c r Hc Hr _]. constructor; [now apply capital_letter |].
  eapply Forall_impl; [exact Hr |]. intros x. apply small_letter.
Qed.

Lemma name_letters k n : Name k n -> Forall (fun c => isLetter c = true) n.
Proof.
  induction 1 as [w Hw | w j n Hw Hj _ IH].
  - eapply titleWord_letters, Hw.
  - apply Forall_app. split; [eapply titleWord_letters, Hw |].
    constructor; [now apply joiner_letter | exact IH].
Qed.

Lemma toUpperCase_letters n :
  Forall (fun c => isLetter c = true) n -> JS.toUpperCase n = map up n.
Proof.
  induction 1 as [| c n Hc _ IH]; [reflexivity |].
  unfold JS.toUpperCase in *. simpl. now rewrite IH, toUpperChar_letter.
Qed.

Lemma map_up_letters n :
  Forall (fun c => isLetter c = true) n -> Forall (fun c => isLetter c = true) (map up n).
Proof.
  induction 1 as [| c n Hc _ IH]; constructor; [now apply up_letter | exact IH].
Qed.

(** The capitals of a title-case word. *)
Lemma map_up_word k w :
  TitleWord k w -> map up w <> [] /\ Forall (fun c => isCapital c = true) (map up w).
Proof.
  intros [c r Hc Hr _]. split; [discriminate |]. simpl. constructor.
  - now rewrite up_capital.
  - induction Hr as [| x r Hx _ IH]; constructor; [now apply up_small | exact IH].
Qed.

(** The surname in capitals stays whole on the surname accumulator. *)
Lemma step_surname n : forall l f b,
  Surname n ->
  fold_left step (map up n) (mkDancer l f b) = mkDancer (l ++ map up n) f true.
Proof.
  intros l f b H. revert l b. induction H as [w Hw | w j n Hw Hj _ IH]; intros l b.
  - destruct (map_up_word _ _ Hw) as [Hne Hcap].
    rewrite step_capitals by exact Hcap. now destruct (map up w).
  - destruct (map_up_word _ _ Hw) as [Hne Hcap].
    rewrite map_app, fold_left_app, step_capitals by exact Hcap. simpl.
    rewrite (up_joiner j Hj). unfold step at 2.
    destruct (joiner_separator j Hj) as [-> ->].
    destruct (map up w) eqn:E; [congruence |]. simpl prevUpper. cbv iota.
    simpl last. simpl first. rewrite IH, <- !app_assoc. reflexivity.
Qed.

(** What the scan leaves of a displayed dancer. *)
Lemma scanDancer_display f s :
  Forename f -> Surname s ->
  scanDancer (display f s) = mkDancer (map up s ++ js " ") f false.
Proof.
  intros Hf Hs. rewrite scanDancer_fold. unfold display.
  rewrite (toUpperCase_letters s (name_letters _ _ Hs)).
  rewrite fold_left_app, step_surname by exact Hs. simpl.
  unfold step at 2. simpl.
  now rewrite step_forename by exact Hf.
Qed.

(** *** Tags and the break marker *)

Lemma letters_noTag n : Forall (fun c => isLetter c = true) n -> noTag n.
Proof. intros H. eapply Forall_impl; [exact H |]. intros c. apply letter_not_lt. Qed.

Lemma display_noTag f s : Forename f -> Surname s -> noTag (display f s).
Proof.
  intros Hf Hs. unfold display.
  rewrite (toUpperCase_letters s (name_letters _ _ Hs)).
  apply Forall_app. split.
  - apply letters_noTag, map_up_letters, (name_letters _ _ Hs).
  - constructor; [discriminate |]. apply letters_noTag, (name_letters _ _ Hf).
Qed.

Lemma stripTags_noTag s : noTag s -> Str.stripTags s = s.
Proof.
  unfold Str.stripTags. induction 1 as [| c s Hc _ IH]; [reflexivity |].
  simpl. rewrite bool_decide_eq_false_2 by exact Hc. now rewrite IH.
Qed.

Lemma startsWith_break c s : c <> Str.lt -> JS.startsWith (js "<br>") (c :: s) = false.
Proof.
  intros Hc. cbn [js list_ascii_of_string JS.startsWith].
  rewrite bool_decide_eq_false_2; [reflexivity |].
  intros E. apply Hc. now rewrite <- E.
Qed.

Lemma noTag_break_absent s : noTag s -> JS.includes (js "<br>") s = false.
Proof.
  induction 1 as [| c s Hc _ IH]; [reflexivity |].
  cbn [JS.includes]. now rewrite IH, startsWith_break.
Qed.

Lemma split_break a b :
  noTag a -> noTag b -> JS.split (js "<br>") (a ++ js "<br>" ++ b) = [a; b].
Proof.
  intros Ha Hb. unfold JS.split.
  enough (forall cur, JS.splitFrom (js "<br>") 0 cur (a ++ js "<br>" ++ b) = [cur ++ a; b])
    as H by exact (H []).
  induction Ha as [| c a Hc _ IH]; intros cur.
  - simpl. rewrite app_nil_r. f_equal.
    apply (splitFrom_absent _ [] b), noTag_break_absent, Hb.
  - cbn [app JS.splitFrom]. rewrite startsWith_break by exact Hc.
    rewrite IH, <- app_assoc. reflexivity.
Qed.

(** *** Trimming the accumulators *)

Lemma name_head k n : Name k n -> exists c m, n = c :: m /\ isCapital c = true.
Proof.
  induction 1 as [w Hw | w j n Hw Hj _ _]; destruct Hw as [c r Hc _ _].
  - now exists c, r.
  - now exists c, (r ++ j :: n).
Qed.

Lemma word_last k w :
  TitleWord k w -> exists m z, w = m ++ [z] /\ (isCapital z = true \/ isSmall z = true).
Proof.
  intros [c r Hc Hr _]. destruct (exists_last (l := c :: r)) as (m & z & E); [discriminate |].
  exists m, z. split; [exact E |].
  assert (In z (c :: r)) as Hin by (rewrite E; apply in_or_app; right; now left).
  destruct Hin as [<- | Hin]; [now left |].
  right. rewrite Forall_forall in Hr. apply Hr, list_elem_of_In, Hin.
Qed.

Lemma name_last k n :
  Name k n -> exists m z, n = m ++ [z] /\ (isCapital z = true \/ isSmall z = true).
Proof.
  induction 1 as [w Hw | w j n Hw Hj _ IH].
  - eapply word_last, Hw.
  - destruct IH as (m & z & -> & Hz). exists (w ++ j :: m), z.
    split; [now rewrite <- app_assoc | exact Hz].
Qed.

Lemma trimEnd_firm s z : JS.isWhiteSpace z = false -> JS.trimEnd (s ++ [z]) = s ++ [z].
Proof.
  intros Hz. unfold JS.trimEnd. rewrite rev_app_distr. simpl. rewrite Hz.
  simpl. now rewrite rev_involutive.
Qed.

Lemma trimEnd_space s z :
  JS.isWhiteSpace z = false -> JS.trimEnd ((s ++ [z]) ++ js " ") = s ++ [z].
Proof.
  intros Hz. unfold JS.trimEnd. rewrite !rev_app_distr. simpl. rewrite Hz.
  simpl. now rewrite rev_involutive.
Qed.

Lemma firm_baseLetter : firm Utils.baseLetter.
Proof. intros c [H | H]; revert H; every_char c. Qed.

Lemma firm_baseLetter_up : firm (fun c => Utils.baseLetter (up c)).
Proof. intros c [H | H]; revert H; every_char c. Qed.

Lemma trim_name g k n : firm g -> Name k n -> JS.trim (map g n) = map g n.
Proof.
  intros Hg Hn. unfold JS.trim.
  destruct (name_head _ _ Hn) as (c & m & E & Hc).
  assert (JS.trimStart (map g n) = map g n) as ->.
  { rewrite E. simpl. now rewrite (Hg c (or_introl Hc)). }
  destruct (name_last _ _ Hn) as (m' & z & -> & Hz).
  rewrite map_app. simpl. apply trimEnd_firm, Hg, Hz.
Qed.

Lemma trim_name_space g k n :
  firm g -> Name k n -> JS.trim (map g n ++ js " ") = map g n.
Proof.
  intros Hg Hn. unfold JS.trim.
  destruct (name_head _ _ Hn) as (c & m & E & Hc).
  assert (JS.trimStart (map g n ++ js " ") = map g n ++ js " ") as ->.
  { rewrite E. simpl. now rewrite (Hg c (or_introl Hc)). }
  destruct (name_last _ _ Hn) as (m' & z & -> & Hz).
  rewrite map_app. simpl map. apply trimEnd_space, Hg, Hz.
Qed.

Lemma cleanDancer_display f s :
  Forename f -> Surname s ->
  cleanDancer (display f s) = plain f ++ js " " ++ plain (map up s).
Proof.
  intros Hf Hs. unfold cleanDancer.
  rewrite (stripTags_noTag _ (display_noTag f s Hf Hs)), scanDancer_display by assumption.
  simpl first. simpl last. unfold Utils.removeAccents.
  rewrite (trim_name Utils.baseLetter 1 f firm_baseLetter Hf).
  rewrite map_app, (map_map up Utils.baseLetter).
  change (map Utils.baseLetter [" "%char]) with (js " ").
  rewrite (trim_name_space (fun c => Utils.baseLetter (up c)) 0 s firm_baseLetter_up Hs).
  unfold plain. now rewrite (map_map up Utils.baseLetter).
Qed.

(** *** Title case *)

Lemma lowered_small x :
  isSmall x = true -> lowered x = Utils.baseLetter x /\ Str.isBreak (lowered x) = false.
Proof. unfold lowered. every_char x. Qed.

Lemma lowered_capital c :
  isCapital c = true ->
  JS.toUpperChar (lowered c) = [Utils.baseLetter c] /\ JS.isWhiteSpace (lowered c) = false.
Proof. unfold lowered. every_char c. Qed.

Lemma capitalize_inside c s :
  Str.isBreak c = false -> Str.capitalize false (c :: s) = c :: Str.capitalize false s.
Proof. intros H. simpl. now rewrite H. Qed.

Lemma capitalize_after j d s :
  Str.isBreak j = true -> JS.isWhiteSpace d = false ->
  Str.capitalize false (j :: d :: s) = j :: JS.toUpperChar d ++ Str.capitalize false s.
Proof. intros Hj Hd. simpl. now rewrite Hj, Hd. Qed.

Lemma capitalize_start c s :
  JS.isWhiteSpace c = false ->
  Str.capitalize true (c :: s) = JS.toUpperChar c ++ Str.capitalize false s.
Proof. intros H. simpl. now rewrite H. Qed.

Lemma capitalize_smalls r t :
  Forall (fun x => isSmall x = true) r ->
  Str.capitalize false (map lowered r ++ t) = plain r ++ Str.capitalize false t.
Proof.
  induction 1 as [| x r Hx _ IH]; [reflexivity |].
  destruct (lowered_small x Hx) as [Hlow Hbreak].
  cbn [map app plain]. rewrite capitalize_inside by exact Hbreak.
  rewrite Hlow. f_equal. exact IH.
Qed.

Lemma capitalize_word_start k w t :
  TitleWord k w ->
  Str.capitalize true (map lowered w ++ t) = plain w ++ Str.capitalize false t.
Proof.
  intros [c r Hc Hr _]. destruct (lowered_capital c Hc) as [Hup Hws].
  cbn [map app plain]. rewrite capitalize_start by exact Hws.
  rewrite Hup. cbn [app]. f_equal. now apply capitalize_smalls.
Qed.

Lemma capitalize_word_after j k w t :
  Str.isBreak j = true -> TitleWord k w ->
  Str.capitalize false (j :: map lowered w ++ t) = j :: plain w ++ Str.capitalize false t.
Proof.
  intros Hj [c r Hc Hr _]. destruct (lowered_capital c Hc) as [Hup Hws].
  cbn [map app plain]. rewrite capitalize_after by assumption.
  rewrite Hup. cbn [app]. do 2 f_equal. now apply capitalize_smalls.
Qed.

Lemma lowered_joiner j : isJoiner j = true -> lowered j = j /\ Utils.baseLetter j = j.
Proof. unfold lowered. every_char j. Qed.

Lemma capitalize_name_after k n : forall j t,
  Str.isBreak j = true -> Name k n ->
  Str.capitalize false (j :: map lowered n ++ t) = j :: plain n ++ Str.capitalize false t.
Proof.
  intros j t Hj Hn. revert j Hj. induction Hn as [w Hw | w j' n Hw Hj' _ IH]; intros j Hj.
  - now apply capitalize_word_after with (k := k).
  - destruct (lowered_joiner j' Hj') as [Hl Hb].
    destruct (joiner_plain j' Hj') as [_ Hbreak].
    unfold plain. rewrite !map_app, <- !app_assoc. cbn [map app]. rewrite Hl, Hb.
    rewrite (capitalize_word_after j k w _ Hj Hw). do 2 f_equal.
    apply IH, Hbreak.
Qed.

Lemma capitalize_name_start k n t :
  Name k n ->
  Str.capitalize true (map lowered n ++ t) = plain n ++ Str.capitalize false t.
Proof.
  intros Hn. destruct Hn as [w Hw | w j n Hw Hj Hn].
  - now apply capitalize_word_start with (k := k).
  - destruct (lowered_joiner j Hj) as [Hl Hb].
    destruct (joiner_plain j Hj) as [_ Hbreak].
    unfold plain. rewrite !map_app, <- !app_assoc. cbn [map app]. rewrite Hl, Hb.
    rewrite (capitalize_word_start k w _ Hw). f_equal.
    now apply capitalize_name_after with (k := k).
Qed.

Lemma lowered_up n :
  Forall (fun c => isLetter c = true) n ->
  JS.toLowerCase (plain (map up n)) = map lowered n.
Proof.
  induction 1 as [| c n Hc _ IH]; [reflexivity |].
  unfold JS.toLowerCase, plain in *. simpl. rewrite IH. f_equal. now apply up_plain.
Qed.

Lemma titleize_display f s :
  Forename f -> Surname s ->
  Str.titleize (cleanDancer (display f s)) = plain f ++ js " " ++ plain s.
Proof.
  intros Hf Hs. rewrite cleanDancer_display by assumption.
  unfold Str.titleize, JS.toLowerCase.
  rewrite !map_app. fold (JS.toLowerCase (plain (map up s))).
  rewrite (lowered_up s (name_letters _ _ Hs)).
  unfold plain at 1. rewrite map_map. fold lowered.
  change (map JS.toLowerChar (js " ")) with (js " ").
  rewrite (capitalize_name_start 1 f _ Hf). f_equal.
  rewrite <- (app_nil_r (map lowered s)).
  change (js " " ++ map lowered s ++ []) with (" "%char :: map lowered s ++ []).
  rewrite (capitalize_name_after 0 s " "%char [] eq_refl Hs).
  simpl. now rewrite app_nil_r.
Qed.

End RoundTrip.

Lemma baseLetter_unaccented c : JS.charCode c < 128 -> Utils.baseLetter c = c.
Proof. every_char c. Qed.

Lemma plain_unaccented n : unaccented n -> plain n = n.
Proof.
  induction 1 as [| c n Hc _ IH]; [reflexivity |].
  unfold plain in *. simpl. now rewrite IH, baseLetter_unaccented.
Qed.

(** C3 (counterexample): the pair of an accented forename and surname, in the
    display convention, comes back without its accents: what is answered is
    not the pair. *)
Lemma cleanNames_drops_accents :
  Forename helene /\ Surname lefevre /\
  @cleanNames exampleHost
    (Some (display helene lefevre ++ js "<br>" ++ display (js "Marie") (js "Martin")))
  = Return (js "Helene Lefevre - Marie Martin") /\
  js "Helene Lefevre - Marie Martin"
  <> (helene ++ js " " ++ lefevre) ++ js " - " ++ (js "Marie" ++ js " " ++ js "Martin").
Proof.
  split; [| split; [| split]].
  - apply name_word. constructor; [reflexivity | repeat constructor | simpl; lia].
  - apply name_word. constructor; [reflexivity | repeat constructor | simpl; lia].
  - vm_compute. reflexivity.
  - vm_compute. discriminate.
Qed.

(** A forename with a capital inside is not kept either: [titleize] puts
    every word in lower case but for its first letter. *)
Lemma cleanNames_inner_capital :
  @cleanNames exampleHost (Some (js "SMITH DeAnn<br>MARTIN Marie")) =
  Return (js "Deann Smith - Marie Martin").
Proof. vm_compute. reflexivity. Qed.

Section CoupleRoundTrip.
Context {host : Host}.

(** C3 (amended): for two dancers displayed as the surname in capitals, a
    space and the forename, the names being title-case words joined by single
    spaces or hyphens, [cleanNames] answers each pair as forename then
    surname with the diacritics of its letters removed, and so the pairs
    themselves when they have none.  The input is taken not to hold the
    sentinel phrase. *)
Theorem cleanNames_round_trip f1 s1 f2 s2 :
  Forename f1 -> Surname s1 -> Forename f2 -> Surname s2 ->
  JS.includes sentinel
    (JS.toLowerCase (display f1 s1 ++ js "<br>" ++ display f2 s2)) = false ->
  cleanNames (Some (display f1 s1 ++ js "<br>" ++ display f2 s2)) =
    Return ((plain f1 ++ js " " ++ plain s1) ++ js " - " ++
            (plain f2 ++ js " " ++ plain s2)) /\
  (unaccented (f1 ++ s1 ++ f2 ++ s2) ->
   cleanNames (Some (display f1 s1 ++ js "<br>" ++ display f2 s2)) =
     Return ((f1 ++ js " " ++ s1) ++ js " - " ++ (f2 ++ js " " ++ s2))).
Proof.
  intros Hf1 Hs1 Hf2 Hs2 Hsent.
  assert (cleanNames (Some (display f1 s1 ++ js "<br>" ++ display f2 s2)) =
          Return ((plain f1 ++ js " " ++ plain s1) ++ js " - " ++
                  (plain f2 ++ js " " ++ plain s2))) as Hplain.
  { unfold cleanNames. rewrite Hsent.
    rewrite split_break by now apply display_noTag.
    cbn [map nth_error printed]. now rewrite !titleize_display. }
  split; [exact Hplain |].
  intros Hun. rewrite Hplain. unfold unaccented in Hun.
  rewrite !Forall_app in Hun. destruct Hun as (H1 & H2 & H3 & H4).
  now rewrite !plain_unaccented.
Qed.

End CoupleRoundTrip.

(** The worked example of the specification. *)
Lemma cleanNames_round_trip_witness :
  @cleanNames exampleHost (Some (js "DUPONT Jean<br>MARTIN Marie")) =
  Return (js "Jean Dupont - Marie Martin").
Proof.
  assert (forall k w, (k <= 1)%nat -> In w [js "Jean"; js "Dupont"; js "Marie"; js "Martin"] ->
                      Name k w) as Hname.
  { intros k w Hk Hw. apply name_word.
    repeat (destruct Hw as [<- | Hw]; [constructor; [reflexivity | repeat constructor | simpl; lia] |]).
    destruct Hw. }
  refine (proj2 (@cleanNames_round_trip exampleHost
                   (js "Jean") (js "Dupont") (js "Marie") (js "Martin")
                   _ _ _ _ eq_refl) _).
  1-4: apply Hname; simpl; auto 6.
  unfold unaccented. repeat constructor.
Defined.

(** ** Provider operations *)

Section Operations.
Context `{Host}.

Lemma listUrl_season s year :
  listUrl s year =
  optUrl (opts s) ++ js "/" ++ optList (opts s) ++
  (if decide (inSeason year (clock s)) then [] else js "?Archives").
Proof.
  unfold listUrl. do 3 f_equal.
  destruct (decide (inSeason year (clock s))) as [Hin | Hout].
  - apply isWithinSeason_inSeason in Hin. now rewrite Hin.
  - destruct (isWithinSeason year (clock s)) eqn:E; [| reflexivity].
    apply isWithinSeason_inSeason in E. contradiction.
Qed.

Lemma listResults_sent year s :
  sent (snd (listResults year s)) = sent s ++ [listUrl s year].
Proof.
  unfold listResults, orCatch, andThen, request, resolve, Utils.handleRequestError, reject.
  destruct (respond s (listUrl s year)); reflexivity.
Qed.

(** C7: [listResults year] sends one request; it goes to the listing address
    when the current date lies in season [year], and to that address followed
    by [?Archives] when it does not. *)
Theorem listResults_endpoint year s :
  sent (snd (listResults year s)) =
  sent s ++ [optUrl (opts s) ++ js "/" ++ optList (opts s) ++
             (if decide (inSeason year (clock s)) then [] else js "?Archives")].
Proof. rewrite listResults_sent. now rewrite listUrl_season. Qed.

(** C10: a missing group and the empty string are rejected with the
    validation error at once: the state that comes back is the state that
    went in, so no request was sent and the club cache was not filled. *)
Theorem getGroupCouples_rejects_missing s :
  getGroupCouples None s = (Throw (ValidationError (js "group parameter") AnyRequired), s) /\
  getGroupCouples (Some []) s = (Throw (ValidationError (js "group parameter") AnyEmpty), s).
Proof. split; reflexivity. Qed.

(** Any other group goes on to the club list: with an empty cache, the first
    thing that happens is the request for it. *)
Lemma getGroupCouples_fetches c g s :
  clubs s = None ->
  exists more,
    sent (snd (getGroupCouples (Some (c :: g)) s)) =
    sent s ++ (optUrl (opts s) ++ js "/" ++ optClubs (opts s)) :: more.
Proof.
  intros Hc. unfold getGroupCouples. cbn [validateGroup]. rewrite Hc.
  unfold andThen, searchGroups. rewrite Hc.
  unfold orCatch, andThen, request, Utils.handleRequestError, reject.
  destruct (respond s _) as [body | e]; cbn [fst snd].
  - cbn [clubs withClubs withSent].
    destruct (List.find _ _) as [club |]; [| exists []; reflexivity].
    cbn [opts withClubs withSent sent respond]. unfold settle.
    destruct (respond s _) as [couples | e]; [destruct (extractNames couples) |];
      cbn [sent snd withSent]; rewrite <- app_assoc; eexists; reflexivity.
  - exists []. reflexivity.
Qed.

End Operations.

(** ** Ranking extraction *)

Section Ranking.
Context `{Host}.

(** What a cleaned couple name always holds: a space. *)
Lemma cleanNames_space o n : cleanNames o = Return n -> In " "%char n.
Proof.
  unfold cleanNames. destruct o as [names |]; [| discriminate].
  destruct (JS.includes sentinel (JS.toLowerCase names)); intros E; injection E as <-.
  - vm_compute. tauto.
  - apply in_or_app. right. now left.
Qed.

Lemma objectPrototype_no_space (k : jsstring) : k ∈ objectPrototype -> ~ In " "%char k.
Proof.
  intros Hk. apply list_elem_of_In in Hk.
  assert (forallb (fun k => negb (existsb (fun c => bool_decide (c = " "%char)) k))
                  objectPrototype = true) as Hall by (vm_compute; reflexivity).
  rewrite forallb_forall in Hall. specialize (Hall k Hk).
  apply negb_true_iff in Hall. intros Hin.
  assert (existsb (fun c => bool_decide (c = " "%char)) k = true) as Hex.
  { apply existsb_exists. exists " "%char. split; [exact Hin | now apply bool_decide_eq_true_2]. }
  congruence.
Qed.

(** For a cleaned name, [in] reads the results alone. *)
Lemma inObject_cleaned (o : option jsstring) (n : jsstring) (results : gmap jsstring num) :
  cleanNames o = Return n ->
  inObject n results = bool_decide (is_Some (results !! n)).
Proof.
  intros Hn. unfold inObject.
  rewrite (bool_decide_eq_false_2 (n ∈ objectPrototype)); [apply orb_false_r |].
  intros Hk. exact (objectPrototype_no_space n Hk (cleanNames_space o n Hn)).
Qed.

Lemma firstRank_app n a b :
  firstRank n (a ++ b) = match firstRank n a with
                         | Some v => Some v
                         | None => firstRank n b
                         end.
Proof.
  induction a as [| r a IH]; [reflexivity |]. simpl.
  destruct (decide (cleaned r = Some n)); [reflexivity | exact IH].
Qed.

Lemma eachRow_firstSeen title i rows : forall results : gmap jsstring num,
  Forall (fun r => is_Some (cleaned r)) rows ->
  exists results', eachRow title i rows results = Return results' /\
                   firstSeen results rows results'.
Proof.
  induction rows as [| row rows IH]; intros results Hok.
  - exists results. split; [reflexivity |]. intros n. simpl. now destruct (results !! n).
  - inversion Hok as [| ? ? [m Hm] Hrest]; subst. simpl.
    unfold cleaned in Hm. destruct (cleanNames (namesCell row)) as [m' | e] eqn:E; [| discriminate].
    injection Hm as ->. rewrite (inObject_cleaned _ _ results E).
    destruct (IH (if bool_decide (is_Some (results !! m)) then results
                  else <[m := parseInt (rankCell row)]> results) Hrest) as (res' & Hrun & Hfirst).
    exists res'. split; [exact Hrun |]. intros n. rewrite (Hfirst n).
    assert (cleaned row = Some m) as Hc by (unfold cleaned; now rewrite E).
    cbn [firstRank]. rewrite Hc.
    destruct (decide (Some m = Some n)) as [Heq | Hne].
    + injection Heq as ->. case_bool_decide as Hsome.
      * destruct Hsome as [v Hv]. now rewrite Hv.
      * rewrite lookup_insert_eq.
        destruct (results !! n) eqn:En; [exfalso; apply Hsome; eauto | reflexivity].
    + assert (m <> n) as Hmn by congruence. case_bool_decide; [reflexivity |].
      now rewrite lookup_insert_ne.
Qed.

Lemma eachHeat_firstSeen title heats : forall i (results : gmap jsstring num),
  Forall (fun r => is_Some (cleaned r)) (concat heats) ->
  exists results', eachHeat title i heats results = Return results' /\
                   firstSeen results (concat heats) results'.
Proof.
  induction heats as [| heat heats IH]; intros i results Hok.
  - exists results. split; [reflexivity |]. intros n. simpl. now destruct (results !! n).
  - simpl in Hok. apply Forall_app in Hok as [Hheat Hrest].
    destruct (eachRow_firstSeen title i heat results Hheat) as (res1 & Hrun1 & Hfirst1).
    destruct (IH (i + 1) res1 Hrest) as (res2 & Hrun2 & Hfirst2).
    exists res2. simpl. rewrite Hrun1. simpl. split; [exact Hrun2 |].
    intros n. rewrite (Hfirst2 n), (Hfirst1 n), firstRank_app.
    destruct (results !! n); [reflexivity |]. now destruct (firstRank n heat).
Qed.

Lemma firstRank_here n before row after :
  cleaned row = Some n ->
  Forall (fun r => cleaned r <> Some n) before ->
  firstRank n (before ++ row :: after) = Some (parseInt (rankCell row)).
Proof.
  intros Hrow Hbefore. induction Hbefore as [| r before Hr _ IH]; simpl.
  - now rewrite decide_True.
  - now rewrite decide_False.
Qed.

Lemma ranking_firstSeen bodyRaw :
  Forall (fun r => is_Some (cleaned r)) (visited bodyRaw) ->
  exists res,
    ranking bodyRaw = Return (mkContest (cleanContest (heading (repaired bodyRaw))) res) /\
    forall n, res !! n = firstRank n (visited bodyRaw).
Proof.
  intros Hok. unfold ranking. fold (repaired bodyRaw).
  destruct (eachHeat_firstSeen (cleanContest (heading (repaired bodyRaw)))
              (portlets (repaired bodyRaw)) 0 ∅ Hok) as (res & Hrun & Hfirst).
  exists res. rewrite Hrun. split; [reflexivity |].
  intros n. rewrite (Hfirst n). now rewrite lookup_empty.
Qed.

(** C5: on a ranking page whose rows all clean, a couple name is recorded
    with the rank of the first row that carries it in the order of the visit
    (the heats in document order, the final first); the rows behind it,
    whatever heat they stand in and whatever name they carry, do not change
    that rank.  The results being a map, a name has one rank. *)
Theorem extractRanking_first_seen url s bodyRaw before row after (n : jsstring) :
  respond s url = Return bodyRaw ->
  visited bodyRaw = before ++ row :: after ->
  Forall (fun r => is_Some (cleaned r)) (visited bodyRaw) ->
  cleaned row = Some n ->
  Forall (fun r => cleaned r <> Some n) before ->
  exists res,
    fst (extractRanking url s) =
      Return (mkContest (cleanContest (heading (repaired bodyRaw))) res) /\
    res !! n = Some (parseInt (rankCell row)).
Proof.
  intros Hbody Hrows Hok Hrow Hbefore.
  destruct (ranking_firstSeen bodyRaw Hok) as (res & Hrun & Hfirst).
  exists res. split.
  - unfold extractRanking, andThen, request, settle. now rewrite Hbody, Hrun.
  - rewrite (Hfirst n), Hrows. now apply firstRank_here.
Qed.

End Ranking.

(** Paul Durand and Anne Petit are second in the final and third in the heat
    before it: the final counts. *)
Lemma extractRanking_first_seen_witness :
  exists res,
    fst (@extractRanking exampleHost (js "http://ffds.example/ranking") exampleState) =
      Return (@mkContest exampleHost (js "Latines") res) /\
    res !! js "Paul Durand - Anne Petit" = Some 2.
Proof.
  refine (@extractRanking_first_seen exampleHost (js "http://ffds.example/ranking")
            exampleState (js "<html>")
            [mkRow (Some (js "DUPONT Jean<br>MARTIN Marie")) (js "1")]
            (mkRow (Some (js "DURAND Paul<br>PETIT Anne")) (js "2"))
            [mkRow (Some (js "DURAND Paul<br>PETIT Anne")) (js "3");
             mkRow (Some (js "DUPONT Jean<br>MARTIN Marie")) (js "4")]
            (js "Paul Durand - Anne Petit") eq_refl eq_refl _ eq_refl _).
  - repeat constructor; eexists; vm_compute; reflexivity.
  - repeat constructor. vm_compute. discriminate.
Defined.

(** ** First occurrences *)

Section Uniq.
Context {A : Type} `{EqDecision A}.
Implicit Types (x y : A) (l : list A).

Lemma elem_of_uniq x l : x ∈ uniq l <-> x ∈ l.
Proof.
  induction l as [| y l IH]; [reflexivity |]. simpl.
  rewrite !elem_of_cons, list_elem_of_filter, IH.
  destruct (decide (x = y)); tauto.
Qed.

Lemma NoDup_uniq l : NoDup (uniq l).
Proof.
  induction l as [| y l IH]; simpl; [constructor |].
  apply NoDup_cons. split; [| now apply NoDup_filter].
  rewrite list_elem_of_filter. tauto.
Qed.

Lemma filter_other x l : x ∉ l -> filter (fun y => y <> x) l = l.
Proof.
  induction l as [| y l IH]; intros Hx; [reflexivity |].
  rewrite not_elem_of_cons in Hx. destruct Hx as [Hxy Hx].
  rewrite filter_cons_True by congruence. now rewrite IH.
Qed.

(** A list without duplicates is left as it is. *)
Lemma uniq_NoDup l : NoDup l -> uniq l = l.
Proof.
  induction 1 as [| x l Hx _ IH]; [reflexivity |].
  simpl. rewrite IH. now rewrite filter_other.
Qed.

(** The order is that of the first occurrences: what was seen before a new
    element stays before it. *)
Lemma uniq_snoc l x :
  uniq (l ++ [x]) = if decide (x ∈ l) then uniq l else uniq l ++ [x].
Proof.
  induction l as [| y l IH]; [reflexivity |].
  simpl. rewrite IH. destruct (decide (x ∈ l)) as [Hin | Hout].
  - rewrite decide_True by (now right). reflexivity.
  - rewrite filter_app. destruct (decide (x = y)) as [-> | Hne].
    + rewrite decide_True by (now left).
      rewrite filter_cons_False by tauto. now rewrite app_nil_r.
    + rewrite decide_False by (rewrite elem_of_cons; tauto).
      now rewrite filter_cons_True by exact Hne.
Qed.

Lemma elem_of_compact {B} (b : B) (l : list (option B)) : b ∈ compact l <-> Some b ∈ l.
Proof.
  induction l as [| [c |] l IH]; simpl.
  - rewrite !elem_of_nil. tauto.
  - rewrite !elem_of_cons, IH. split; intros [E | E]; auto; left; congruence.
  - rewrite elem_of_cons, IH. split; [tauto |]. intros [E | E]; [discriminate | exact E].
Qed.

End Uniq.

(** ** The serial task runner *)

Section Serial.
Context {S A : Type}.
Implicit Types (task : Promise S A) (tasks : list (Promise S A)) (s : S).

Lemma runSerially_cons {T B} (task : Promise T B) (tasks : list (Promise T B)) (s : T) :
  Utils.runSerially (task :: tasks) s =
  match task s with
  | (Return a, s1) =>
      match Utils.runSerially tasks s1 with
      | (Return rest, s2) => (Return (a :: rest), s2)
      | (Throw e, s2) => (Throw e, s2)
      end
  | (Throw e, s1) => (Throw e, s1)
  end.
Proof. reflexivity. Qed.

Lemma runSerially_completes tasks s results s' :
  Completes tasks s results s' ->
  forall i log,
    Utils.runSerially (probes i tasks) (s, log) =
    (Return results, (s', log ++ seq i (length tasks))).
Proof.
  induction 1 as [s | task tasks s a s1 results s2 Htask _ IH]; intros i log.
  - simpl. now rewrite app_nil_r.
  - simpl. unfold andThen at 1. unfold probe at 1. simpl. rewrite Htask.
    unfold andThen. rewrite IH. unfold resolve. now rewrite <- app_assoc.
Qed.

Lemma runSerially_stops before : forall task after s results s1 e s2,
  Completes before s results s1 -> task s1 = (Throw e, s2) ->
  forall i log,
    Utils.runSerially (probes i (before ++ task :: after)) (s, log) =
    (Throw e, (s2, log ++ seq i (Datatypes.S (length before)))).
Proof.
  intros task after s results s1 e s2 Hrun.
  induction Hrun as [s | t tasks s a s1 results s3 Ht _ IH]; intros Hfail i log.
  - simpl. unfold andThen at 1. unfold probe at 1. simpl. now rewrite Hfail.
  - simpl. unfold andThen at 1. unfold probe at 1. simpl. rewrite Ht.
    unfold andThen. rewrite (IH Hfail). now rewrite <- app_assoc.
Qed.

(** Without the probes the runner settles the same way. *)
Lemma runSerially_plain tasks : forall i s log,
  Utils.runSerially tasks s =
  (fst (Utils.runSerially (probes i tasks) (s, log)),
   fst (snd (Utils.runSerially (probes i tasks) (s, log)))).
Proof.
  induction tasks as [| task tasks IH]; intros i s log; [reflexivity |].
  cbn [probes]. rewrite !runSerially_cons. unfold probe. cbn [fst snd].
  destruct (task s) as [[a | e] s1]; [| reflexivity].
  rewrite (IH (Datatypes.S i) s1 (log ++ [i])).
  destruct (Utils.runSerially (probes (Datatypes.S i) tasks) (s1, log ++ [i])) as [[r | e] [s2 l]];
    reflexivity.
Qed.

End Serial.

(** C6: the runner invokes the operations in list order and one after the
    other.  When all succeed, every one was invoked once, in order, and the
    results come back in that order.  When operation [k] is the first to
    fail, the operations up to [k] were invoked in order and none behind it,
    the whole fails with the failure of [k], and the results gathered before
    are not part of the outcome. *)
Theorem runSerially_in_order {S A : Type} :
  (forall (tasks : list (Promise S A)) s results s',
     Completes tasks s results s' ->
     Utils.runSerially (probes 0 tasks) (s, []) =
     (Return results, (s', seq 0 (length tasks)))) /\
  (forall (before : list (Promise S A)) task after s results s1 e s2,
     Completes before s results s1 -> task s1 = (Throw e, s2) ->
     Utils.runSerially (probes 0 (before ++ task :: after)) (s, []) =
     (Throw e, (s2, seq 0 (Datatypes.S (length before))))).
Proof.
  split.
  - intros tasks s results s' Hrun. exact (runSerially_completes _ _ _ _ Hrun 0%nat []).
  - intros before task after s results s1 e s2 Hrun Hfail.
    exact (runSerially_stops _ _ _ _ _ _ _ _ Hrun Hfail 0%nat []).
Qed.

(** The second of three operations fails: two were invoked, and the failure
    is the outcome. *)
Lemma runSerially_in_order_witness :
  Utils.runSerially (probes 0 exampleTasks) (0%nat, []) =
  (Throw (NetworkError (js "ETIMEDOUT")), (2%nat, [0%nat; 1%nat])).
Proof.
  refine (proj2 (@runSerially_in_order nat Z)
            [fun n => (Return 10, Datatypes.S n)]
            (fun n => (Throw (NetworkError (js "ETIMEDOUT")), Datatypes.S n))
            [fun n => (Return 30, Datatypes.S n)]
            0%nat [10] 1%nat (NetworkError (js "ETIMEDOUT")) 2%nat _ eq_refl).
  apply (completes_cons _ [] 0%nat 10 1%nat [] 1%nat eq_refl). apply completes_nil.
Defined.

(** ** Merging the candidates of a listing *)

Section Merge.
Context `{Host}.
Implicit Types (c first : Competition) (candidates : list (option Competition)).

Lemma elem_of_members i c candidates :
  c ∈ members i candidates <-> Some c ∈ candidates /\ id c = i.
Proof.
  unfold members. rewrite list_elem_of_In, filter_In, <- list_elem_of_In, elem_of_compact.
  unfold sameId. rewrite bool_decide_eq_true. tauto.
Qed.

Lemma members_id i c rest candidates : members i candidates = c :: rest -> id c = i.
Proof.
  intros E. assert (c ∈ members i candidates) as Hc by (rewrite E; now left).
  now apply elem_of_members in Hc.
Qed.

(** What [mergeGroup] makes of a group whose links have no duplicates. *)
Lemma mergeGroup_union first rest :
  NoDup (dataUrls first) ->
  mergeGroup (first :: rest) =
  Some (withDataUrls first (uniq (concat (map dataUrls (first :: rest))))).
Proof.
  intros Hnd. destruct rest as [| second rest]; [| reflexivity].
  simpl. rewrite app_nil_r, uniq_NoDup by exact Hnd. now destruct first.
Qed.

Lemma compact_map_ids (f : jsstring -> option Competition) ids :
  (forall i, i ∈ ids -> exists c, f i = Some c /\ id c = i) ->
  map id (compact (map f ids)) = ids.
Proof.
  induction ids as [| i ids IH]; intros Hf; [reflexivity |]. simpl.
  destruct (Hf i) as (c & -> & Hc); [now left |]. simpl. rewrite Hc, IH; [reflexivity |].
  intros j Hj. apply Hf. now right.
Qed.

Lemma elem_of_compact_map (f : jsstring -> option Competition) ids c :
  c ∈ compact (map f ids) -> exists i, i ∈ ids /\ f i = Some c.
Proof.
  induction ids as [| i ids IH]; simpl; [intros Hc; now apply elem_of_nil in Hc |].
  destruct (f i) as [d |] eqn:E.
  - rewrite elem_of_cons. intros [-> | Hc].
    + exists i. split; [now left | exact E].
    + destruct (IH Hc) as (j & Hj & Ej). exists j. split; [now right | exact Ej].
  - intros Hc. destruct (IH Hc) as (j & Hj & Ej). exists j. split; [now right | exact Ej].
Qed.

Lemma elem_of_ids i (l : list Competition) : i ∈ map id l <-> exists c, c ∈ l /\ id c = i.
Proof.
  rewrite list_elem_of_In, in_map_iff. split; intros (c & H1 & H2).
  - exists c. now rewrite list_elem_of_In.
  - exists c. now rewrite <- list_elem_of_In.
Qed.

(** Every id of the listing has a group, and the group merges into its first
    member with the links of all. *)
Lemma mergeGroup_members candidates i :
  Forall (fun c => NoDup (dataUrls c)) (compact candidates) ->
  i ∈ uniq (map id (compact candidates)) ->
  exists first rest,
    members i candidates = first :: rest /\
    mergeGroup (members i candidates) =
    Some (withDataUrls first (uniq (concat (map dataUrls (first :: rest))))).
Proof.
  intros Hwf Hi. apply elem_of_uniq, elem_of_ids in Hi as (c & Hc & Hid).
  assert (c ∈ members i candidates) as Hm
    by (apply elem_of_members; split; [now apply elem_of_compact | exact Hid]).
  destruct (members i candidates) as [| first rest] eqn:E; [now apply elem_of_nil in Hm |].
  exists first, rest. split; [reflexivity |]. apply mergeGroup_union.
  rewrite Forall_forall in Hwf. apply Hwf.
  assert (first ∈ members i candidates) as Hf by (rewrite E; now left).
  apply elem_of_members in Hf as [Hf _]. now apply elem_of_compact.
Qed.

Lemma mergeCompetitions_ids candidates :
  Forall (fun c => NoDup (dataUrls c)) (compact candidates) ->
  map id (mergeCompetitions candidates) = uniq (map id (compact candidates)).
Proof.
  intros Hwf. unfold mergeCompetitions. apply compact_map_ids. intros i Hi.
  destruct (mergeGroup_members candidates i Hwf Hi) as (first & rest & Hm & Hg).
  fold (members i candidates). rewrite Hg. eexists. split; [reflexivity |].
  simpl. exact (members_id _ _ _ _ Hm).
Qed.

Lemma mergeCompetitions_member candidates c :
  Forall (fun c => NoDup (dataUrls c)) (compact candidates) ->
  c ∈ mergeCompetitions candidates ->
  exists first rest,
    members (id c) candidates = first :: rest /\
    c = withDataUrls first (uniq (concat (map dataUrls (first :: rest)))).
Proof.
  intros Hwf Hc. unfold mergeCompetitions in Hc.
  apply elem_of_compact_map in Hc as (i & Hi & Hg).
  destruct (mergeGroup_members candidates i Hwf Hi) as (first & rest & Hm & Hg').
  fold (members i candidates) in Hg. rewrite Hg' in Hg. injection Hg as <-.
  exists first, rest. simpl. rewrite (members_id _ _ _ _ Hm). now split.
Qed.

Lemma elem_of_links u (group : list Competition) :
  u ∈ concat (map dataUrls group) <-> exists m, m ∈ group /\ u ∈ dataUrls m.
Proof.
  rewrite list_elem_of_In, in_concat. split.
  - intros (l & Hl & Hu). apply in_map_iff in Hl as (m & <- & Hm).
    exists m. now rewrite !list_elem_of_In.
  - intros (m & Hm & Hu). exists (dataUrls m). rewrite in_map_iff, <- list_elem_of_In.
    split; [| exact Hu]. exists m. now rewrite <- list_elem_of_In.
Qed.

(** What [extractHeader] gives: the id is made of the place and the day, and
    the candidate carries its one link. *)
Lemma extractHeader_shape line options year c :
  extractHeader line options year = Some c ->
  id c = md5 (slugify (place c) ++ formatDay (day c)) /\ exists u, dataUrls c = [u].
Proof.
  unfold extractHeader. destruct (href line) as [[| a link] |]; try discriminate.
  destruct (Re.numManif (a :: link)); [| discriminate].
  destruct (negb _); [discriminate |].
  destruct (momentParse _ _); [| discriminate].
  intros E. injection E as <-. simpl. eauto.
Qed.

Lemma mergeCompetitions_pair c1 c2 u1 u2 :
  id c1 = id c2 -> dataUrls c1 = [u1] -> dataUrls c2 = [u2] -> u1 <> u2 ->
  mergeCompetitions [Some c1; Some c2] = [withDataUrls c1 [u1; u2]].
Proof.
  intros Hid H1 H2 Hne. unfold mergeCompetitions. cbn [compact map uniq]. rewrite Hid.
  rewrite filter_nil, filter_cons_False, filter_nil by tauto.
  cbn [map List.filter]. unfold sameId. rewrite Hid.
  rewrite bool_decide_eq_true_2 by reflexivity.
  cbn [mergeGroup map concat compact]. rewrite H1, H2. cbn [app uniq].
  rewrite filter_nil, filter_cons_True, filter_nil by congruence. reflexivity.
Qed.

(** C2: the merge drops the missing entries and keeps one competition per
    id, in the order in which the ids first occur; each is the first member
    of its id with the links of all the members of that id, in first-seen
    order and without duplicates.  Two candidates that [extractHeader] gave
    the same place and day and different links merge into one record that
    holds both links, whichever comes first.  The links of a candidate are
    taken to hold no duplicate. *)
Theorem mergeCompetitions_dedup :
  (forall candidates,
     Forall (fun c => NoDup (dataUrls c)) (compact candidates) ->
     let merged := mergeCompetitions candidates in
     map id merged = uniq (map id (compact candidates)) /\
     NoDup (map id merged) /\
     (forall i, i ∈ map id merged <-> exists c, Some c ∈ candidates /\ id c = i) /\
     (forall c, c ∈ merged ->
        (exists first rest,
           members (id c) candidates = first :: rest /\
           c = withDataUrls first (uniq (concat (map dataUrls (first :: rest))))) /\
        NoDup (dataUrls c) /\
        (forall u, u ∈ dataUrls c <->
                   exists m, Some m ∈ candidates /\ id m = id c /\ u ∈ dataUrls m))) /\
  (forall options year line1 line2 c1 c2,
     extractHeader line1 options year = Some c1 ->
     extractHeader line2 options year = Some c2 ->
     place c1 = place c2 -> day c1 = day c2 -> dataUrls c1 <> dataUrls c2 ->
     exists u1 u2,
       dataUrls c1 = [u1] /\ dataUrls c2 = [u2] /\
       mergeCompetitions [Some c1; Some c2] = [withDataUrls c1 [u1; u2]] /\
       mergeCompetitions [Some c2; Some c1] = [withDataUrls c2 [u2; u1]]).
Proof.
  split.
  - intros candidates Hwf merged. subst merged.
    pose proof (mergeCompetitions_ids candidates Hwf) as Hids.
    split; [exact Hids |]. split; [rewrite Hids; apply NoDup_uniq |]. split.
    + intros i. rewrite Hids, elem_of_uniq, elem_of_ids. split; intros (c & Hc & Hi).
      * exists c. now rewrite <- elem_of_compact.
      * exists c. now rewrite elem_of_compact.
    + intros c Hc.
      destruct (mergeCompetitions_member candidates c Hwf Hc) as (first & rest & Hm & ->).
      split; [now exists first, rest |]. cbn [dataUrls withDataUrls id] in *.
      split; [apply NoDup_uniq |]. intros u.
      rewrite elem_of_uniq, elem_of_links, <- Hm. split; intros (m & Hin & Hu).
      * apply elem_of_members in Hin as [Hin Hid]. now exists m.
      * destruct Hu as [Hid Hu]. exists m. split; [| exact Hu].
        apply elem_of_members. now split.
  - intros options year line1 line2 c1 c2 E1 E2 Hplace Hday Hne.
    destruct (extractHeader_shape _ _ _ _ E1) as (Hid1 & u1 & Hu1).
    destruct (extractHeader_shape _ _ _ _ E2) as (Hid2 & u2 & Hu2).
    assert (id c1 = id c2) as Hid by (rewrite Hid1, Hid2, Hplace, Hday; reflexivity).
    assert (u1 <> u2) as Hu by congruence.
    exists u1, u2. repeat split; try assumption.
    + now apply mergeCompetitions_pair.
    + apply mergeCompetitions_pair; congruence.
Qed.

End Merge.

(** The two rows of the example listing become one competition with both
    links. *)
Lemma mergeCompetitions_dedup_witness :
  @mergeCompetitions exampleHost
    (map (fun line => @extractHeader exampleHost line exampleOptions 2023) exampleLines) =
  [@withDataUrls exampleHost (exampleCompetition (js "101"))
     [js "http://ffds.example/details.php?NumManif=101";
      js "http://ffds.example/details.php?NumManif=102"]].
Proof.
  destruct (proj2 (@mergeCompetitions_dedup exampleHost) exampleOptions 2023
              (mkLine (Some (js "Competition_Resultats.php?NumManif=101"))
                      (js " PARIS (75) ") (js "30/09/2023"))
              (mkLine (Some (js "Competition_Resultats.php?NumManif=102"))
                      (js "Paris") (js "30/09/2023"))
              (exampleCompetition (js "101")) (exampleCompetition (js "102"))
              eq_refl eq_refl eq_refl eq_refl)
    as (u1 & u2 & H1 & H2 & H12 & _).
  - vm_compute. discriminate.
  - injection H1 as <-. injection H2 as <-. exact H12.
Defined.

(** ** Details of a competition *)

Section Details.
Context `{Host}.

Lemma runSerially_fetches_stops {A} (f : jsstring -> Promise State A) context url e after :
  fetches f context ->
  forall before s,
    Forall (fun u => exists body, respond s u = Return body) before ->
    respond s url = Throw e ->
    Utils.runSerially (map f (before ++ url :: after)) s =
    (Throw (RequestError context e), withSent s (sent s ++ before ++ [url])).
Proof.
  intros Hf before. induction before as [| u before IH]; intros s Hok Hfail.
  - cbn [app map]. rewrite runSerially_cons.
    destruct (Hf url s) as [Hs Ho]. rewrite Hfail in Ho.
    destruct (f url s) as [o s']. simpl in Hs, Ho. now subst.
  - inversion Hok as [| ? ? [body Hbody] Hrest]; subst.
    cbn [app map]. rewrite runSerially_cons.
    destruct (Hf u s) as [Hs Ho]. rewrite Hbody in Ho. destruct Ho as [a Ho].
    destruct (f u s) as [o s']. simpl in Hs, Ho. subst.
    rewrite (IH (withSent s (sent s ++ [u])) Hrest Hfail).
    cbn [sent withSent]. now rewrite <- !app_assoc.
Qed.

(** X1: when the request of a detail page is the first to fail, the detail
    pages before it and that one were requested, in order, and nothing else:
    no later detail page and no ranking page.  The competition is not
    returned; the failure is, under the context of the detail requests. *)
Lemma getDetails_stops competition s before url after e :
  dataUrls competition = before ++ url :: after ->
  Forall (fun u => exists body, respond s u = Return body) before ->
  respond s url = Throw e ->
  getDetails competition s =
  (Throw (RequestError (js "failed to fetch contests from " ++ optName (opts s) ++ js " " ++
                        place competition) e),
   withSent s (sent s ++ before ++ [url])).
Proof.
  intros Hurls Hok Hfail. unfold getDetails, andThen at 1. rewrite Hurls.
  erewrite (runSerially_fetches_stops _
              (js "failed to fetch contests from " ++ optName (opts s) ++ js " " ++
               place competition) url e after); [reflexivity | | exact Hok | exact Hfail].
  intros u s'. unfold orCatch, andThen, request, resolve, Utils.handleRequestError, reject.
  destruct (respond s' u) as [body | e'] eqn:E; cbn [fst snd]; rewrite ?E; eauto.
Qed.

(** X2: a competition without detail pages sends nothing and gets no
    contest. *)
Lemma getDetails_no_url competition s :
  getDetails (withDataUrls competition []) s =
  (Return (withContests (withDataUrls competition []) []), s).
Proof. reflexivity. Qed.

End Details.

(** The second of three detail pages is out of reach: two requests were
    sent. *)
Lemma getDetails_stops_witness :
  @getDetails exampleHost
    (@withDataUrls exampleHost (exampleCompetition (js "101"))
       [js "http://ffds.example/details.php?NumManif=101";
        js "http://ffds.example/details.php?NumManif=102";
        js "http://ffds.example/details.php?NumManif=103"])
    exampleOutage =
  (Throw (RequestError (js "failed to fetch contests from FFDS Paris")
            (NetworkError (js "ETIMEDOUT"))),
   withSent exampleOutage
     [js "http://ffds.example/details.php?NumManif=101";
      js "http://ffds.example/details.php?NumManif=102"]).
Proof.
  refine (@getDetails_stops exampleHost
            (@withDataUrls exampleHost (exampleCompetition (js "101"))
               [js "http://ffds.example/details.php?NumManif=101";
                js "http://ffds.example/details.php?NumManif=102";
                js "http://ffds.example/details.php?NumManif=103"])
            exampleOutage
            [js "http://ffds.example/details.php?NumManif=101"]
            (js "http://ffds.example/details.php?NumManif=102")
            [js "http://ffds.example/details.php?NumManif=103"]
            (NetworkError (js "ETIMEDOUT")) eq_refl _ eq_refl).
  repeat constructor. exists (js "<html>"). reflexivity.
Defined.

(** ** Seasons, one per date *)

(** X3: a date lies in one season and one only, whatever its month and day:
    the season of the year before when the date falls in the first half of
    its year, the season of its own year otherwise. *)
Theorem isWithinSeason_one_season y d :
  isWithinSeason y d = true <-> y = (if isFirstHalf d then year d - 1 else year d).
Proof.
  unfold isWithinSeason.
  rewrite orb_true_iff, !andb_true_iff, negb_true_iff, !Z.eqb_eq.
  destruct (isFirstHalf d); intuition (try discriminate; lia).
Qed.

(** ** Occurrences of a pattern

    The patterns the provider looks for (the two labels of a contest title,
    the break marker) begin with a code unit that stands nowhere else in
    them, so two occurrences cannot overlap and an occurrence cannot begin
    before a copy of the pattern and end inside it. *)

Section Occurrences.
Implicit Types (p q a b t r : jsstring) (c x : ascii).

Lemma startsWith_short p a c t :
  c ∉ p -> JS.startsWith p (a ++ c :: t) = JS.startsWith p a.
Proof.
  revert a. induction p as [| d p IH]; intros a Hc; [reflexivity |].
  apply not_elem_of_cons in Hc as [Hcd Hc].
  destruct a as [| e a]; simpl.
  - rewrite bool_decide_eq_false_2 by congruence. reflexivity.
  - now rewrite IH.
Qed.

Lemma startsWith_before c p a x t :
  c ∉ p -> JS.startsWith (c :: p) ((x :: a) ++ c :: t) = JS.startsWith (c :: p) (x :: a).
Proof. intros Hc. simpl. now rewrite startsWith_short. Qed.

Lemma includes_cons p x s :
  JS.includes p (x :: s) = JS.startsWith p (x :: s) || JS.includes p s.
Proof. reflexivity. Qed.

Lemma includes_before c p a t :
  c ∉ p ->
  JS.includes (c :: p) (a ++ c :: t) = JS.includes (c :: p) a || JS.includes (c :: p) (c :: t).
Proof.
  intros Hc. induction a as [| x a IH]; [reflexivity |].
  change ((x :: a) ++ c :: t) with (x :: (a ++ c :: t)).
  rewrite !includes_cons, IH.
  change (x :: a ++ c :: t) with ((x :: a) ++ c :: t).
  rewrite startsWith_before by exact Hc. now rewrite orb_assoc.
Qed.

Lemma includes_skip c p q t :
  c ∉ q -> JS.includes (c :: p) (q ++ t) = JS.includes (c :: p) t.
Proof.
  induction q as [| d q IH]; intros Hc; [reflexivity |].
  apply not_elem_of_cons in Hc as [Hcd Hc].
  change ((d :: q) ++ t) with (d :: (q ++ t)). rewrite includes_cons, IH by exact Hc.
  simpl JS.startsWith at 1. now rewrite bool_decide_eq_false_2 by exact Hcd.
Qed.

Lemma includes_app_false p a b :
  JS.includes p (a ++ b) = false -> JS.includes p a = false /\ JS.includes p b = false.
Proof.
  intros H. split.
  - destruct (JS.includes p a) eqn:E; [| reflexivity].
    apply includes_spec in E as (x & y & ->).
    rewrite <- H. symmetry. apply includes_spec. exists x, (y ++ b).
    now rewrite <- !app_assoc.
  - destruct (JS.includes p b) eqn:E; [| reflexivity].
    apply includes_spec in E as (x & y & ->).
    rewrite <- H. symmetry. apply includes_spec. exists (a ++ x), y.
    now rewrite <- !app_assoc.
Qed.

Lemma replace_here p r t : JS.replace p r (p ++ t) = r ++ t.
Proof.
  destruct p as [| c p]; [now destruct t |].
  change ((c :: p) ++ t) with (c :: (p ++ t)). cbn [JS.replace].
  change (c :: (p ++ t)) with ((c :: p) ++ t).
  rewrite startsWith_app. f_equal.
  rewrite skipn_app, skipn_all, Nat.sub_diag. reflexivity.
Qed.

Lemma replace_before c p r a t :
  c ∉ p -> JS.includes (c :: p) a = false ->
  JS.replace (c :: p) r (a ++ c :: t) = a ++ JS.replace (c :: p) r (c :: t).
Proof.
  intros Hc. induction a as [| x a IH]; intros Ha; [reflexivity |].
  rewrite includes_cons in Ha. apply orb_false_iff in Ha as [Hx Ha].
  change ((x :: a) ++ c :: t) with (x :: (a ++ c :: t)). cbn [JS.replace].
  change (x :: (a ++ c :: t)) with ((x :: a) ++ c :: t).
  rewrite startsWith_before, Hx by exact Hc. cbn [app]. f_equal. now apply IH.
Qed.

End Occurrences.

(** ** Contest titles: a label anywhere *)

Lemma label_opens :
  withPoints = "C"%char :: tl withPoints /\ ("C"%char ∉ tl withPoints) /\
  withoutPoints = "C"%char :: tl withoutPoints /\ ("C"%char ∉ tl withoutPoints).
Proof.
  repeat split; try reflexivity; rewrite list_elem_of_In; vm_compute; intuition discriminate.
Qed.

(** X4: a title that holds one of the two labels, with no label in what
    stands around it, loses that label wherever it stands, and the white
    space at both ends: what is left of [a ++ label ++ b] is [a ++ b],
    trimmed. *)
Theorem cleanContest_label label a b :
  label = withPoints \/ label = withoutPoints ->
  JS.includes withPoints (a ++ b) = false ->
  JS.includes withoutPoints (a ++ b) = false ->
  cleanContest (a ++ label ++ b) = JS.trim (a ++ b).
Proof.
  intros Hlabel H1 H2. unfold cleanContest. f_equal.
  destruct label_opens as (E1 & N1 & E2 & N2).
  destruct (includes_app_false _ _ _ H1) as [H1a H1b].
  destruct (includes_app_false _ _ _ H2) as [H2a H2b].
  destruct Hlabel as [-> | ->].
  - rewrite E1 in H1a |- *. cbn [app]. rewrite (replace_before _ _ _ _ _ N1 H1a).
    rewrite <- E1 in *.
    change ("C"%char :: tl withPoints ++ b) with (withPoints ++ b).
    rewrite replace_here. now apply replace_absent.
  - assert (JS.includes withPoints (a ++ withoutPoints ++ b) = false) as H3.
    { rewrite E1. rewrite E2 at 1. cbn [app]. rewrite (includes_before _ _ _ _ N1).
      rewrite <- E1, H1a. cbn [orb].
      change ("C"%char :: tl withoutPoints ++ b) with ("C"%char :: (tl withoutPoints ++ b)).
      rewrite includes_cons. rewrite E1 at 2. rewrite (includes_skip _ _ _ _ N2).
      rewrite <- E1, H1b. rewrite orb_false_r. reflexivity. }
    rewrite (replace_absent _ _ _ H3).
    rewrite E2 in H2a |- *. cbn [app]. rewrite (replace_before _ _ _ _ _ N2 H2a).
    rewrite <- E2 in *.
    change ("C"%char :: tl withoutPoints ++ b) with (withoutPoints ++ b).
    now rewrite replace_here.
Qed.

(** The second label in the middle of a title. *)
Lemma cleanContest_label_witness :
  cleanContest (js "Coupe " ++ withoutPoints ++ js " Adultes") = js "Coupe  Adultes".
Proof.
  exact (cleanContest_label withoutPoints (js "Coupe ") (js " Adultes")
           (or_intror eq_refl) eq_refl eq_refl).
Defined.

(** ** The scan keeps every code unit *)

Lemma step_parted pre st c : parted pre st -> parted (pre ++ [c]) (step st c).
Proof.
  intros (Hperm & Hfirst & Hlast & Hprev). unfold step, parted.
  destruct (isUpperCode (Some (JS.charCode c))); cbn [first last prevUpper].
  { repeat split.
    - rewrite app_assoc. now apply Permutation_app_tail.
    - now apply sublist_inserts_r.
    - now apply sublist_app.
    - intros _. now exists (last st), pre, c. }
  destruct (isSeparatorCode (Some (JS.charCode c))).
  { destruct (prevUpper st); cbn [first last prevUpper]; repeat split; try discriminate.
    - rewrite app_assoc. now apply Permutation_app_tail.
    - now apply sublist_inserts_r.
    - now apply sublist_app.
    - rewrite <- Hperm, <- !app_assoc. apply Permutation_app_head, Permutation_app_comm.
    - now apply sublist_app.
    - now apply sublist_inserts_r. }
  destruct (prevUpper st) eqn:Hp; cbn [first last prevUpper]; repeat split; try discriminate.
  - destruct (Hprev eq_refl) as (l & pre' & p & Hl & -> & Hf' & Hl').
    rewrite Hl in *. rewrite removelast_last, last_last.
    rewrite <- Hperm, <- !app_assoc. apply Permutation_app_head.
    apply (Permutation_app_comm [p; c] l).
  - destruct (Hprev eq_refl) as (l & pre' & p & Hl & -> & Hf' & Hl').
    rewrite Hl, last_last, <- app_assoc. now apply sublist_app.
  - destruct (Hprev eq_refl) as (l & pre' & p & Hl & -> & Hf' & Hl').
    rewrite Hl, removelast_last, <- app_assoc. now apply sublist_inserts_r.
  - rewrite <- Hperm, <- !app_assoc. apply Permutation_app_head, Permutation_app_comm.
  - now apply sublist_app.
  - now apply sublist_inserts_r.
Qed.

Lemma fold_step_parted rest : forall pre st,
  parted pre st -> parted (pre ++ rest) (fold_left step rest st).
Proof.
  induction rest as [| c rest IH]; intros pre st H; simpl.
  - now rewrite app_nil_r.
  - specialize (IH (pre ++ [c]) (step st c) (step_parted _ _ _ H)).
    now rewrite <- app_assoc in IH.
Qed.

Lemma Forall_removelast {A} (P : A -> Prop) (l : list A) :
  Forall P l -> Forall P (removelast l).
Proof.
  induction 1 as [| x l Hx Hl IH]; [constructor |].
  simpl. destruct l; [constructor | now constructor].
Qed.

Lemma step_surnameUnits st c :
  Forall (fun u => surnameUnit u = true) (last st) ->
  Forall (fun u => surnameUnit u = true) (last (step st c)).
Proof.
  intros Hlast. unfold step.
  destruct (isUpperCode (Some (JS.charCode c))) eqn:Hup; cbn [last].
  { apply Forall_app. split; [exact Hlast |]. constructor; [| constructor].
    unfold surnameUnit. now rewrite Hup. }
  destruct (isSeparatorCode (Some (JS.charCode c))) eqn:Hsep.
  { destruct (prevUpper st); cbn [last]; [| exact Hlast].
    apply Forall_app. split; [exact Hlast |]. constructor; [| constructor].
    unfold surnameUnit. now rewrite Hsep, orb_true_r. }
  destruct (prevUpper st); cbn [last]; [now apply Forall_removelast | exact Hlast].
Qed.

Lemma scanDancer_surnameUnits dancer :
  Forall (fun u => surnameUnit u = true) (last (scanDancer dancer)).
Proof.
  rewrite scanDancer_fold.
  enough (forall st, Forall (fun u => surnameUnit u = true) (last st) ->
                     Forall (fun u => surnameUnit u = true) (last (fold_left step dancer st)))
    as Hall by (apply Hall; constructor).
  induction dancer as [| c dancer IH]; intros st Hst; [exact Hst |].
  simpl. now apply IH, step_surnameUnits.
Qed.

(** X5: the scan of a dancer loses no code unit and invents none.  The two
    accumulators together hold the code units of the text, each once; each
    accumulator holds its share in the order of the text; and the surname
    accumulator holds capitals and separators only, so that a small letter
    always ends on the forename accumulator. *)
Theorem scanDancer_partition dancer :
  Permutation (first (scanDancer dancer) ++ last (scanDancer dancer)) dancer /\
  sublist (first (scanDancer dancer)) dancer /\
  sublist (last (scanDancer dancer)) dancer /\
  Forall (fun u => surnameUnit u = true) (last (scanDancer dancer)).
Proof.
  split; [| split; [| split; [| apply scanDancer_surnameUnits]]];
    rewrite scanDancer_fold;
    destruct (fold_step_parted dancer [] (mkDancer [] [] false)) as (H1 & H2 & H3 & _);
    try assumption; repeat split; try constructor; discriminate.
Qed.

(** ** Splitting at the break marker *)

Lemma splitFrom_skip sep u : forall t cur,
  JS.splitFrom sep (length u) cur (u ++ t) = JS.splitFrom sep 0 cur t.
Proof.
  induction u as [| x u IH]; intros t cur; [reflexivity |]. exact (IH t cur).
Qed.

Lemma splitFrom_first c p a t : forall cur,
  c ∉ p -> JS.includes (c :: p) a = false ->
  JS.splitFrom (c :: p) 0 cur (a ++ (c :: p) ++ t) =
  (cur ++ a) :: JS.splitFrom (c :: p) 0 [] t.
Proof.
  intros cur Hc. revert cur. induction a as [| x a IH]; intros cur Ha.
  - rewrite app_nil_r. change ([] ++ (c :: p) ++ t) with (c :: (p ++ t)). cbn [JS.splitFrom].
    change (c :: (p ++ t)) with ((c :: p) ++ t). rewrite startsWith_app.
    cbn [length]. rewrite Nat.sub_succ, Nat.sub_0_r. now rewrite splitFrom_skip.
  - rewrite includes_cons in Ha. apply orb_false_iff in Ha as [Hx Ha].
    change ((x :: a) ++ (c :: p) ++ t) with (x :: (a ++ c :: (p ++ t))). cbn [JS.splitFrom].
    change (x :: (a ++ c :: (p ++ t))) with ((x :: a) ++ c :: (p ++ t)).
    rewrite startsWith_before, Hx by exact Hc.
    change (a ++ c :: (p ++ t)) with (a ++ (c :: p) ++ t).
    rewrite IH by exact Ha. now rewrite <- app_assoc.
Qed.

Lemma break_opens : js "<br>" = "<"%char :: js "br>" /\ ("<"%char ∉ js "br>").
Proof. split; [reflexivity |]. rewrite list_elem_of_In. vm_compute. intuition discriminate. Qed.

Lemma split_first a t :
  JS.includes (js "<br>") a = false ->
  JS.split (js "<br>") (a ++ js "<br>" ++ t) = a :: JS.split (js "<br>") t.
Proof.
  intros Ha. destruct break_opens as [E N]. unfold JS.split. rewrite E in *.
  exact (splitFrom_first _ _ a t [] N Ha).
Qed.

Section FirstTwo.
Context {host : Host}.

(** X6: [cleanNames] reads two names and no more.  When the text holds the
    break marker a second time, what stands behind it is dropped: the answer
    is that of the first two pieces alone.  The sentinel phrase is taken not
    to stand in the text. *)
Theorem cleanNames_first_two a b c :
  JS.includes (js "<br>") a = false -> JS.includes (js "<br>") b = false ->
  JS.includes sentinel (JS.toLowerCase (a ++ js "<br>" ++ b ++ js "<br>" ++ c)) = false ->
  cleanNames (Some (a ++ js "<br>" ++ b ++ js "<br>" ++ c)) =
    Return (Str.titleize (cleanDancer a) ++ js " - " ++
            Str.titleize (cleanDancer b)) /\
  cleanNames (Some (a ++ js "<br>" ++ b ++ js "<br>" ++ c)) =
    cleanNames (Some (a ++ js "<br>" ++ b)).
Proof.
  intros Ha Hb Hs.
  assert (JS.includes sentinel (JS.toLowerCase (a ++ js "<br>" ++ b)) = false) as Hs'.
  { replace (a ++ js "<br>" ++ b ++ js "<br>" ++ c)
      with ((a ++ js "<br>" ++ b) ++ js "<br>" ++ c) in Hs by now rewrite <- !app_assoc.
    unfold JS.toLowerCase in Hs. rewrite map_app in Hs.
    exact (proj1 (includes_app_false _ _ _ Hs)). }
  unfold cleanNames. rewrite Hs, Hs'.
  rewrite !split_first by assumption. unfold JS.split.
  rewrite (splitFrom_absent _ [] b Hb). split; reflexivity.
Qed.

End FirstTwo.

(** A third dancer is not part of the answer. *)
Lemma cleanNames_first_two_witness :
  @cleanNames exampleHost (Some (js "DUPONT Jean<br>MARTIN Marie<br>PETIT Anne")) =
  @cleanNames exampleHost (Some (js "DUPONT Jean<br>MARTIN Marie")).
Proof.
  exact (proj2 (@cleanNames_first_two exampleHost
                  (js "DUPONT Jean") (js "MARTIN Marie") (js "PETIT Anne")
                  eq_refl eq_refl eq_refl)).
Defined.

(** ** Surname before or after the forename *)

Lemma scanDancer_forename_first f s :
  Forename f -> Surname s ->
  scanDancer (f ++ js " " ++ map up s) = mkDancer (map up s) (f ++ js " ") true.
Proof.
  intros Hf Hs. rewrite scanDancer_fold, fold_left_app, step_forename by exact Hf.
  simpl. unfold step at 2. simpl. now rewrite step_surname by exact Hs.
Qed.

Lemma shown_noTag f s d : Forename f -> Surname s -> shown f s d -> noTag d.
Proof.
  intros Hf Hs [-> | ->]; [now apply display_noTag |].
  rewrite (toUpperCase_letters s (name_letters _ _ Hs)).
  apply Forall_app. split; [apply letters_noTag, (name_letters _ _ Hf) |].
  constructor; [discriminate |].
  apply letters_noTag, map_up_letters, (name_letters _ _ Hs).
Qed.

Lemma cleanDancer_shown f s d :
  Forename f -> Surname s -> shown f s d ->
  cleanDancer d = plain f ++ js " " ++ plain (map up s).
Proof.
  intros Hf Hs Hd. pose proof (shown_noTag f s d Hf Hs Hd) as Hn.
  destruct Hd as [-> | ->]; [now apply cleanDancer_display |].
  unfold cleanDancer. rewrite (stripTags_noTag _ Hn).
  rewrite (toUpperCase_letters s (name_letters _ _ Hs)).
  rewrite scanDancer_forename_first by assumption.
  simpl first. simpl last. unfold Utils.removeAccents.
  rewrite map_app. change (map Utils.baseLetter [" "%char]) with (js " ").
  rewrite (trim_name_space Utils.baseLetter 1 f firm_baseLetter Hf).
  rewrite (map_map up Utils.baseLetter).
  rewrite (trim_name (fun c => Utils.baseLetter (up c)) 0 s firm_baseLetter_up Hs).
  unfold plain. now rewrite (map_map up Utils.baseLetter).
Qed.

Lemma titleize_shown f s d :
  Forename f -> Surname s -> shown f s d ->
  Str.titleize (cleanDancer d) = plain f ++ js " " ++ plain s.
Proof.
  intros Hf Hs Hd. rewrite (cleanDancer_shown f s d Hf Hs Hd).
  rewrite <- (cleanDancer_display f s Hf Hs). now apply titleize_display.
Qed.

Section EitherOrder.
Context {host : Host}.

(** X7: the surname is known by its capitals, not by its place.  A dancer
    written surname first or forename first, the surname in capitals, is
    answered as forename then surname, the diacritics removed; the two
    dancers of a couple need not be written the same way. *)
Theorem cleanNames_either_order f1 s1 f2 s2 d1 d2 :
  Forename f1 -> Surname s1 -> Forename f2 -> Surname s2 ->
  shown f1 s1 d1 -> shown f2 s2 d2 ->
  JS.includes sentinel (JS.toLowerCase (d1 ++ js "<br>" ++ d2)) = false ->
  cleanNames (Some (d1 ++ js "<br>" ++ d2)) =
  Return ((plain f1 ++ js " " ++ plain s1) ++ js " - " ++ (plain f2 ++ js " " ++ plain s2)).
Proof.
  intros Hf1 Hs1 Hf2 Hs2 Hd1 Hd2 Hsent. unfold cleanNames. rewrite Hsent.
  rewrite (split_break d1 d2 (shown_noTag f1 s1 d1 Hf1 Hs1 Hd1)
             (shown_noTag f2 s2 d2 Hf2 Hs2 Hd2)).
  cbn [map nth_error printed].
  now rewrite (titleize_shown f1 s1 d1), (titleize_shown f2 s2 d2).
Qed.

End EitherOrder.

(** The names of the worked examples are names. *)
Lemma example_names k w :
  (k <= 1)%nat ->
  In w [js "Jean"; js "Dupont"; js "Marie"; js "Martin"; js "Paul"; js "Durand";
        js "Anne"; js "Petit"] ->
  Name k w.
Proof.
  intros Hk Hw. apply name_word.
  repeat (destruct Hw as [<- | Hw];
          [constructor; [reflexivity | repeat constructor | simpl; lia] |]).
  destruct Hw.
Defined.

(** The first dancer forename first, the second surname first. *)
Lemma cleanNames_either_order_witness :
  @cleanNames exampleHost (Some (js "Jean DUPONT<br>MARTIN Marie")) =
  Return (js "Jean Dupont - Marie Martin").
Proof.
  refine (@cleanNames_either_order exampleHost
            (js "Jean") (js "Dupont") (js "Marie") (js "Martin")
            (js "Jean DUPONT") (js "MARTIN Marie") _ _ _ _
            (or_intror eq_refl) (or_introl eq_refl) eq_refl).
  all: apply example_names; simpl; auto 10.
Defined.

(** ** Markup around a name *)

Lemma tagLength_app t rest :
  Forall (fun c => c <> Str.gt) t ->
  Str.tagLength (t ++ Str.gt :: rest) = Some (S (length t)).
Proof.
  induction 1 as [| c t Hc _ IH]; simpl.
  - reflexivity.
  - rewrite bool_decide_eq_false_2 by exact Hc. now rewrite IH.
Qed.

Lemma stripFrom_skip u : forall rest,
  Str.stripFrom (length u) (u ++ rest) = Str.stripFrom 0 rest.
Proof. induction u as [| c u IH]; intros rest; [reflexivity |]. exact (IH rest). Qed.

Lemma stripTags_tag x rest : tag x -> Str.stripTags (x ++ rest) = Str.stripTags rest.
Proof.
  intros (t & -> & Hne & Ht). unfold Str.stripTags.
  cbn [app Str.stripFrom]. rewrite bool_decide_eq_true_2 by reflexivity.
  rewrite <- app_assoc. cbn [app]. rewrite (tagLength_app t rest Ht).
  destruct t as [| c t]; [contradiction |]. cbn [length].
  replace (S (S (length t))) with (length ((c :: t) ++ [Str.gt]))
    by (rewrite length_app; simpl; lia).
  replace ((c :: t) ++ Str.gt :: rest) with (((c :: t) ++ [Str.gt]) ++ rest)
    by now rewrite <- app_assoc.
  apply stripFrom_skip.
Qed.

Lemma stripTags_app d rest : noTag d -> Str.stripTags (d ++ rest) = d ++ Str.stripTags rest.
Proof.
  unfold Str.stripTags. induction 1 as [| c d Hc _ IH]; [reflexivity |].
  cbn [app Str.stripFrom]. rewrite bool_decide_eq_false_2 by exact Hc. now rewrite IH.
Qed.

Lemma cleanDancer_markup o d c :
  tag o -> tag c -> noTag d -> cleanDancer (o ++ d ++ c) = cleanDancer d.
Proof.
  intros Ho Hc Hd. unfold cleanDancer.
  rewrite (stripTags_tag o _ Ho), (stripTags_app d c Hd).
  rewrite <- (app_nil_r c), (stripTags_tag c [] Hc). change (Str.stripTags []) with (@nil ascii).
  now rewrite app_nil_r, (stripTags_noTag d Hd).
Qed.

Section Markup.
Context {host : Host}.

(** X8: markup around the names is not part of them.  Each dancer standing
    between an opening and a closing tag, neither of them the break marker,
    the answer is that of the bare names. *)
Theorem cleanNames_markup o1 d1 c1 o2 d2 c2 :
  tag o1 -> tag c1 -> tag o2 -> tag c2 -> noTag d1 -> noTag d2 ->
  JS.includes (js "<br>") (o1 ++ d1 ++ c1) = false ->
  JS.includes (js "<br>") (o2 ++ d2 ++ c2) = false ->
  JS.includes sentinel
    (JS.toLowerCase ((o1 ++ d1 ++ c1) ++ js "<br>" ++ (o2 ++ d2 ++ c2))) = false ->
  cleanNames (Some ((o1 ++ d1 ++ c1) ++ js "<br>" ++ (o2 ++ d2 ++ c2))) =
  Return (Str.titleize (cleanDancer d1) ++ js " - " ++
          Str.titleize (cleanDancer d2)).
Proof.
  intros Ho1 Hc1 Ho2 Hc2 Hd1 Hd2 H1 H2 Hsent. unfold cleanNames. rewrite Hsent.
  rewrite (split_first _ _ H1).
  assert (JS.split (js "<br>") (o2 ++ d2 ++ c2) = [o2 ++ d2 ++ c2]) as ->
    by exact (splitFrom_absent _ [] _ H2).
  cbn [map nth_error printed]. now rewrite !cleanDancer_markup.
Qed.

End Markup.

(** Both dancers in markup of their own. *)
Lemma cleanNames_markup_witness :
  @cleanNames exampleHost (Some (js "<b>DUPONT Jean</b><br><i>MARTIN Marie</i>")) =
  Return (js "Jean Dupont - Marie Martin").
Proof.
  refine (@cleanNames_markup exampleHost (js "<b>") (js "DUPONT Jean") (js "</b>")
            (js "<i>") (js "MARTIN Marie") (js "</i>") _ _ _ _ _ _ eq_refl eq_refl eq_refl).
  - exists (js "b"). repeat split; [discriminate | repeat constructor; discriminate].
  - exists (js "/b"). repeat split; [discriminate | repeat constructor; discriminate].
  - exists (js "i"). repeat split; [discriminate | repeat constructor; discriminate].
  - exists (js "/i"). repeat split; [discriminate | repeat constructor; discriminate].
  - repeat constructor; discriminate.
  - repeat constructor; discriminate.
Defined.

(** ** Couples tables *)

Section Couples.
Context `{Host}.

Lemma cleanNames_string s : exists n, cleanNames (Some s) = Return n.
Proof.
  unfold cleanNames. destruct (JS.includes sentinel (JS.toLowerCase s)); eauto.
Qed.

Lemma extractNames_rows body :
  extractNames body = Return (map cleanCell (coupleCells (replaceUnallowed body))).
Proof.
  unfold extractNames. induction (coupleCells (replaceUnallowed body)) as [| cell cells IH];
    [reflexivity |].
  cbn [map]. unfold cleanCell at 1.
  destruct (cleanNames_string (JS.replace (js " / ") (js "<br>") (JS.trim cell))) as [n Hn].
  rewrite Hn, IH. reflexivity.
Qed.

Lemma cellName_rows cells : Forall2 cellName cells (map cleanCell cells).
Proof.
  induction cells as [| cell cells IH]; constructor; [| exact IH].
  unfold cellName, cleanCell.
  now destruct (cleanNames_string (JS.replace (js " / ") (js "<br>") (JS.trim cell))) as [n ->].
Qed.

End Couples.

(** ** Couples tables: the slash and the padding *)

Lemma trimStart_blank pad t : blank pad -> JS.trimStart (pad ++ t) = JS.trimStart t.
Proof. induction 1 as [| c pad Hc _ IH]; [reflexivity |]. simpl. now rewrite Hc. Qed.

Lemma trimEnd_blank t pad : blank pad -> JS.trimEnd (t ++ pad) = JS.trimEnd t.
Proof.
  intros Hpad. unfold JS.trimEnd. rewrite rev_app_distr, trimStart_blank; [reflexivity |].
  unfold blank in *. rewrite Forall_forall in *. intros c Hc. apply Hpad.
  apply list_elem_of_In. apply list_elem_of_In in Hc. now apply in_rev.
Qed.

Lemma trim_padded pad1 pad2 c m z :
  blank pad1 -> blank pad2 -> JS.isWhiteSpace c = false -> JS.isWhiteSpace z = false ->
  JS.trim (pad1 ++ (c :: m ++ [z]) ++ pad2) = c :: m ++ [z].
Proof.
  intros H1 H2 Hc Hz. unfold JS.trim. rewrite trimStart_blank by exact H1.
  cbn [app JS.trimStart]. rewrite Hc.
  change (c :: (m ++ [z]) ++ pad2) with ((c :: m ++ [z]) ++ pad2).
  rewrite trimEnd_blank by exact H2.
  change (c :: m ++ [z]) with ((c :: m) ++ [z]). now apply trimEnd_firm.
Qed.

Lemma letter_plain c :
  isLetter c = true -> c <> "/"%char /\ up c <> "/"%char.
Proof.
  destruct c as [[] [] [] [] [] [] [] []]; vm_compute; intros Hc; try discriminate Hc;
    split; discriminate.
Qed.

Lemma letter_firm c :
  isCapital c = true \/ isSmall c = true ->
  JS.isWhiteSpace c = false /\ JS.isWhiteSpace (up c) = false.
Proof. intros [H | H]; revert H; every_char c. Qed.

Lemma shown_no_slash f s d :
  Forename f -> Surname s -> shown f s d -> Forall (fun c => c <> "/"%char) d.
Proof.
  intros Hf Hs Hd.
  assert (forall k n, Name k n -> Forall (fun c => c <> "/"%char) n) as Hn.
  { intros k n Hk. eapply Forall_impl; [exact (name_letters _ _ Hk) |].
    intros c Hc. now apply letter_plain. }
  assert (forall k n, Name k n -> Forall (fun c => c <> "/"%char) (map up n)) as Hu.
  { intros k n Hk. apply Forall_map. eapply Forall_impl; [exact (name_letters _ _ Hk) |].
    intros c Hc. now apply letter_plain. }
  destruct Hd as [-> | ->]; unfold display;
    rewrite (toUpperCase_letters s (name_letters _ _ Hs)); rewrite !Forall_app;
    repeat split; eauto; repeat constructor; discriminate.
Qed.

Lemma shown_ends f s d :
  Forename f -> Surname s -> shown f s d ->
  exists c m z, d = c :: m ++ [z] /\ JS.isWhiteSpace c = false /\ JS.isWhiteSpace z = false.
Proof.
  intros Hf Hs Hd.
  destruct (name_head _ _ Hf) as (cf & mf & Ef & Hcf).
  destruct (name_head _ _ Hs) as (cs & ms & Es & Hcs).
  destruct (name_last _ _ Hf) as (mf' & zf & Ef' & Hzf).
  destruct (name_last _ _ Hs) as (ms' & zs & Es' & Hzs).
  destruct Hd as [-> | ->]; unfold display;
    rewrite (toUpperCase_letters s (name_letters _ _ Hs)).
  - exists (up cs), (map up ms ++ js " " ++ mf'), zf. repeat split.
    + rewrite Es at 1. rewrite Ef'. cbn [map app]. now rewrite <- !app_assoc.
    + apply letter_firm. now left.
    + now apply letter_firm.
  - exists cf, (mf ++ js " " ++ map up ms'), (up zs). repeat split.
    + rewrite Ef at 1. rewrite Es'. rewrite map_app. cbn [map app]. now rewrite <- !app_assoc.
    + apply letter_firm. now left.
    + now apply letter_firm.
Qed.

Lemma replace_slash a r b :
  Forall (fun c => c <> "/"%char) a ->
  JS.replace (js " / ") r (a ++ js " / " ++ b) = a ++ r ++ b.
Proof.
  induction 1 as [| x a Hx Ha IH]; [reflexivity |].
  change ((x :: a) ++ js " / " ++ b) with (x :: (a ++ js " / " ++ b)). cbn [JS.replace].
  assert (JS.startsWith (js " / ") (x :: a ++ js " / " ++ b) = false) as ->.
  { cbn [js list_ascii_of_string JS.startsWith]. destruct Ha as [| y a Hy _].
    - cbn [app JS.startsWith]. now rewrite andb_false_r.
    - cbn [app JS.startsWith]. rewrite (bool_decide_eq_false_2 ("/"%char = y)) by congruence.
      now rewrite andb_false_r. }
  cbn [app]. f_equal. exact IH.
Qed.

Section CouplesCells.
Context `{Host}.

Lemma cleanCell_couple cell pad1 pad2 f1 s1 f2 s2 d1 d2 :
  cell = pad1 ++ (d1 ++ js " / " ++ d2) ++ pad2 -> blank pad1 -> blank pad2 ->
  Forename f1 -> Surname s1 -> Forename f2 -> Surname s2 ->
  shown f1 s1 d1 -> shown f2 s2 d2 ->
  JS.includes sentinel (JS.toLowerCase (d1 ++ js "<br>" ++ d2)) = false ->
  cleanCell cell =
  (plain f1 ++ js " " ++ plain s1) ++ js " - " ++ (plain f2 ++ js " " ++ plain s2).
Proof.
  intros -> Hp1 Hp2 Hf1 Hs1 Hf2 Hs2 Hd1 Hd2 Hsent. unfold cleanCell.
  destruct (shown_ends f1 s1 d1 Hf1 Hs1 Hd1) as (c & m & z & E1 & Hc & _).
  destruct (shown_ends f2 s2 d2 Hf2 Hs2 Hd2) as (c' & m' & z' & E2 & _ & Hz).
  assert (d1 ++ js " / " ++ d2 = c :: (m ++ [z] ++ js " / " ++ c' :: m') ++ [z']) as E.
  { rewrite E1, E2. cbn [app]. now rewrite <- !app_assoc. }
  rewrite E, (trim_padded pad1 pad2 c _ z' Hp1 Hp2 Hc Hz), <- E.
  rewrite (replace_slash d1 (js "<br>") d2 (shown_no_slash f1 s1 d1 Hf1 Hs1 Hd1)).
  unfold cleanNames. rewrite Hsent.
  rewrite (split_break d1 d2 (shown_noTag f1 s1 d1 Hf1 Hs1 Hd1)
             (shown_noTag f2 s2 d2 Hf2 Hs2 Hd2)).
  cbn [map nth_error printed].
  now rewrite (titleize_shown f1 s1 d1), (titleize_shown f2 s2 d2).
Qed.

(** X10: a row whose first cell shows a couple as two dancers on both sides
    of a slash, white space around the cell or not, gives the couple as
    forename then surname for each, joined by a dash. *)
Theorem extractNames_couple body before cell after pad1 pad2 f1 s1 f2 s2 d1 d2 :
  coupleCells (replaceUnallowed body) = before ++ cell :: after ->
  cell = pad1 ++ (d1 ++ js " / " ++ d2) ++ pad2 -> blank pad1 -> blank pad2 ->
  Forename f1 -> Surname s1 -> Forename f2 -> Surname s2 ->
  shown f1 s1 d1 -> shown f2 s2 d2 ->
  JS.includes sentinel (JS.toLowerCase (d1 ++ js "<br>" ++ d2)) = false ->
  exists names,
    extractNames body = Return names /\
    length names = length (before ++ cell :: after) /\
    names !! length before =
    Some ((plain f1 ++ js " " ++ plain s1) ++ js " - " ++ (plain f2 ++ js " " ++ plain s2)).
Proof.
  intros Hcells Hcell Hp1 Hp2 Hf1 Hs1 Hf2 Hs2 Hd1 Hd2 Hsent.
  exists (map cleanCell (before ++ cell :: after)). rewrite <- Hcells.
  split; [apply extractNames_rows |]. split; [apply length_map |].
  rewrite Hcells, map_app. cbn [map].
  rewrite (cleanCell_couple cell pad1 pad2 f1 s1 f2 s2 d1 d2) by assumption.
  rewrite lookup_app_r by (rewrite length_map; lia).
  now rewrite length_map, Nat.sub_diag.
Qed.

End CouplesCells.

(** The first row of the example table, with white space around its cell. *)
Lemma extractNames_couple_witness :
  exists names,
    @extractNames siteHost (js "couples") = Return names /\
    length names = 2%nat /\
    names !! 0%nat = Some (js "Jean Dupont - Marie Martin").
Proof.
  refine (@extractNames_couple siteHost (js "couples") []
            (js " DUPONT Jean / MARTIN Marie ") [js "Paul DURAND / Anne PETIT"]
            (js " ") (js " ") (js "Jean") (js "Dupont") (js "Marie") (js "Martin")
            (js "DUPONT Jean") (js "MARTIN Marie") eq_refl eq_refl _ _ _ _ _ _
            (or_introl eq_refl) (or_introl eq_refl) eq_refl).
  1-2: repeat constructor.
  all: apply example_names; simpl; auto 10.
Defined.

(** ** The link of a listing row *)

Lemma numManif_eq s :
  Re.numManif s =
  if JS.startsWith (js "NumManif=") s && negb (length (skipn 9 s) =? 0)%nat &&
     forallb Re.isDigit (skipn 9 s)
  then Some (skipn 9 s)
  else match s with
       | _ :: s' => Re.numManif s'
       | [] => None
       end.
Proof. destruct s; reflexivity. Qed.

Lemma numManif_sound s d :
  Re.numManif s = Some d ->
  exists pre, s = pre ++ js "NumManif=" ++ d /\ d <> [] /\ forallb Re.isDigit d = true.
Proof.
  induction s as [| c s IH]; rewrite numManif_eq;
    destruct (JS.startsWith (js "NumManif=") _ && _ && _) eqn:E; try discriminate.
  - intros Hd.
    apply andb_true_iff in E as [E Hdigits]. apply andb_true_iff in E as [Hstart Hlen].
    apply startsWith_spec in Hstart as [t Ht]. rewrite Ht in Hd, Hlen, Hdigits |- *.
    change (skipn 9 (js "NumManif=" ++ t)) with t in Hd, Hlen, Hdigits.
    injection Hd as <-. exists []. split; [reflexivity |]. split; [| exact Hdigits].
    intros ->. discriminate Hlen.
  - intros Hd. destruct (IH Hd) as (pre & -> & Hne & Hdigits).
    exists (c :: pre). now repeat split.
Qed.

Lemma skipn_marker a x d : In "="%char (skipn 9 ((x :: a) ++ js "NumManif=" ++ d)).
Proof.
  replace ((x :: a) ++ js "NumManif=" ++ d)
    with (((x :: a) ++ js "NumManif") ++ "="%char :: d) by now rewrite <- app_assoc.
  rewrite skipn_app. apply in_or_app. right.
  replace (9 - length ((x :: a) ++ js "NumManif"))%nat with 0%nat
    by (rewrite length_app; simpl; lia).
  now left.
Qed.

Lemma numManif_complete pre d :
  d <> [] -> forallb Re.isDigit d = true ->
  Re.numManif (pre ++ js "NumManif=" ++ d) = Some d.
Proof.
  intros Hne Hdigits. induction pre as [| x pre IH]; rewrite numManif_eq.
  - cbn [app]. rewrite startsWith_app.
    change (skipn 9 (js "NumManif=" ++ d)) with d. rewrite Hdigits.
    destruct d; [contradiction | reflexivity].
  - assert (forallb Re.isDigit (skipn 9 ((x :: pre) ++ js "NumManif=" ++ d)) = false) as ->.
    { destruct (forallb Re.isDigit (skipn 9 ((x :: pre) ++ js "NumManif=" ++ d))) eqn:E;
        [| reflexivity].
      rewrite forallb_forall in E. specialize (E _ (skipn_marker pre x d)). discriminate E. }
    rewrite andb_false_r. exact IH.
Qed.

Lemma numManif_ends s d l c :
  Re.numManif s = Some d -> s = l ++ [c] -> Re.isDigit c = true.
Proof.
  intros Hd Hs. destruct (numManif_sound s d Hd) as (pre & E & Hne & Hdigits).
  destruct (exists_last Hne) as (d' & z & ->).
  rewrite forallb_app in Hdigits. apply andb_true_iff in Hdigits as [_ Hz].
  simpl in Hz. rewrite andb_true_r in Hz.
  rewrite E, !app_assoc in Hs. apply app_inj_tail in Hs as [_ <-]. exact Hz.
Qed.

Section Headers.
Context `{Host}.

(** The season, the provider and the contests of an extracted row. *)
Lemma extractHeader_season line options year c :
  extractHeader line options year = Some c ->
  inSeason year (day c) /\ provider c = js "ffds" /\ contests c = [].
Proof.
  unfold extractHeader. destruct (href line) as [[| a link] |]; try discriminate.
  destruct (Re.numManif (a :: link)); [| discriminate].
  destruct (momentParse (dateCell line) (optDateFormat options)) as [d |];
    cbn [withinSeason negb]; [| discriminate].
  destruct (isWithinSeason year d) eqn:Hin; [| discriminate].
  intros E. injection E as <-. cbn [day provider contests newCompetition].
  split; [now apply isWithinSeason_inSeason | now split].
Qed.

(** X11: what [extractHeader] returns of a listing row is a competition of
    the season asked for, of provider [ffds] and without contests yet; its
    place is trimmed, its id is made of its place and its day, and its one
    detail link is built from the digits that end the link of the row,
    behind [NumManif=]. *)
Theorem extractHeader_in_season line options year c :
  extractHeader line options year = Some c ->
  inSeason year (day c) /\ provider c = js "ffds" /\ contests c = [] /\
  JS.trim (place c) = place c /\
  id c = md5 (slugify (place c) ++ formatDay (day c)) /\
  momentParse (dateCell line) (optDateFormat options) = Some (day c) /\
  exists pre manif,
    href line = Some (pre ++ js "NumManif=" ++ manif) /\
    manif <> [] /\ forallb Re.isDigit manif = true /\
    dataUrls c = [sprintf (optUrl options ++ js "/" ++ optDetails options) (Some manif)].
Proof.
  unfold extractHeader. destruct (href line) as [[| a link] |]; try discriminate.
  destruct (Re.numManif (a :: link)) as [manif |] eqn:Hm; [| discriminate].
  destruct (momentParse (dateCell line) (optDateFormat options)) as [d |];
    cbn [withinSeason negb]; [| discriminate].
  destruct (isWithinSeason year d) eqn:Hin; [| discriminate].
  intros E. injection E as <-. cbn [day provider contests place id dataUrls newCompetition].
  repeat split; try reflexivity.
  - now apply isWithinSeason_inSeason.
  - now apply isWithinSeason_inSeason.
  - apply trim_idem.
  - destruct (numManif_sound _ _ Hm) as (pre & E & Hne & Hdigits).
    exists pre, manif. rewrite E. now repeat split.
Qed.

(** X12: the id of the detail page is read at the end of the link.  Whatever
    stands before the last [NumManif=], another [NumManif=] included, a link
    that ends with [NumManif=] and digits gives a competition whose detail
    link carries exactly those digits, when the date of the row lies in the
    season. *)
Theorem extractHeader_reads_id line options year pre manif d :
  href line = Some (pre ++ js "NumManif=" ++ manif) ->
  manif <> [] -> forallb Re.isDigit manif = true ->
  momentParse (dateCell line) (optDateFormat options) = Some d ->
  inSeason year d ->
  exists c,
    extractHeader line options year = Some c /\ day c = d /\
    dataUrls c = [sprintf (optUrl options ++ js "/" ++ optDetails options) (Some manif)].
Proof.
  intros Hhref Hne Hdigits Hdate Hin. unfold extractHeader. rewrite Hhref, Hdate.
  rewrite (numManif_complete pre manif Hne Hdigits).
  cbn [withinSeason]. apply isWithinSeason_inSeason in Hin. rewrite Hin. cbn [negb].
  destruct (pre ++ js "NumManif=" ++ manif) eqn:E.
  - destruct pre; discriminate E.
  - eexists. split; [reflexivity |]. split; reflexivity.
Qed.

(** X13: the rows that give no competition.  A row without a link, with an
    empty link, with a link that does not end with a digit, with a date that
    cannot be read or with a date outside the season is skipped. *)
Theorem extractHeader_skips line options year :
  href line = None \/ href line = Some [] \/
  (exists l c, href line = Some (l ++ [c]) /\ Re.isDigit c = false) \/
  momentParse (dateCell line) (optDateFormat options) = None \/
  (exists d, momentParse (dateCell line) (optDateFormat options) = Some d /\
             ~ inSeason year d) ->
  extractHeader line options year = None.
Proof.
  unfold extractHeader. intros [E | [E | [(l & c & E & Hc) | [E | (d & E & Hout)]]]].
  - now rewrite E.
  - now rewrite E.
  - rewrite E. destruct (l ++ [c]) as [| a link] eqn:El; [reflexivity |].
    destruct (Re.numManif (a :: link)) as [manif |] eqn:Hm; [| reflexivity].
    rewrite (numManif_ends _ _ l c Hm (eq_sym El)) in Hc. discriminate Hc.
  - rewrite E. destruct (href line) as [[| a link] |]; try reflexivity.
    now destruct (Re.numManif (a :: link)).
  - rewrite E. destruct (href line) as [[| a link] |]; try reflexivity.
    destruct (Re.numManif (a :: link)); [| reflexivity]. cbn [withinSeason].
    destruct (isWithinSeason year d) eqn:Hin; [| reflexivity].
    apply isWithinSeason_inSeason in Hin. contradiction.
Qed.

End Headers.

(** The first row of the example listing. *)
Lemma extractHeader_in_season_witness :
  inSeason 2023 (mkMoment 2023 8 30) /\
  @provider exampleHost (exampleCompetition (js "101")) = js "ffds".
Proof.
  destruct (@extractHeader_in_season exampleHost
              (mkLine (Some (js "Competition_Resultats.php?NumManif=101"))
                      (js " PARIS (75) ") (js "30/09/2023"))
              exampleOptions 2023 (exampleCompetition (js "101")) eq_refl)
    as (Hin & Hprovider & _).
  split; [exact Hin | exact Hprovider].
Defined.

(** A link with two ids: the one at the end counts. *)
Lemma extractHeader_reads_id_witness :
  exists c,
    @extractHeader exampleHost
      (mkLine (Some (js "list.php?NumManif=12&NumManif=101")) (js "Paris") (js "30/09/2023"))
      exampleOptions 2023 = Some c /\
    day c = mkMoment 2023 8 30 /\
    dataUrls c = [js "http://ffds.example/details.php?NumManif=101"].
Proof.
  refine (@extractHeader_reads_id exampleHost
            (mkLine (Some (js "list.php?NumManif=12&NumManif=101")) (js "Paris") (js "30/09/2023"))
            exampleOptions 2023 (js "list.php?NumManif=12&") (js "101") (mkMoment 2023 8 30)
            eq_refl _ eq_refl eq_refl _).
  - discriminate.
  - unfold inSeason, date_le; simpl; lia.
Defined.

(** A link with something behind the id. *)
Lemma extractHeader_skips_witness :
  @extractHeader exampleHost
    (mkLine (Some (js "Competition_Resultats.php?NumManif=101&tab=x")) (js "Paris")
            (js "30/09/2023"))
    exampleOptions 2023 = None.
Proof.
  apply (@extractHeader_skips exampleHost). right. right. left.
  exists (js "Competition_Resultats.php?NumManif=101&tab="), "x"%char. split; reflexivity.
Defined.

(** ** Title case, two code units at a time *)

Section TitleCase.
Implicit Types (s t x y : jsstring) (b : bool) (c d : ascii).

Lemma capitalize_eq b s :
  Str.capitalize b s =
  match s with
  | [] => []
  | c :: s' =>
      if b && negb (JS.isWhiteSpace c) then JS.toUpperChar c ++ Str.capitalize false s'
      else if Str.isBreak c then
        match s' with
        | d :: s'' =>
            if negb (JS.isWhiteSpace d)
            then c :: JS.toUpperChar d ++ Str.capitalize false s''
            else c :: Str.capitalize false s'
        | [] => [c]
        end
      else c :: Str.capitalize false s'
  end.
Proof. destruct s; reflexivity. Qed.

(** The scan moves by one code unit or by two: what holds of the text behind
    either holds of the whole. *)
Lemma capitalize_ind (P : bool -> jsstring -> Prop) :
  (forall b, P b []) ->
  (forall b c s, P false s -> (forall d s', s = d :: s' -> P false s') -> P b (c :: s)) ->
  forall b s, P b s.
Proof.
  intros Hnil Hcons b s.
  enough (forall n b s, (length s <= n)%nat -> P b s) as Hall by (apply (Hall (length s)); lia).
  clear b s. induction n as [| n IH]; intros b s Hlen.
  - destruct s; [apply Hnil | simpl in Hlen; lia].
  - destruct s as [| c s]; [apply Hnil |]. simpl in Hlen. apply Hcons.
    + apply IH. lia.
    + intros d s' ->. apply IH. simpl in Hlen. lia.
Qed.

Lemma break_white c : Str.isBreak c = false -> JS.isWhiteSpace c = false.
Proof. unfold Str.isBreak. intros H. now apply orb_false_iff in H as [H _]. Qed.

Lemma white_break c : JS.isWhiteSpace c = true -> Str.isBreak c = true.
Proof. unfold Str.isBreak. now intros ->. Qed.

(** A code unit that is no break and has no capital of its own cuts the
    text in two for [capitalize]. *)
Lemma capitalize_app_mark c y :
  JS.toUpperChar c = [c] -> Str.isBreak c = false ->
  forall b x, Str.capitalize b (x ++ c :: y) = Str.capitalize b x ++ c :: Str.capitalize false y.
Proof.
  intros Hup Hbreak. pose proof (break_white c Hbreak) as Hws.
  apply (capitalize_ind (fun b x => Str.capitalize b (x ++ c :: y) =
                                    Str.capitalize b x ++ c :: Str.capitalize false y)).
  - intros b. rewrite capitalize_eq. cbn [app]. rewrite Hws, Hbreak, Hup.
    now destruct b.
  - intros b e x IH1 IH2.
    rewrite (capitalize_eq b ((e :: x) ++ c :: y)), (capitalize_eq b (e :: x)). cbn [app].
    destruct (b && negb (JS.isWhiteSpace e)); [now rewrite IH1, app_assoc |].
    destruct (Str.isBreak e); [| now rewrite IH1].
    destruct x as [| d x]; cbn [app].
    + now rewrite Hws, Hup.
    + destruct (negb (JS.isWhiteSpace d)).
      * rewrite (IH2 d x eq_refl). cbn [app]. now rewrite <- app_assoc.
      * cbn [app] in IH1. now rewrite IH1.
Qed.

Lemma capitalize_blank t : blank t -> forall b, Str.capitalize b t = t.
Proof.
  induction 1 as [| c t Hc Ht IH]; intros b; [reflexivity |].
  rewrite capitalize_eq, Hc, (white_break c Hc), andb_false_r. cbn [negb].
  destruct Ht as [| d t Hd Ht]; [reflexivity |].
  rewrite Hd. cbn [negb]. now rewrite IH.
Qed.

(** White space at the end stays where it is. *)
Lemma capitalize_app_blank t :
  blank t -> forall b x, Str.capitalize b (x ++ t) = Str.capitalize b x ++ t.
Proof.
  intros Ht.
  apply (capitalize_ind (fun b x => Str.capitalize b (x ++ t) = Str.capitalize b x ++ t)).
  - intros b. now apply capitalize_blank.
  - intros b e x IH1 IH2.
    rewrite (capitalize_eq b ((e :: x) ++ t)), (capitalize_eq b (e :: x)). cbn [app].
    destruct (b && negb (JS.isWhiteSpace e)); [now rewrite IH1, app_assoc |].
    destruct (Str.isBreak e); [| now rewrite IH1].
    destruct x as [| d x]; cbn [app].
    + destruct Ht as [| d t Hd Ht]; [reflexivity |].
      rewrite Hd. cbn [negb]. f_equal. apply capitalize_blank. now constructor.
    + destruct (negb (JS.isWhiteSpace d)).
      * rewrite (IH2 d x eq_refl). cbn [app]. now rewrite <- app_assoc.
      * cbn [app] in IH1. now rewrite IH1.
Qed.

Lemma capitalize_firm s :
  Forall (fun c => Str.isBreak c = false) s -> Str.capitalize false s = s.
Proof.
  induction 1 as [| c s Hc _ IH]; [reflexivity |].
  rewrite capitalize_inside by exact Hc. now rewrite IH.
Qed.

Lemma toUpperChar_paren c :
  c <> "("%char -> Forall (fun u => u <> "("%char) (JS.toUpperChar c).
Proof.
  destruct c as [[] [] [] [] [] [] [] []]; intros Hc; vm_compute;
    try (exfalso; apply Hc; reflexivity); repeat constructor; discriminate.
Qed.

Lemma toLowerChar_paren c : c <> "("%char -> JS.toLowerChar c <> "("%char.
Proof.
  destruct c as [[] [] [] [] [] [] [] []]; intros Hc; vm_compute;
    try (exfalso; apply Hc; reflexivity); discriminate.
Qed.

Lemma capitalize_paren b s :
  Forall (fun c => c <> "("%char) s -> Forall (fun c => c <> "("%char) (Str.capitalize b s).
Proof.
  revert b s.
  apply (capitalize_ind (fun b s => Forall (fun c => c <> "("%char) s ->
                                    Forall (fun c => c <> "("%char) (Str.capitalize b s))).
  - intros b _. constructor.
  - intros b c s IH1 IH2 Hall. inversion Hall as [| ? ? Hc Hs]; subst.
    rewrite capitalize_eq.
    destruct (b && negb (JS.isWhiteSpace c)).
    { apply Forall_app. split; [now apply toUpperChar_paren | now apply IH1]. }
    destruct (Str.isBreak c); [| constructor; [exact Hc | now apply IH1]].
    destruct s as [| d s]; [now repeat constructor |].
    inversion Hs as [| ? ? Hd Hs']; subst.
    destruct (negb (JS.isWhiteSpace d)).
    + constructor; [exact Hc |]. apply Forall_app.
      split; [now apply toUpperChar_paren | now apply (IH2 d s)].
    + constructor; [exact Hc | now apply IH1].
Qed.

End TitleCase.

(** ** The word in parentheses behind a place *)

Section Department.
Implicit Types (s t p w pad : jsstring) (c : ascii).

Lemma removeRegion_eq s :
  Re.removeRegion s =
  match Re.regionLength s with
  | Some n => skipn n s
  | None => match s with
            | c :: s' => c :: Re.removeRegion s'
            | [] => []
            end
  end.
Proof. destruct s; reflexivity. Qed.

Lemma removeRegion_before s t :
  Forall (fun c => c <> "("%char) s -> Re.removeRegion (s ++ t) = s ++ Re.removeRegion t.
Proof.
  induction 1 as [| c s Hc _ IH]; [reflexivity |].
  cbn [app]. rewrite removeRegion_eq. unfold Re.regionLength.
  rewrite bool_decide_eq_false_2 by exact Hc. now rewrite IH.
Qed.

Lemma removeRegion_none s :
  Forall (fun c => c <> "("%char) s -> Re.removeRegion s = s.
Proof.
  intros Hs. rewrite <- (app_nil_r s) at 1. rewrite removeRegion_before by exact Hs.
  now rewrite app_nil_r.
Qed.

Lemma spanLength_app (f : ascii -> bool) s t :
  Forall (fun c => f c = true) s ->
  Re.spanLength f (s ++ t) = (length s + Re.spanLength f t)%nat.
Proof. induction 1 as [| c s Hc _ IH]; [reflexivity |]. simpl. now rewrite Hc, IH. Qed.

Lemma word_not_white c : Re.isWord c = true -> JS.isWhiteSpace c = false.
Proof. every_char c. Qed.

Lemma removeRegion_word w :
  w <> [] -> Forall (fun c => Re.isWord c = true) w ->
  Re.removeRegion ("("%char :: w ++ [")"%char]) = [].
Proof.
  intros Hne Hw. rewrite removeRegion_eq.
  assert (Re.regionLength ("("%char :: w ++ [")"%char]) = Some (length w + 2)%nat) as ->.
  { unfold Re.regionLength. rewrite bool_decide_eq_true_2 by reflexivity.
    destruct w as [| c w]; [contradiction |].
    inversion Hw as [| ? ? Hc Hw']; subst.
    assert (Re.spanLength JS.isWhiteSpace ((c :: w) ++ [")"%char]) = 0%nat) as ->
      by (simpl; now rewrite (word_not_white c Hc)).
    change (skipn 0 ((c :: w) ++ [")"%char])) with ((c :: w) ++ [")"%char]).
    rewrite (spanLength_app Re.isWord (c :: w) [")"%char] Hw).
    change (Re.spanLength Re.isWord [")"%char]) with 0%nat. rewrite Nat.add_0_r.
    rewrite skipn_app, skipn_all, Nat.sub_diag. cbn [app skipn Re.spanLength length].
    change (JS.isWhiteSpace ")"%char) with false. cbn iota.
    change (skipn 0 [")"%char]) with [")"%char]. cbn iota.
    rewrite bool_decide_eq_true_2 by reflexivity. f_equal. lia. }
  apply skipn_all2. simpl. rewrite length_app. simpl. lia.
Qed.

Lemma trimStart_mark p c t :
  JS.isWhiteSpace c = false -> JS.trimStart (p ++ c :: t) = JS.trimStart p ++ c :: t.
Proof.
  intros Hc. induction p as [| d p IH]; simpl; [now rewrite Hc |].
  now destruct (JS.isWhiteSpace d).
Qed.

Lemma trimStart_split s : exists pad, blank pad /\ s = pad ++ JS.trimStart s.
Proof.
  induction s as [| c s (pad & Hpad & IH)]; [exists []; split; [constructor | reflexivity] |].
  simpl. destruct (JS.isWhiteSpace c) eqn:Hc.
  - exists (c :: pad). split; [now constructor |]. simpl. now f_equal.
  - exists []. split; [constructor | reflexivity].
Qed.

Lemma blank_rev pad : blank pad -> blank (rev pad).
Proof.
  unfold blank. rewrite !Forall_forall. intros Hpad c Hc. apply Hpad.
  apply list_elem_of_In. apply list_elem_of_In in Hc. now apply in_rev.
Qed.

Lemma trimEnd_split s : exists pad, blank pad /\ s = JS.trimEnd s ++ pad.
Proof.
  destruct (trimStart_split (rev s)) as (pad & Hpad & E).
  exists (rev pad). split; [now apply blank_rev |].
  unfold JS.trimEnd. rewrite <- rev_app_distr, <- E. now rewrite rev_involutive.
Qed.

Lemma trimStart_app_blank s pad :
  blank pad -> exists pad', blank pad' /\ JS.trimStart (s ++ pad) = JS.trimStart s ++ pad'.
Proof.
  intros Hpad. induction s as [| c s IH]; simpl.
  - exists []. split; [constructor |].
    rewrite <- (app_nil_r pad). rewrite trimStart_blank by exact Hpad. reflexivity.
  - destruct (JS.isWhiteSpace c); [exact IH |]. now exists pad.
Qed.

Lemma trim_app_blank s pad : blank pad -> JS.trim (s ++ pad) = JS.trim s.
Proof.
  intros Hpad. unfold JS.trim.
  destruct (trimStart_app_blank s pad Hpad) as (pad' & Hpad' & ->).
  now apply trimEnd_blank.
Qed.

Lemma toLowerCase_blank pad : blank pad -> JS.toLowerCase pad = pad.
Proof.
  induction 1 as [| c pad Hc _ IH]; [reflexivity |].
  unfold JS.toLowerCase in *. simpl. rewrite IH. f_equal. revert Hc. every_char c.
Qed.

Lemma toLowerCase_paren s :
  Forall (fun c => c <> "("%char) s -> Forall (fun c => c <> "("%char) (JS.toLowerCase s).
Proof.
  intros Hs. unfold JS.toLowerCase. apply Forall_map.
  eapply Forall_impl; [exact Hs |]. intros c. apply toLowerChar_paren.
Qed.

Lemma toLowerCase_word w :
  Forall (fun c => Re.isWord c = true) w ->
  Forall (fun c => Re.isWord c = true) (JS.toLowerCase w) /\
  Forall (fun c => Str.isBreak c = false) (JS.toLowerCase w).
Proof.
  intros Hw. unfold JS.toLowerCase.
  split; apply Forall_map; (eapply Forall_impl; [exact Hw |]); intros c; every_char c.
Qed.

Lemma trimStart_keeps (P : ascii -> Prop) s : Forall P s -> Forall P (JS.trimStart s).
Proof.
  induction 1 as [| c s Hc Hs IH]; [constructor |]. simpl.
  destruct (JS.isWhiteSpace c); [exact IH | now constructor].
Qed.

(** What is made of the cell before the region is looked for. *)
Lemma titleize_department p w :
  Forall (fun c => Re.isWord c = true) w ->
  Str.titleize (JS.toLowerCase (JS.trim (p ++ "("%char :: w ++ [")"%char]))) =
  Str.titleize (JS.toLowerCase (JS.trimStart p)) ++
  "("%char :: JS.toLowerCase (JS.toLowerCase w) ++ [")"%char].
Proof.
  intros Hw. unfold JS.trim. rewrite trimStart_mark by reflexivity.
  replace (JS.trimStart p ++ "("%char :: w ++ [")"%char])
    with ((JS.trimStart p ++ "("%char :: w) ++ [")"%char]) by now rewrite <- app_assoc.
  rewrite trimEnd_firm by reflexivity. rewrite <- app_assoc. cbn [app].
  unfold Str.titleize.
  assert (forall a, JS.toLowerCase (JS.toLowerCase (a ++ "("%char :: w ++ [")"%char])) =
                    JS.toLowerCase (JS.toLowerCase a) ++
                    "("%char :: JS.toLowerCase (JS.toLowerCase w) ++ [")"%char]) as ->.
  { intros a. unfold JS.toLowerCase. rewrite !map_app. cbn [map]. rewrite !map_app. reflexivity. }
  rewrite capitalize_app_mark by reflexivity. do 2 f_equal.
  apply capitalize_firm.
  destruct (toLowerCase_word w Hw) as [Hw1 _].
  destruct (toLowerCase_word _ Hw1) as [_ Hw2].
  apply Forall_app. split; [exact Hw2 | now repeat constructor].
Qed.

Lemma placeOf_department p w :
  Forall (fun c => c <> "("%char) p -> w <> [] -> Forall (fun c => Re.isWord c = true) w ->
  placeOf (p ++ "("%char :: w ++ [")"%char]) = placeOf p.
Proof.
  intros Hp Hne Hw. unfold placeOf. rewrite titleize_department by exact Hw.
  destruct (toLowerCase_word w Hw) as [Hw1 _].
  destruct (toLowerCase_word _ Hw1) as [Hw2 _].
  assert (forall a, Forall (fun c => c <> "("%char) a ->
                    Forall (fun c => c <> "("%char)
                           (Str.titleize (JS.toLowerCase a))) as Hcap.
  { intros a Ha. unfold Str.titleize.
    now apply capitalize_paren, toLowerCase_paren, toLowerCase_paren. }
  pose proof (trimStart_keeps _ p Hp) as Hq.
  rewrite removeRegion_before by (apply Hcap, Hq).
  rewrite removeRegion_word;
    [| intros E; apply Hne; destruct w; [reflexivity | discriminate E] | exact Hw2].
  rewrite app_nil_r.
  destruct (trimEnd_split (JS.trimStart p)) as (pad & Hpad & E).
  fold (JS.trim p) in E.
  assert (Forall (fun c => c <> "("%char) (JS.trim p)) as Hr.
  { rewrite E in Hq. now apply Forall_app in Hq as [Hq _]. }
  rewrite (removeRegion_none _ (Hcap _ Hr)).
  rewrite E. unfold Str.titleize, JS.toLowerCase. rewrite !map_app.
  fold (JS.toLowerCase pad). rewrite (toLowerCase_blank pad Hpad).
  fold (JS.toLowerCase pad). rewrite (toLowerCase_blank pad Hpad).
  rewrite capitalize_app_blank by exact Hpad.
  now apply trim_app_blank.
Qed.

End Department.

Section HeadersPlace.
Context `{Host}.

Lemma extractHeader_placeOf line options year :
  extractHeader line options year =
  match href line with
  | None | Some [] => None
  | Some link =>
      match Re.numManif link, momentParse (dateCell line) (optDateFormat options) with
      | Some manif, Some d =>
          if isWithinSeason year d
          then Some (newCompetition (placeOf (placeCell line)) d
                       (sprintf (optUrl options ++ js "/" ++ optDetails options) (Some manif))
                       (js "ffds")
                       (md5 (slugify (placeOf (placeCell line)) ++ formatDay d)))
          else None
      | _, _ => None
      end
  end.
Proof.
  unfold extractHeader, placeOf. destruct (href line) as [[| a link] |]; try reflexivity.
  destruct (Re.numManif (a :: link)); [| reflexivity].
  destruct (momentParse (dateCell line) (optDateFormat options)) as [d |]; [| reflexivity].
  cbn [withinSeason]. now destruct (isWithinSeason year d).
Qed.

(** X14: a word in parentheses behind the place, such as the number of a
    department, is not part of the place: the row gives what the row without
    it gives, the same competition under the same id. *)
Theorem extractHeader_department line options year p w :
  placeCell line = p ++ js "(" ++ w ++ js ")" ->
  Forall (fun c => c <> "("%char) p -> w <> [] -> Forall (fun c => Re.isWord c = true) w ->
  extractHeader line options year =
  extractHeader (mkLine (href line) p (dateCell line)) options year.
Proof.
  intros Hcell Hp Hne Hw. rewrite !extractHeader_placeOf. cbn [href placeCell dateCell].
  rewrite Hcell. change (p ++ js "(" ++ w ++ js ")") with (p ++ "("%char :: w ++ [")"%char]).
  now rewrite placeOf_department.
Qed.

End HeadersPlace.

(** Paris, with and without its department. *)
Lemma extractHeader_department_witness :
  @extractHeader exampleHost
    (mkLine (Some (js "Competition_Resultats.php?NumManif=101")) (js " PARIS (75)")
            (js "30/09/2023"))
    exampleOptions 2023 =
  @extractHeader exampleHost
    (mkLine (Some (js "Competition_Resultats.php?NumManif=101")) (js " PARIS ")
            (js "30/09/2023"))
    exampleOptions 2023.
Proof.
  refine (@extractHeader_department exampleHost
            (mkLine (Some (js "Competition_Resultats.php?NumManif=101")) (js " PARIS (75)")
                    (js "30/09/2023"))
            exampleOptions 2023 (js " PARIS ") (js "75") eq_refl _ _ _).
  - repeat constructor; discriminate.
  - discriminate.
  - repeat constructor.
Defined.

(** ** Ranking pages: rows without names, and the names recorded *)

Section RankingRows.
Context `{Host}.

Lemma eachRow_missing title i row after : forall before (results : gmap jsstring num),
  Forall (fun r => is_Some (cleaned r)) before -> namesCell row = None ->
  eachRow title i (before ++ row :: after) results =
  Throw (RankingParseError title (i * 2) TypeError).
Proof.
  induction before as [| r before IH]; intros results Hok Hrow.
  - cbn [app eachRow]. now rewrite Hrow.
  - inversion Hok as [| ? ? [m Hm] Hrest]; subst. cbn [app eachRow].
    unfold cleaned in Hm. destruct (cleanNames (namesCell r)); [| discriminate].
    now apply IH.
Qed.

Lemma eachHeat_missing title rowsBefore row rowsAfter heatsAfter :
  forall heatsBefore i (results : gmap jsstring num),
  Forall (fun r => is_Some (cleaned r)) (concat heatsBefore ++ rowsBefore) ->
  namesCell row = None ->
  eachHeat title i (heatsBefore ++ (rowsBefore ++ row :: rowsAfter) :: heatsAfter) results =
  Throw (RankingParseError title ((i + Z.of_nat (length heatsBefore)) * 2) TypeError).
Proof.
  induction heatsBefore as [| heat heatsBefore IH]; intros i results Hok Hrow.
  - cbn [app eachHeat concat] in *. rewrite (eachRow_missing _ _ _ _ _ _ Hok Hrow).
    cbn [bind length Z.of_nat]. now rewrite Z.add_0_r.
  - cbn [concat] in Hok. rewrite <- app_assoc in Hok. apply Forall_app in Hok as [Hheat Hrest].
    cbn [app eachHeat].
    destruct (eachRow_firstSeen title i heat results Hheat) as (res1 & -> & _).
    cbn [bind]. rewrite (IH (i + 1) res1 Hrest Hrow). do 2 f_equal.
    cbn [length]. lia.
Qed.

(** X15: a ranking page with a row that has no names cell is refused.  The
    request is sent; the rows are read in order up to the first one without
    the cell; the promise is rejected with a parse failure that names the
    cleaned title of the page and twice the index of the heat of that row,
    and no ranking is returned. *)
Theorem extractRanking_missing_cell url s bodyRaw heatsBefore rowsBefore row rowsAfter heatsAfter :
  respond s url = Return bodyRaw ->
  portlets (repaired bodyRaw) =
    heatsBefore ++ (rowsBefore ++ row :: rowsAfter) :: heatsAfter ->
  Forall (fun r => is_Some (cleaned r)) (concat heatsBefore ++ rowsBefore) ->
  namesCell row = None ->
  extractRanking url s =
  (Throw (RankingParseError (cleanContest (heading (repaired bodyRaw)))
            (2 * Z.of_nat (length heatsBefore)) TypeError),
   withSent s (sent s ++ [url])).
Proof.
  intros Hbody Hheats Hok Hrow.
  unfold extractRanking, andThen, request, settle. rewrite Hbody.
  unfold ranking. fold (repaired bodyRaw). rewrite Hheats.
  rewrite (eachHeat_missing _ _ _ _ _ _ _ _ Hok Hrow). cbn [bind].
  do 3 f_equal. lia.
Qed.

Lemma firstRank_is_Some n rows :
  is_Some (firstRank n rows) <-> exists row, row ∈ rows /\ cleaned row = Some n.
Proof.
  induction rows as [| r rows IH]; simpl.
  - split; [intros [v Hv]; discriminate Hv |]. intros (row & Hin & _).
    now apply elem_of_nil in Hin.
  - destruct (decide (cleaned r = Some n)) as [Hr | Hr].
    + split; [| eauto]. intros _. exists r. split; [now left | exact Hr].
    + rewrite IH. split; intros (row & Hin & Hrow).
      * exists row. split; [now right | exact Hrow].
      * apply elem_of_cons in Hin as [-> | Hin]; [contradiction |]. now exists row.
Qed.

(** X16: on a ranking page whose rows all have a names cell, the results
    hold exactly the couples of the page: a name has a rank if and only if
    some row of some heat carries it. *)
Theorem extractRanking_couples url s bodyRaw :
  respond s url = Return bodyRaw ->
  Forall (fun r => is_Some (cleaned r)) (visited bodyRaw) ->
  exists res,
    extractRanking url s =
      (Return (mkContest (cleanContest (heading (repaired bodyRaw))) res),
       withSent s (sent s ++ [url])) /\
    forall n, is_Some (res !! n) <->
              exists row, row ∈ visited bodyRaw /\ cleaned row = Some n.
Proof.
  intros Hbody Hok. destruct (ranking_firstSeen bodyRaw Hok) as (res & Hrun & Hfirst).
  exists res. split.
  - unfold extractRanking, andThen, request, settle. now rewrite Hbody, Hrun.
  - intros n. rewrite (Hfirst n). apply firstRank_is_Some.
Qed.

End RankingRows.

(** The torn page of the example site: the second heat lacks a names cell. *)
Lemma extractRanking_missing_cell_witness :
  @extractRanking siteHost (js "http://ffds.example/torn") siteState =
  (Throw (RankingParseError (js "Latines") 2 TypeError),
   withSent siteState [js "http://ffds.example/torn"]).
Proof.
  refine (@extractRanking_missing_cell siteHost (js "http://ffds.example/torn") siteState
            (js "ranking torn")
            [[mkRow (Some (js "DUPONT Jean<br>MARTIN Marie")) (js "1")]]
            [mkRow (Some (js "DURAND Paul<br>PETIT Anne")) (js "2")]
            (mkRow None (js "3")) [] [] eq_refl eq_refl _ eq_refl).
  repeat constructor; eexists; vm_compute; reflexivity.
Defined.

(** The example page. *)
Lemma extractRanking_couples_witness :
  exists res,
    @extractRanking exampleHost (js "http://ffds.example/ranking") exampleState =
      (Return (@mkContest exampleHost (js "Latines") res),
       withSent exampleState [js "http://ffds.example/ranking"]) /\
    is_Some (res !! js "Jean Dupont - Marie Martin").
Proof.
  destruct (@extractRanking_couples exampleHost (js "http://ffds.example/ranking")
              exampleState (js "<html>") eq_refl) as (res & Hrun & Hnames).
  - repeat constructor; eexists; vm_compute; reflexivity.
  - exists res. split; [exact Hrun |]. apply Hnames.
    exists (mkRow (Some (js "DUPONT Jean<br>MARTIN Marie")) (js "1")).
    split; [now left | vm_compute; reflexivity].
Defined.

(** ** The listing of a season *)

Section Listing.
Context `{Host}.

Lemma headers_single (lines : list Line) options year :
  Forall (fun c => NoDup (dataUrls c))
         (compact (map (fun line => extractHeader line options year) lines)).
Proof.
  rewrite Forall_forall. intros c Hc. apply elem_of_compact in Hc.
  apply list_elem_of_In, in_map_iff in Hc as (line & Hline & _).
  destruct (extractHeader_shape _ _ _ _ Hline) as (_ & u & ->).
  apply NoDup_singleton.
Qed.

(** X17: when the site answers, [listResults] resolves, having sent its one
    request, with competitions that all lie in the season asked for, carry
    the provider [ffds] and no contest yet, and of which no two share an
    id. *)
Theorem listResults_in_season year s body :
  respond s (listUrl s year) = Return body ->
  exists cs,
    listResults year s = (Return cs, withSent s (sent s ++ [listUrl s year])) /\
    NoDup (map id cs) /\
    Forall (fun c => inSeason year (day c) /\ provider c = js "ffds" /\ contests c = []) cs.
Proof.
  intros Hbody. eexists. split; [| split].
  - unfold listResults, orCatch, andThen, request, resolve. rewrite Hbody. reflexivity.
  - rewrite mergeCompetitions_ids by apply headers_single. apply NoDup_uniq.
  - rewrite Forall_forall. intros c Hc.
    destruct (mergeCompetitions_member _ c (headers_single _ _ _) Hc)
      as (first & rest & Hm & ->).
    assert (first ∈ members (id (withDataUrls first
              (uniq (concat (map dataUrls (first :: rest))))))
              (map (fun line => extractHeader line (opts s) year)
                   (listingRows (replaceUnallowed body)))) as Hf by (rewrite Hm; now left).
    apply elem_of_members in Hf as [Hf _].
    apply list_elem_of_In, in_map_iff in Hf as (line & Hline & _).
    destruct (extractHeader_season _ _ _ _ Hline) as (H1 & H2 & H3).
    unfold withDataUrls. cbn [day provider contests].
    split; [exact H1 | split; [exact H2 | exact H3]].
Qed.

(** X18: when the site fails, [listResults] rejects with that failure under
    the context of the listing and the name of the provider, having sent its
    one request. *)
Theorem listResults_failure year s e :
  respond s (listUrl s year) = Throw e ->
  listResults year s =
  (Throw (RequestError (js "failed to fetch results from " ++ optName (opts s)) e),
   withSent s (sent s ++ [listUrl s year])).
Proof.
  intros Hfail. unfold listResults, orCatch, andThen, request. now rewrite Hfail.
Qed.

End Listing.

(** The example listing, in season 2023. *)
Lemma listResults_in_season_witness :
  exists cs,
    @listResults exampleHost 2023 exampleState =
      (Return cs, withSent exampleState [js "http://ffds.example/list.php"]) /\
    NoDup (map id cs) /\
    Forall (fun c => inSeason 2023 (day c) /\ provider c = js "ffds" /\ contests c = []) cs.
Proof.
  exact (@listResults_in_season exampleHost 2023 exampleState (js "<html>") eq_refl).
Defined.

(** The site out of reach. *)
Lemma listResults_failure_witness :
  @listResults exampleHost 2023 siteDown =
  (Throw (RequestError (js "failed to fetch results from FFDS")
            (NetworkError (js "ECONNREFUSED"))),
   withSent siteDown [js "http://ffds.example/list.php"]).
Proof.
  exact (@listResults_failure exampleHost 2023 siteDown (NetworkError (js "ECONNREFUSED")) eq_refl).
Defined.

(** ** Details of a competition: the ranking pages *)

Section DetailsContests.
Context `{Host}.

Lemma runSerially_asks {A} (f : jsstring -> Promise State A) h s urls results :
  asks f h ->
  Forall2 (fun u r => h (respond s u) = Return r) urls results ->
  forall s', respond s' = respond s ->
    Utils.runSerially (map f urls) s' = (Return results, withSent s' (sent s' ++ urls)).
Proof.
  intros Hf. induction 1 as [| u r urls results Hu _ IH]; intros s' Hs'.
  - cbn [map Utils.runSerially]. unfold resolve. rewrite app_nil_r. now destruct s'.
  - cbn [map]. rewrite runSerially_cons, Hf, Hs', Hu.
    rewrite (IH (withSent s' (sent s' ++ [u])) Hs').
    cbn [sent withSent]. now rewrite <- app_assoc.
Qed.

Lemma runSerially_asks_stops {A} (f : jsstring -> Promise State A) h s before url after done e :
  asks f h ->
  Forall2 (fun u r => h (respond s u) = Return r) before done ->
  h (respond s url) = Throw e ->
  forall s', respond s' = respond s ->
    Utils.runSerially (map f (before ++ url :: after)) s' =
    (Throw e, withSent s' (sent s' ++ before ++ [url])).
Proof.
  intros Hf Hbefore Hfail. induction Hbefore as [| u r before done Hu _ IH]; intros s' Hs'.
  - cbn [app map]. now rewrite runSerially_cons, Hf, Hs', Hfail.
  - cbn [app map]. rewrite runSerially_cons, Hf, Hs', Hu.
    rewrite (IH (withSent s' (sent s' ++ [u])) Hs').
    cbn [sent withSent]. now rewrite <- app_assoc.
Qed.

(** What a detail page and a ranking page make of the answer of the site. *)
Lemma getDetails_tasks competition s :
  getDetails competition s =
  (rawUrls <- Utils.runSerially
     (map (fun url =>
             orCatch (body <- request url ;; resolve (contestLinks s body))
               (Utils.handleRequestError
                  (js "failed to fetch contests from " ++ optName (opts s) ++ js " " ++
                   place competition)))
          (dataUrls competition)) ;;
   contests <- Utils.runSerially
     (map (fun url =>
             orCatch (extractRanking url)
               (Utils.handleRequestError
                  (js "failed to fetch contest ranking from " ++ optName (opts s) ++ js " " ++
                   place competition)))
          (uniq (concat rawUrls))) ;;
   resolve (withContests competition contests)) s.
Proof.
  unfold getDetails, contestLinks, andThen.
  destruct (Utils.runSerially _ s) as [[rawUrls | e] s1]; [| reflexivity].
  destruct (uniq (concat rawUrls)); reflexivity.
Qed.

Lemma detail_asks (s : State) context :
  asks (fun url => orCatch (body <- request url ;; resolve (contestLinks s body))
                     (Utils.handleRequestError context))
       (fun o => match o with
                 | Return body => Return (contestLinks s body)
                 | Throw e => Throw (RequestError context e)
                 end).
Proof.
  intros url s'. unfold orCatch, andThen, request, resolve, Utils.handleRequestError, reject.
  now destruct (respond s' url).
Qed.

Lemma ranking_asks context :
  asks (fun url => orCatch (extractRanking url) (Utils.handleRequestError context))
       (fun o => match o with
                 | Return body => match ranking body with
                                  | Return contest => Return contest
                                  | Throw e => Throw (RequestError context e)
                                  end
                 | Throw e => Throw (RequestError context e)
                 end).
Proof.
  intros url s'.
  unfold orCatch, extractRanking, andThen, request, settle, Utils.handleRequestError, reject.
  destruct (respond s' url) as [body | e]; [| reflexivity]. now destruct (ranking body).
Qed.

Lemma details_fetched competition s bodies s' :
  Forall2 (fun u b => respond s u = Return b) (dataUrls competition) bodies ->
  respond s' = respond s ->
  Utils.runSerially
    (map (fun url =>
            orCatch (body <- request url ;; resolve (contestLinks s body))
              (Utils.handleRequestError
                 (js "failed to fetch contests from " ++ optName (opts s) ++ js " " ++
                  place competition)))
         (dataUrls competition)) s' =
  (Return (map (contestLinks s) bodies), withSent s' (sent s' ++ dataUrls competition)).
Proof.
  intros Hbodies Hs'.
  apply (runSerially_asks _ _ s _ _ (detail_asks s _)); [| exact Hs'].
  induction Hbodies as [| u b urls bodies Hu _ IH]; constructor; [now rewrite Hu | exact IH].
Qed.

(** X19: when every page answers and every ranking page can be read,
    [getDetails] requests the detail pages in the order of the competition's
    links, then each ranking page they link to once, in the order in which
    the links are first met, and resolves with the competition and the
    rankings in that order. *)
Theorem getDetails_contests competition s bodies rankings :
  Forall2 (fun u b => respond s u = Return b) (dataUrls competition) bodies ->
  Forall2 (fun u k => exists b, respond s u = Return b /\ ranking b = Return k)
          (uniq (concat (map (contestLinks s) bodies))) rankings ->
  getDetails competition s =
  (Return (withContests competition rankings),
   withSent s (sent s ++ dataUrls competition ++ uniq (concat (map (contestLinks s) bodies)))).
Proof.
  intros Hbodies Hrankings. rewrite getDetails_tasks. unfold andThen at 1.
  rewrite (details_fetched competition s bodies s Hbodies eq_refl).
  unfold andThen.
  erewrite (runSerially_asks _ _ s _ rankings (ranking_asks _)); [| | reflexivity].
  - unfold resolve. cbn [sent withSent]. now rewrite <- app_assoc.
  - eapply Forall2_impl; [exact Hrankings |]. now intros u k (b & -> & ->).
Qed.

(** X20: when a ranking page is the first that cannot be fetched or read,
    the ranking pages behind it are not requested and [getDetails] rejects
    with that failure, under the context of the ranking requests. *)
Theorem getDetails_ranking_stops competition s bodies before url after done e :
  Forall2 (fun u b => respond s u = Return b) (dataUrls competition) bodies ->
  uniq (concat (map (contestLinks s) bodies)) = before ++ url :: after ->
  Forall2 (fun u k => exists b, respond s u = Return b /\ ranking b = Return k) before done ->
  respond s url = Throw e \/ (exists b, respond s url = Return b /\ ranking b = Throw e) ->
  getDetails competition s =
  (Throw (RequestError (js "failed to fetch contest ranking from " ++ optName (opts s) ++
                        js " " ++ place competition) e),
   withSent s (sent s ++ dataUrls competition ++ before ++ [url])).
Proof.
  intros Hbodies Hurls Hdone Hfail. rewrite getDetails_tasks. unfold andThen at 1.
  rewrite (details_fetched competition s bodies s Hbodies eq_refl).
  unfold andThen. rewrite Hurls.
  erewrite (runSerially_asks_stops _ _ s before url after done _ (ranking_asks _));
    [| | | reflexivity].
  - cbn [sent withSent]. now rewrite <- app_assoc.
  - eapply Forall2_impl; [exact Hdone |]. now intros u k (b & -> & ->).
  - destruct Hfail as [-> | (b & -> & ->)]; reflexivity.
Qed.

End DetailsContests.

(** The ranking page of the example site can be read. *)
Lemma site_ranking :
  exists contest, @ranking siteHost (js "ranking") = Return contest.
Proof.
  destruct (@ranking_firstSeen siteHost (js "ranking")) as (res & Hrun & _).
  - repeat constructor; eexists; vm_compute; reflexivity.
  - eexists. exact Hrun.
Defined.

(** Two detail pages that link to three ranking pages, one of them twice. *)
Lemma getDetails_contests_witness :
  exists contest,
    @getDetails siteHost
      (siteCompetition [js "http://ffds.example/details.php?NumManif=101";
                        js "http://ffds.example/details.php?NumManif=102"]) siteState =
    (Return (withContests
               (siteCompetition [js "http://ffds.example/details.php?NumManif=101";
                                 js "http://ffds.example/details.php?NumManif=102"])
               [contest; contest; contest]),
     withSent siteState
       [js "http://ffds.example/details.php?NumManif=101";
        js "http://ffds.example/details.php?NumManif=102";
        js "http://ffds.example/r1"; js "http://ffds.example/r2"; js "http://ffds.example/r3"]).
Proof.
  destruct site_ranking as (contest & Hcontest). exists contest.
  refine (@getDetails_contests siteHost
            (siteCompetition [js "http://ffds.example/details.php?NumManif=101";
                              js "http://ffds.example/details.php?NumManif=102"])
            siteState [js "detail 101"; js "detail 102"] [contest; contest; contest] _ _).
  - repeat constructor.
  - change (Forall2 (fun u k => exists b, respond siteState u = Return b /\
                                          @ranking siteHost b = Return k)
              [js "http://ffds.example/r1"; js "http://ffds.example/r2";
               js "http://ffds.example/r3"] [contest; contest; contest]).
    repeat constructor; exists (js "ranking"); (split; [reflexivity | exact Hcontest]).
Defined.

(** The second of three ranking pages is torn. *)
Lemma getDetails_ranking_stops_witness :
  @getDetails siteHost
    (siteCompetition [js "http://ffds.example/details.php?NumManif=103"]) siteState =
  (Throw (RequestError (js "failed to fetch contest ranking from FFDS Paris")
            (RankingParseError (js "Latines") 2 TypeError)),
   withSent siteState
     [js "http://ffds.example/details.php?NumManif=103";
      js "http://ffds.example/r1"; js "http://ffds.example/torn"]).
Proof.
  destruct site_ranking as (contest & Hcontest).
  refine (@getDetails_ranking_stops siteHost
            (siteCompetition [js "http://ffds.example/details.php?NumManif=103"]) siteState
            [js "detail 103"] [js "http://ffds.example/r1"] (js "http://ffds.example/torn")
            [js "http://ffds.example/r3"] [contest]
            (RankingParseError (js "Latines") 2 TypeError) _ eq_refl _ _).
  - repeat constructor.
  - repeat constructor. exists (js "ranking"). split; [reflexivity | exact Hcontest].
  - right. exists (js "ranking torn"). split; [reflexivity | vm_compute; reflexivity].
Defined.

(** ** Groups *)

Section Groups.
Context `{Host}.

Lemma searchGroups_cached q s cs :
  clubs s = Some cs -> searchGroups q s = (Return (searchClubs (searchKey q) cs), s).
Proof. intros Hc. unfold searchGroups. now rewrite Hc. Qed.

Lemma searchGroups_fetched q s body :
  clubs s = None -> respond s (clubsUrl s) = Return body ->
  searchGroups q s =
  (Return (searchClubs (searchKey q) (parsedClubs body)),
   withClubs (withSent s (sent s ++ [clubsUrl s])) (parsedClubs body)).
Proof.
  intros Hc Hbody. unfold searchGroups. rewrite Hc.
  unfold orCatch, andThen, request. fold (clubsUrl s). now rewrite Hbody.
Qed.

Lemma searchGroups_failed q s e :
  clubs s = None -> respond s (clubsUrl s) = Throw e ->
  searchGroups q s =
  (Throw (RequestError (js "failed to fetch group list from " ++ optName (opts s)) e),
   withSent s (sent s ++ [clubsUrl s])).
Proof.
  intros Hc Hfail. unfold searchGroups. rewrite Hc.
  unfold orCatch, andThen, request. fold (clubsUrl s). now rewrite Hfail.
Qed.

(** X21: the club list is fetched once.  On a provider without cache, a
    search sends one request, for the club page, keeps the clubs read off it
    and answers from them; the next search, whatever is searched, sends
    nothing, leaves the provider as it is and answers from the same
    clubs. *)
Theorem searchGroups_once q1 q2 s body :
  clubs s = None -> respond s (clubsUrl s) = Return body ->
  searchGroups q1 s =
    (Return (searchClubs (searchKey q1) (parsedClubs body)),
     withClubs (withSent s (sent s ++ [clubsUrl s])) (parsedClubs body)) /\
  searchGroups q2 (snd (searchGroups q1 s)) =
    (Return (searchClubs (searchKey q2) (parsedClubs body)), snd (searchGroups q1 s)).
Proof.
  intros Hc Hbody. rewrite (searchGroups_fetched q1 s body Hc Hbody).
  split; [reflexivity |]. now apply searchGroups_cached.
Qed.

(** X22: a failure is not kept.  When the club page cannot be fetched the
    search rejects with that failure under the context of the group list,
    and the next search asks for the page again. *)
Theorem searchGroups_retries q1 q2 s e :
  clubs s = None -> respond s (clubsUrl s) = Throw e ->
  searchGroups q1 s =
    (Throw (RequestError (js "failed to fetch group list from " ++ optName (opts s)) e),
     withSent s (sent s ++ [clubsUrl s])) /\
  searchGroups q2 (snd (searchGroups q1 s)) =
    (Throw (RequestError (js "failed to fetch group list from " ++ optName (opts s)) e),
     withSent s (sent s ++ [clubsUrl s; clubsUrl s])).
Proof.
  intros Hc Hfail. rewrite (searchGroups_failed q1 s e Hc Hfail).
  split; [reflexivity |]. cbn [snd].
  rewrite (searchGroups_failed q2 _ e); [| exact Hc | exact Hfail].
  cbn [sent withSent opts]. now rewrite <- app_assoc.
Qed.

Lemma includes_nil s : JS.includes [] s = true.
Proof. now destruct s. Qed.

Lemma trim_blank pad : blank pad -> JS.trim pad = [].
Proof.
  intros Hpad. unfold JS.trim. rewrite <- (app_nil_r pad).
  now rewrite trimStart_blank by exact Hpad.
Qed.

Lemma searchClubs_all cs : searchClubs [] cs = map clubName cs.
Proof.
  unfold searchClubs. f_equal. induction cs as [| c cs IH]; [reflexivity |].
  cbn [List.filter]. now rewrite includes_nil, IH.
Qed.

(** X23: a search for nothing lists every club: with the clubs in cache, a
    searched text of white space only, or none at all, is answered with the
    names of all the clubs, in the order of the page. *)
Theorem searchGroups_blank pad s cs :
  clubs s = Some cs -> blank pad ->
  searchGroups (Some pad) s = (Return (map clubName cs), s) /\
  searchGroups None s = (Return (map clubName cs), s).
Proof.
  intros Hc Hpad. rewrite !(searchGroups_cached _ s cs Hc). unfold searchKey.
  rewrite (trim_blank pad Hpad). change (JS.trim []) with (@nil ascii).
  change (JS.toLowerCase []) with (@nil ascii). now rewrite searchClubs_all.
Qed.

(** X29: the search is by fragment and blind to letter case.  With the clubs
    in cache, the names returned are exactly the names of the clubs that
    hold, once in lower case, the searched text trimmed and in lower case;
    nothing is sent. *)
Theorem searchGroups_finds q s cs :
  clubs s = Some cs ->
  exists names,
    searchGroups q s = (Return names, s) /\
    forall n, n ∈ names <->
              exists club a b,
                club ∈ cs /\ clubName club = n /\ JS.toLowerCase n = a ++ searchKey q ++ b.
Proof.
  intros Hc. exists (searchClubs (searchKey q) cs).
  split; [now apply searchGroups_cached |].
  intros n. unfold searchClubs. rewrite list_elem_of_In, in_map_iff. split.
  - intros (club & <- & Hin). apply filter_In in Hin as [Hin Hkey].
    apply includes_spec in Hkey as (a & b & Hab).
    exists club, a, b. split; [now apply list_elem_of_In | now split].
  - intros (club & a & b & Hin & <- & Hab). exists club. split; [reflexivity |].
    apply filter_In. split; [now apply list_elem_of_In |].
    apply includes_spec. now exists a, b.
Qed.

(** The search of [getGroupCouples] over the cached clubs. *)
Lemma getGroupCouples_cached c g s cs :
  clubs s = Some cs ->
  getGroupCouples (Some (c :: g)) s =
  match List.find (fun club => bool_decide (JS.toLowerCase (clubName club) =
                                            JS.toLowerCase (JS.trim (c :: g)))) cs with
  | None => (Throw (GroupNotFound (c :: g)), s)
  | Some club =>
      (match respond s (couplesUrl s club) with
       | Return page => Return (map cleanCell (coupleCells (replaceUnallowed page)))
       | Throw e =>
           Throw (RequestError (js "failed to fetch couples of group " ++ (c :: g) ++
                                js " from " ++ optName (opts s)) e)
       end,
       withSent s (sent s ++ [couplesUrl s club]))
  end.
Proof.
  intros Hc. unfold getGroupCouples. cbn [validateGroup]. rewrite Hc.
  destruct (List.find _ cs) as [club |]; [| reflexivity].
  unfold orCatch, andThen, request, settle. fold (couplesUrl s club).
  destruct (respond s (couplesUrl s club)) as [page | e]; [| reflexivity].
  now rewrite extractNames_rows.
Qed.

Lemma getGroupCouples_uncached c g s :
  clubs s = None ->
  getGroupCouples (Some (c :: g)) s =
  match searchGroups (Some []) s with
  | (Return _, s1) => getGroupCouples (Some (c :: g)) s1
  | (Throw e, s1) => (Throw e, s1)
  end.
Proof.
  intros Hc. unfold getGroupCouples at 1. cbn [validateGroup]. rewrite Hc.
  unfold andThen. destruct (searchGroups (Some []) s) as [[names | e] s1] eqn:E; [| reflexivity].
  unfold getGroupCouples. cbn [validateGroup].
  assert (exists cs, clubs s1 = Some cs) as [cs Hcs].
  { unfold searchGroups in E. rewrite Hc in E. unfold orCatch, andThen, request in E.
    destruct (respond s _); [| discriminate E]. injection E as _ <-. eauto. }
  now rewrite Hcs.
Qed.

Lemma find_absent (f : Club -> bool) cs :
  Forall (fun club => f club = false) cs -> List.find f cs = None.
Proof. induction 1 as [| c cs Hc _ IH]; [reflexivity |]. simpl. now rewrite Hc. Qed.

(** X24: a group that is the name of no club, up to letter case and the white
    space around it, is refused as not found, and the page of its couples is
    not asked for: with the clubs in cache nothing is sent; without, the club
    page is requested and its clubs are kept. *)
Theorem getGroupCouples_unknown_group g s :
  g <> [] ->
  (forall cs,
     clubs s = Some cs ->
     Forall (fun club => JS.toLowerCase (clubName club) <> JS.toLowerCase (JS.trim g)) cs ->
     getGroupCouples (Some g) s = (Throw (GroupNotFound g), s)) /\
  (forall body,
     clubs s = None -> respond s (clubsUrl s) = Return body ->
     Forall (fun club => JS.toLowerCase (clubName club) <> JS.toLowerCase (JS.trim g))
            (parsedClubs body) ->
     getGroupCouples (Some g) s =
     (Throw (GroupNotFound g),
      withClubs (withSent s (sent s ++ [clubsUrl s])) (parsedClubs body))).
Proof.
  intros Hg. destruct g as [| c g]; [contradiction |].
  assert (forall s' cs, clubs s' = Some cs ->
            Forall (fun club => JS.toLowerCase (clubName club) <>
                                JS.toLowerCase (JS.trim (c :: g))) cs ->
            getGroupCouples (Some (c :: g)) s' = (Throw (GroupNotFound (c :: g)), s')) as Hcached.
  { intros s' cs Hc Hnone. rewrite (getGroupCouples_cached c g s' cs Hc).
    rewrite find_absent; [reflexivity |].
    eapply Forall_impl; [exact Hnone |]. intros club Hne. now apply bool_decide_eq_false_2. }
  split; [apply Hcached |].
  intros body Hc Hbody Hnone. rewrite (getGroupCouples_uncached c g s Hc).
  rewrite (searchGroups_fetched (Some []) s body Hc Hbody).
  now apply (Hcached _ (parsedClubs body)).
Qed.

Lemma parsedClubs_trimmed body club :
  club ∈ parsedClubs body -> JS.trim (clubName club) = clubName club.
Proof.
  intros Hin. apply list_elem_of_In, in_map_iff in Hin as (o & <- & _). apply trim_idem.
Qed.

Lemma searchClubs_member key cs n :
  n ∈ searchClubs key cs -> exists club, club ∈ cs /\ clubName club = n.
Proof.
  unfold searchClubs. intros Hn. apply list_elem_of_In, in_map_iff in Hn as (club & <- & Hin).
  apply filter_In in Hin as [Hin _]. exists club. split; [now apply list_elem_of_In | reflexivity].
Qed.

(** X25: what [searchGroups] lists, [getGroupCouples] finds.  For a name
    that a search on a fresh provider returned, the empty name apart,
    [getGroupCouples] sends exactly one request, for the couples of a club
    of that name up to letter case; it resolves with one couple per row of
    the page when the site answers, and rejects with the failure of the site
    under the context of the group otherwise. *)
Theorem getGroupCouples_listed q s s1 names n :
  clubs s = None ->
  searchGroups q s = (Return names, s1) -> n ∈ names -> n <> [] ->
  exists club cs,
    clubs s1 = Some cs /\ club ∈ cs /\
    JS.toLowerCase (clubName club) = JS.toLowerCase n /\
    snd (getGroupCouples (Some n) s1) = withSent s1 (sent s1 ++ [couplesUrl s club]) /\
    (forall page,
       respond s (couplesUrl s club) = Return page ->
       exists couples,
         fst (getGroupCouples (Some n) s1) = Return couples /\
         Forall2 cellName (coupleCells (replaceUnallowed page)) couples) /\
    (forall e,
       respond s (couplesUrl s club) = Throw e ->
       fst (getGroupCouples (Some n) s1) =
       Throw (RequestError (js "failed to fetch couples of group " ++ n ++ js " from " ++
                            optName (opts s)) e)).
Proof.
  intros Hc Hsearch Hn Hne.
  destruct (respond s (clubsUrl s)) as [body | e] eqn:Hbody;
    [| rewrite (searchGroups_failed q s e Hc Hbody) in Hsearch; discriminate Hsearch].
  rewrite (searchGroups_fetched q s body Hc Hbody) in Hsearch.
  injection Hsearch as <- <-.
  apply searchClubs_member in Hn as (listed & Hlisted & <-).
  destruct (clubName listed) as [| c g] eqn:En; [contradiction |].
  rewrite (getGroupCouples_cached c g
             (withClubs (withSent s (sent s ++ [clubsUrl s])) (parsedClubs body))
             (parsedClubs body) eq_refl).
  rewrite <- En, (parsedClubs_trimmed body listed Hlisted).
  destruct (List.find _ (parsedClubs body)) as [club |] eqn:Efind.
  - apply find_some in Efind as [Hclub Hsame]. apply bool_decide_eq_true_1 in Hsame.
    exists club, (parsedClubs body).
    split; [reflexivity |]. split; [now apply list_elem_of_In |]. split; [exact Hsame |].
    change (couplesUrl (withClubs (withSent s (sent s ++ [clubsUrl s])) (parsedClubs body)) club)
      with (couplesUrl s club).
    cbn [fst snd respond opts withClubs withSent].
    split; [reflexivity |]. split.
    + intros page ->. eexists. split; [reflexivity | apply cellName_rows].
    + now intros e ->.
  - exfalso. pose proof (find_none _ _ Efind listed (proj1 (list_elem_of_In _ _) Hlisted)) as Hno.
    cbv beta in Hno. rewrite bool_decide_eq_true_2 in Hno by reflexivity. discriminate Hno.
Qed.

(** X26: when the club list is needed and cannot be fetched, [getGroupCouples]
    rejects with the failure of the group list and asks for nothing else. *)
Theorem getGroupCouples_no_club_list g s e :
  g <> [] -> clubs s = None -> respond s (clubsUrl s) = Throw e ->
  getGroupCouples (Some g) s =
  (Throw (RequestError (js "failed to fetch group list from " ++ optName (opts s)) e),
   withSent s (sent s ++ [clubsUrl s])).
Proof.
  intros Hg Hc Hfail. destruct g as [| c g]; [contradiction |].
  rewrite (getGroupCouples_uncached c g s Hc).
  now rewrite (searchGroups_failed (Some []) s e Hc Hfail).
Qed.

End Groups.

(** A search, then another, on the example site. *)
Lemma searchGroups_once_witness :
  @searchGroups siteHost (Some (js " paris ")) siteState =
    (Return [js "Paris Danse"],
     withClubs (withSent siteState [js "http://ffds.example/clubs.php"]) siteClubs) /\
  @searchGroups siteHost (Some (js "ROCK"))
    (snd (@searchGroups siteHost (Some (js " paris ")) siteState)) =
    (Return [js "Lyon Rock"], snd (@searchGroups siteHost (Some (js " paris ")) siteState)).
Proof.
  exact (@searchGroups_once siteHost (Some (js " paris ")) (Some (js "ROCK")) siteState
           (js "clubs") eq_refl eq_refl).
Defined.

(** Two searches with the site out of reach. *)
Lemma searchGroups_retries_witness :
  @searchGroups siteHost None
    (snd (@searchGroups siteHost (Some (js "paris")) siteDown)) =
  (Throw (RequestError (js "failed to fetch group list from FFDS")
            (NetworkError (js "ECONNREFUSED"))),
   withSent siteDown [js "http://ffds.example/clubs.php"; js "http://ffds.example/clubs.php"]).
Proof.
  exact (proj2 (@searchGroups_retries siteHost (Some (js "paris")) None siteDown
                  (NetworkError (js "ECONNREFUSED")) eq_refl eq_refl)).
Defined.

(** Two spaces. *)
Lemma searchGroups_blank_witness :
  @searchGroups siteHost (Some (js "  ")) siteCached =
  (Return [js "Paris Danse"; js "Lyon Rock"], siteCached).
Proof.
  refine (proj1 (@searchGroups_blank siteHost (js "  ") siteCached siteClubs eq_refl _)).
  repeat constructor.
Defined.

(** A fragment in capitals, with white space around it. *)
Lemma searchGroups_finds_witness :
  exists names,
    @searchGroups siteHost (Some (js " DANSE ")) siteCached = (Return names, siteCached) /\
    js "Paris Danse" ∈ names.
Proof.
  destruct (@searchGroups_finds siteHost (Some (js " DANSE ")) siteCached siteClubs eq_refl)
    as (names & Hrun & Hnames).
  exists names. split; [exact Hrun |]. apply Hnames.
  exists (mkClub (Some (js "12")) (js "Paris Danse")), (js "paris "), [].
  split; [now left | split; reflexivity].
Defined.

(** No club of the example site is called Nice Tango. *)
Lemma getGroupCouples_unknown_group_witness :
  @getGroupCouples siteHost (Some (js "Nice Tango")) siteState =
  (Throw (GroupNotFound (js "Nice Tango")),
   withClubs (withSent siteState [js "http://ffds.example/clubs.php"]) siteClubs).
Proof.
  refine (proj2 (@getGroupCouples_unknown_group siteHost (js "Nice Tango") siteState _)
            (js "clubs") eq_refl eq_refl _).
  - discriminate.
  - repeat constructor; vm_compute; discriminate.
Defined.

(** The club that a search for [pari] lists. *)
Lemma getGroupCouples_listed_witness :
  exists club,
    snd (@getGroupCouples siteHost (Some (js "Paris Danse"))
           (withClubs (withSent siteState [js "http://ffds.example/clubs.php"]) siteClubs)) =
    withSent (withClubs (withSent siteState [js "http://ffds.example/clubs.php"]) siteClubs)
      [js "http://ffds.example/clubs.php"; @couplesUrl siteHost siteState club].
Proof.
  destruct (@getGroupCouples_listed siteHost (Some (js "pari")) siteState
              (withClubs (withSent siteState [js "http://ffds.example/clubs.php"]) siteClubs)
              [js "Paris Danse"] (js "Paris Danse") eq_refl eq_refl)
    as (club & cs & _ & _ & _ & Hsent & _).
  - now left.
  - discriminate.
  - exists club. exact Hsent.
Defined.

(** The site out of reach. *)
Lemma getGroupCouples_no_club_list_witness :
  @getGroupCouples siteHost (Some (js "Paris Danse")) siteDown =
  (Throw (RequestError (js "failed to fetch group list from FFDS")
            (NetworkError (js "ECONNREFUSED"))),
   withSent siteDown [js "http://ffds.example/clubs.php"]).
Proof.
  refine (@getGroupCouples_no_club_list siteHost (js "Paris Danse") siteDown
            (NetworkError (js "ECONNREFUSED")) _ eq_refl eq_refl).
  discriminate.
Defined.

(** ** What every operation leaves untouched *)

Section Frame.
Context `{Host}.

Lemma keeps_refl s : keeps s s.
Proof. repeat split; eauto. exists []. now rewrite app_nil_r. Qed.

Lemma keeps_trans s1 s2 s3 : keeps s1 s2 -> keeps s2 s3 -> keeps s1 s3.
Proof.
  intros (Ho & Hc & Hr & (m & Hm) & Hk) (Ho' & Hc' & Hr' & (m' & Hm') & Hk').
  repeat split; try congruence; [| eauto].
  exists (m ++ m'). now rewrite Hm', Hm, <- app_assoc.
Qed.

Lemma keeps_request url s : keeps s (snd (request url s)).
Proof. unfold request. cbn. repeat split; eauto. Qed.

Lemma keeps_andThen {A B} (p : Promise State A) (k : A -> Promise State B) :
  (forall s, keeps s (snd (p s))) -> (forall a s, keeps s (snd (k a s))) ->
  forall s, keeps s (snd (andThen p k s)).
Proof.
  intros Hp Hk s. unfold andThen. specialize (Hp s).
  destruct (p s) as [[a | e] s1]; [| exact Hp].
  exact (keeps_trans _ _ _ Hp (Hk a s1)).
Qed.

Lemma keeps_orCatch {A} (p : Promise State A) (h : Error -> Promise State A) :
  (forall s, keeps s (snd (p s))) -> (forall e s, keeps s (snd (h e s))) ->
  forall s, keeps s (snd (orCatch p h s)).
Proof.
  intros Hp Hh s. unfold orCatch. specialize (Hp s).
  destruct (p s) as [[a | e] s1]; [exact Hp |].
  exact (keeps_trans _ _ _ Hp (Hh e s1)).
Qed.

Lemma keeps_handler {A} context e s :
  keeps s (snd (@Utils.handleRequestError State A context e s)).
Proof. apply keeps_refl. Qed.

Lemma keeps_runSerially {A} (tasks : list (Promise State A)) :
  Forall (fun task => forall s, keeps s (snd (task s))) tasks ->
  forall s, keeps s (snd (Utils.runSerially tasks s)).
Proof.
  induction 1 as [| task tasks Htask _ IH]; intros s; [apply keeps_refl |].
  change (keeps s (snd (match task s with
                        | (Return a, s1) =>
                            match Utils.runSerially tasks s1 with
                            | (Return rest, s2) => (Return (a :: rest), s2)
                            | (Throw e, s2) => (Throw e, s2)
                            end
                        | (Throw e, s1) => (Throw e, s1)
                        end))).
  specialize (Htask s).
  destruct (task s) as [[a | e] s1]; [| exact Htask].
  specialize (IH s1). destruct (Utils.runSerially tasks s1) as [[rest | e] s2];
    exact (keeps_trans _ _ _ Htask IH).
Qed.

Lemma keeps_asks {A} (f : jsstring -> Promise State A) h urls :
  asks f h -> Forall (fun task => forall s, keeps s (snd (task s))) (map f urls).
Proof.
  intros Hf. apply Forall_map, Forall_forall. intros url _ s. rewrite Hf.
  apply (keeps_request url s).
Qed.

Lemma keeps_searchGroups q s : keeps s (snd (searchGroups q s)).
Proof.
  destruct (clubs s) as [cs |] eqn:Hc.
  - rewrite (searchGroups_cached q s cs Hc). apply keeps_refl.
  - destruct (respond s (clubsUrl s)) as [body | e] eqn:Hbody.
    + rewrite (searchGroups_fetched q s body Hc Hbody). cbn.
      repeat split; eauto. intros cs Hcs. congruence.
    + rewrite (searchGroups_failed q s e Hc Hbody). apply (keeps_request (clubsUrl s) s).
Qed.

Lemma keeps_getGroupCouples g s : keeps s (snd (getGroupCouples g s)).
Proof.
  destruct g as [[| c g] |]; try apply keeps_refl.
  assert (forall s' cs, clubs s' = Some cs ->
                        keeps s' (snd (getGroupCouples (Some (c :: g)) s'))) as Hcached.
  { intros s' cs Hc. rewrite (getGroupCouples_cached c g s' cs Hc).
    destruct (List.find _ cs) as [club |]; [| apply keeps_refl].
    apply (keeps_request (couplesUrl s' club) s'). }
  destruct (clubs s) as [cs |] eqn:Hc; [now apply (Hcached s cs) |].
  rewrite (getGroupCouples_uncached c g s Hc).
  pose proof (keeps_searchGroups (Some []) s) as Hsearch.
  destruct (searchGroups (Some []) s) as [[names | e] s1] eqn:E; [| exact Hsearch].
  destruct (clubs s1) as [cs1 |] eqn:Hc1.
  - exact (keeps_trans _ _ _ Hsearch (Hcached s1 cs1 Hc1)).
  - exfalso. unfold searchGroups in E. rewrite Hc in E.
    unfold orCatch, andThen, request in E.
    destruct (respond s _); [| discriminate E]. injection E as _ <-. discriminate Hc1.
Qed.

(** X28: no operation changes the configuration, the clock or the site, none
    forgets a request that was sent, and none replaces a club cache that is
    filled. *)
Theorem provider_keeps s :
  (forall year, keeps s (snd (listResults year s))) /\
  (forall competition, keeps s (snd (getDetails competition s))) /\
  (forall searched, keeps s (snd (searchGroups searched s))) /\
  (forall group, keeps s (snd (getGroupCouples group s))) /\
  (forall searched, keeps s (snd (searchCouples searched s))).
Proof.
  split; [| split; [| split; [| split]]].
  - intros year. unfold listResults.
    apply keeps_orCatch; [| intros; apply keeps_handler].
    apply keeps_andThen; [apply keeps_request | intros; apply keeps_refl].
  - intros competition. rewrite getDetails_tasks.
    apply keeps_andThen.
    + apply keeps_runSerially. eapply keeps_asks, detail_asks.
    + intros rawUrls. apply keeps_andThen; [| intros; apply keeps_refl].
      apply keeps_runSerially. eapply keeps_asks, ranking_asks.
  - intros searched. apply keeps_searchGroups.
  - intros group. apply keeps_getGroupCouples.
  - intros searched. unfold searchCouples.
    apply keeps_orCatch; [| intros; apply keeps_handler].
    apply keeps_andThen; [apply keeps_request | intros; apply keeps_refl].
Qed.

End Frame.
